(** * Mass token buy: the operation orchestrator and the allocation planner

    A shallow embedding of [TransactionManager] (transactions.ts) together
    with the parts of [Database] (database.ts) and [WalletService]
    (wallet.ts) it drives.

    Conventions of the embedding.
    - A JavaScript [number] is a [jsnum]: [NaN], an infinity, or an exact
      rational.  Rounding to binary64 is not modelled; every statement about
      sums is exact on the rationals, so it holds a fortiori "within a
      decimal tolerance".
    - A [bigint] (wei amounts) is a [Z]; bigint division truncates
      ([Z.quot]).
    - Every asynchronous collaborator call ([await ...]) is a [Site]; what
      it answers, whether it rejects, and whether the user presses "stop"
      while it is pending are read from an environment [Env].  Each site is
      reached at most once per call of a public method, so the environment
      is fully general.
    - The instance fields of [TransactionManager], the IndexedDB stores and
      the log sink make up the [World]; every computation also
      yields the list of collaborator calls and cancellation checks it
      made, in order. *)

From Stdlib Require Import ZArith QArith Qminmax Qabs Qround Lqa Lia String Ascii
  Bool List.
Import ListNotations.
Open Scope string_scope.
Open Scope list_scope.

(* ================================================================== *)
(** ** JavaScript numbers *)

Module JS.

Local Open Scope Q_scope.

(** [Inf true] is -Infinity, [Inf false] is +Infinity. *)
Inductive jsnum : Type :=
| NaN
| Inf (negative : bool)
| Num (q : Q).

Definition Qltb (x y : Q) : bool :=
  match x ?= y with Lt => true | _ => false end.

Definition Qeqb (x y : Q) : bool :=
  match x ?= y with Eq => true | _ => false end.

(** [a < b] *)
Definition lt (a b : jsnum) : bool :=
  match a, b with
  | NaN, _ | _, NaN => false
  | Num x, Num y => Qltb x y
  | Inf s, Inf t => s && negb t
  | Inf s, Num _ => s
  | Num _, Inf t => negb t
  end.

(** [a > b] *)
Definition gt (a b : jsnum) : bool := lt b a.

(** [a <= b] *)
Definition le (a b : jsnum) : bool :=
  match a, b with
  | NaN, _ | _, NaN => false
  | _, _ => negb (lt b a)
  end.

Definition neg (a : jsnum) : jsnum :=
  match a with
  | NaN => NaN
  | Inf s => Inf (negb s)
  | Num x => Num (- x)
  end.

(** [a + b] *)
Definition add (a b : jsnum) : jsnum :=
  match a, b with
  | NaN, _ | _, NaN => NaN
  | Num x, Num y => Num (x + y)
  | Inf s, Inf t => if Bool.eqb s t then Inf s else NaN
  | Inf s, Num _ => Inf s
  | Num _, Inf t => Inf t
  end.

(** [a - b] *)
Definition sub (a b : jsnum) : jsnum := add a (neg b).

(** [a * b] *)
Definition mul (a b : jsnum) : jsnum :=
  match a, b with
  | NaN, _ | _, NaN => NaN
  | Num x, Num y => Num (x * y)
  | Inf s, Inf t => Inf (xorb s t)
  | Inf s, Num y | Num y, Inf s =>
      if Qeqb y 0 then NaN else Inf (xorb s (Qltb y 0))
  end.

(** [Math.min(a, b)] *)
Definition min (a b : jsnum) : jsnum :=
  match a, b with
  | NaN, _ | _, NaN => NaN
  | _, _ => if lt b a then b else a
  end.

(** [Math.max(a, b)] *)
Definition max (a b : jsnum) : jsnum :=
  match a, b with
  | NaN, _ | _, NaN => NaN
  | _, _ => if lt a b then b else a
  end.

Definition of_nat (n : nat) : jsnum := Num (inject_Z (Z.of_nat n)).
Definition of_Z (z : Z) : jsnum := Num (inject_Z z).

(** *** [parseFloat] on ASCII input (ECMAScript StrDecimalLiteral prefix) *)

Definition is_space (c : ascii) : bool :=
  let n := nat_of_ascii c in
  ((9 <=? n) && (n <=? 13))%nat || (n =? 32)%nat.

Definition digit_of (c : ascii) : option Z :=
  let n := nat_of_ascii c in
  if ((48 <=? n) && (n <=? 57))%nat then Some (Z.of_nat (n - 48)) else None.

Fixpoint skip_space (s : string) : string :=
  match s with
  | String c r => if is_space c then skip_space r else s
  | EmptyString => s
  end.

(** Reads the longest run of digits: accumulated value, number of digits
    read, and the rest of the input. *)
Fixpoint read_digits (s : string) (acc : Z) (cnt : nat) : Z * nat * string :=
  match s with
  | String c r =>
      match digit_of c with
      | Some d => read_digits r (10 * acc + d)%Z (S cnt)
      | None => (acc, cnt, s)
      end
  | EmptyString => (acc, cnt, s)
  end.

Definition read_sign (s : string) : bool * string :=
  match s with
  | String "-" r => (true, r)
  | String "+" r => (false, r)
  | _ => (false, s)
  end.

(** Exponent part [e[+-]digits]; when no digit follows it is not part of
    the literal and the exponent is 0. *)
Definition read_exponent (s : string) : Z :=
  match s with
  | String c r =>
      if (Ascii.eqb c "e" || Ascii.eqb c "E")%bool then
        let '(sg, r1) := read_sign r in
        let '(e, cnt, _) := read_digits r1 0%Z 0%nat in
        match cnt with
        | O => 0%Z
        | _ => if sg then (- e)%Z else e
        end
      else 0%Z
  | EmptyString => 0%Z
  end.

Definition parseFloat (input : string) : jsnum :=
  let '(sg, s1) := read_sign (skip_space input) in
  if String.prefix "Infinity" s1 then Inf sg
  else
    let '(ip, icnt, s2) := read_digits s1 0%Z 0%nat in
    let '(fp, fcnt, s3) :=
      match s2 with
      | String "." r => read_digits r 0%Z 0%nat
      | _ => (0%Z, 0%nat, s2)
      end in
    match (icnt + fcnt)%nat with
    | O => NaN
    | _ =>
        let scale := (10 ^ Z.of_nat fcnt)%Z in
        let mant := inject_Z (ip * scale + fp) / inject_Z scale in
        let v := mant * Qpower (inject_Z 10) (read_exponent s3) in
        Num (if sg then - v else v)
    end.

End JS.

Import JS.

(* ================================================================== *)
(** ** Data model (types.ts) *)

Inductive WalletStatus := created | funded | swapped | transferred | completed.
Inductive TxType := fund_transfer | token_swap | token_transfer | eth_transfer.
Inductive TxStatus := pending | success | failed.
Inductive Level := info | ok_level | warning | error.

Definition WalletStatus_eqb (a b : WalletStatus) : bool :=
  match a, b with
  | created, created | funded, funded | swapped, swapped
  | transferred, transferred | completed, completed => true
  | _, _ => false
  end.

Record AppConfig := mkConfig {
  tokenAddress : string;
  numWallets : Z;
  masterPrivateKey : string;
  targetAddress : string;
  gasAmount : string;
  minPurchaseAmount : string;
  maxPurchaseAmount : string;
  minKeptTokens : string;
  chain : string;
  dex : string;
  rpcUrl : string
}.

(** [createdAt], [ethBalance] and [tokenBalance] are never read by the
    orchestrator and are left out. *)
Record WalletInfo := mkWallet {
  id : option positive;
  address : string;
  encryptedPrivateKey : string;
  status : WalletStatus
}.

(** [amount] is the number whose decimal rendering the source stores. *)
Record Transaction := mkTx {
  tx_type : TxType;
  fromAddress : string;
  toAddress : string;
  amount : jsnum;
  token : string;
  txHash : option string;
  tx_status : TxStatus;
  tx_error : option string
}.

(* ================================================================== *)
(** ** The Ledger (database.ts)

    An object store with [autoIncrement] keys is the list of its entries in
    key order together with the key generator's next value. *)

Record Database := mkDb {
  wallets : list (positive * WalletInfo);
  walletKey : positive;
  transactions : list (positive * Transaction);
  transactionKey : positive;
  config : option AppConfig
}.

Definition with_id (e : positive * WalletInfo) : WalletInfo :=
  mkWallet (Some (fst e)) (address (snd e)) (encryptedPrivateKey (snd e))
           (status (snd e)).

Definition with_status (st : WalletStatus) (r : WalletInfo) : WalletInfo :=
  mkWallet (id r) (address r) (encryptedPrivateKey r) st.

Definition has_key {A} (k : positive) (store : list (positive * A)) : bool :=
  existsb (fun e => Pos.eqb (fst e) k) store.

Definition put {A} (k : positive) (f : A -> A) (store : list (positive * A))
  : list (positive * A) :=
  map (fun e => if Pos.eqb (fst e) k then (fst e, f (snd e)) else e) store.

(** [saveWallet]: the [id] of the argument is dropped, the generator's key
    is used. *)
Definition db_saveWallet (w : WalletInfo) (d : Database) : positive * Database :=
  let k := walletKey d in
  (k, mkDb (wallets d ++ [(k, w)]) (Pos.succ k)
           (transactions d) (transactionKey d) (config d)).

Definition db_getWallet (k : positive) (d : Database) : option WalletInfo :=
  option_map with_id (find (fun e => Pos.eqb (fst e) k) (wallets d)).

Definition db_getAllWallets (d : Database) : list WalletInfo :=
  map with_id (wallets d).

(** [updateWallet(id, { status })]; [None] is the rejection
    'Wallet not found'. *)
Definition db_updateWallet (k : positive) (st : WalletStatus) (d : Database)
  : option Database :=
  if has_key k (wallets d) then
    Some (mkDb (put k (with_status st) (wallets d)) (walletKey d)
               (transactions d) (transactionKey d) (config d))
  else None.

Definition db_saveTransaction (t : Transaction) (d : Database)
  : positive * Database :=
  let k := transactionKey d in
  (k, mkDb (wallets d) (walletKey d)
           (transactions d ++ [(k, t)]) (Pos.succ k) (config d)).

(** The partial updates the orchestrator sends: the new status with the
    hash (on success) or the error message (on failure). *)
Definition tx_update (st : TxStatus) (hash err : option string)
  (t : Transaction) : Transaction :=
  mkTx (tx_type t) (fromAddress t) (toAddress t) (amount t) (token t)
       (match hash with Some h => Some h | None => txHash t end)
       st
       (match err with Some m => Some m | None => tx_error t end).

Definition db_updateTransaction (k : positive) (st : TxStatus)
  (hash err : option string) (d : Database) : option Database :=
  if has_key k (transactions d) then
    Some (mkDb (wallets d) (walletKey d)
               (put k (tx_update st hash err) (transactions d))
               (transactionKey d) (config d))
  else None.

(* ================================================================== *)
(** ** Collaborator calls, environment and world *)

Inductive Phase := Setup | Create | Fund | Swap | Consolidate | Cleanup | Manual.

Inductive Op :=
| LoadMaster | GetBalance | GetTokenBalance | GetFeeData
| CreateWallet | LoadWallet
| SaveWallet | GetWallet | GetAllWallets | GetConfig
| SaveTransaction (t : TxType)
| UpdateTransaction (t : TxType) (s : TxStatus)
| UpdateWallet (s : WalletStatus) (in_handler : bool)
| TransferETH | TransferToken | SwapETHToToken
| Delay.

(** The call [op] made for the wallet at position [index] of the loop of
    [phase]. *)
Record Site := site { phase : Phase; index : nat; op : Op }.

Inductive CheckPoint :=
| LoopTop (p : Phase) (i : nat)
| Boundary (p : Phase).

Inductive Event :=
| Call (s : Site) (succeeded : bool)
| Check (c : CheckPoint) (observed : bool).

Inductive Error :=
| Err (message : string)
| Rejected (s : Site).

Record Env := mkEnv {
  isAddress : string -> bool;      (* ethers.isAddress *)
  random : nat -> Q;               (* the k-th value of Math.random() *)
  rejects : Site -> bool;          (* the call throws / its promise rejects *)
  stop_during : Site -> bool;      (* stopOperation() runs while it is pending *)
  text : Site -> string;           (* string answer: balance, address, hash *)
  ciphertext : Site -> string;     (* CryptoService.encrypt's answer *)
  wei : Site -> Z;                 (* bigint answer of provider.getBalance *)
  feeGasPrice : Site -> option Z   (* feeData.gasPrice, possibly null *)
}.

Record World := mkWorld {
  isRunning : bool;
  shouldStop : bool;
  watchdogTimer : bool;
  database : Database;
  logs : list (Level * string);
  draws : nat                      (* calls of Math.random() so far *)
}.

Definition set_isRunning (b : bool) (w : World) : World :=
  mkWorld b (shouldStop w) (watchdogTimer w) (database w) (logs w) (draws w).
Definition set_shouldStop (b : bool) (w : World) : World :=
  mkWorld (isRunning w) b (watchdogTimer w) (database w) (logs w) (draws w).
Definition set_watchdogTimer (b : bool) (w : World) : World :=
  mkWorld (isRunning w) (shouldStop w) b (database w) (logs w) (draws w).
Definition set_database (d : Database) (w : World) : World :=
  mkWorld (isRunning w) (shouldStop w) (watchdogTimer w) d (logs w) (draws w).
Definition add_log (l : Level) (m : string) (w : World) : World :=
  mkWorld (isRunning w) (shouldStop w) (watchdogTimer w) (database w)
          (logs w ++ [(l, m)]) (draws w).
Definition add_draw (w : World) : World :=
  mkWorld (isRunning w) (shouldStop w) (watchdogTimer w) (database w)
          (logs w) (S (draws w)).

(* ================================================================== *)
(** ** The monad: state, exceptions and the trace of events *)

Inductive Outcome (A : Type) :=
| Ret (a : A)
| Thrown (e : Error).
Arguments Ret {A} a.
Arguments Thrown {A} e.

Definition M (A : Type) : Type := World -> Outcome A * World * list Event.

Definition ret {A} (a : A) : M A := fun w => (Ret a, w, []).
Definition throw {A} (e : Error) : M A := fun w => (Thrown e, w, []).

Definition bind {A B} (m : M A) (f : A -> M B) : M B :=
  fun w =>
    let '(r, w1, t1) := m w in
    match r with
    | Ret a => let '(r2, w2, t2) := f a w1 in (r2, w2, t1 ++ t2)
    | Thrown e => (Thrown e, w1, t1)
    end.

(** [try { m } catch (e) { h e }] *)
Definition try_catch {A} (m : M A) (h : Error -> M A) : M A :=
  fun w =>
    let '(r, w1, t1) := m w in
    match r with
    | Ret a => (Ret a, w1, t1)
    | Thrown e => let '(r2, w2, t2) := h e w1 in (r2, w2, t1 ++ t2)
    end.

(** [try { m } finally { f }], for an [f] that completes normally or
    throws (which then replaces the outcome of [m]). *)
Definition try_finally {A} (m : M A) (f : M unit) : M A :=
  fun w =>
    let '(r, w1, t1) := m w in
    let '(r2, w2, t2) := f w1 in
    match r2 with
    | Ret _ => (r, w2, t1 ++ t2)
    | Thrown e => (Thrown e, w2, t1 ++ t2)
    end.

Definition modify (f : World -> World) : M unit := fun w => (Ret tt, f w, []).
Definition emit (e : Event) : M unit := fun w => (Ret tt, w, [e]).

Declare Scope m_scope.
Delimit Scope m_scope with m.
Notation "x <- m ;; k" := (bind m (fun x => k))
  (at level 61, m at next level, right associativity) : m_scope.
Notation "m ;; k" := (bind m (fun _ => k))
  (at level 61, right associativity) : m_scope.
Open Scope m_scope.

Definition outcome {A} (r : Outcome A * World * list Event) : Outcome A :=
  fst (fst r).
Definition final {A} (r : Outcome A * World * list Event) : World :=
  snd (fst r).
Definition events {A} (r : Outcome A * World * list Event) : list Event :=
  snd r.

(* ================================================================== *)
(** ** TransactionManager (transactions.ts) *)

(** An element of the local [wallets] array of [executeOperation]: the
    generated wallet (its address), its ledger key and its allocation. *)
Record Entry := mkEntry {
  wallet : string;
  dbId : positive;
  purchaseAmount : jsnum
}.

Section Orchestrator.

Variable env : Env.

(** [this.log]: the entry goes to the [onLog] sink.  Of the log lines of
    the source the warnings and errors are kept, with their fixed text;
    [info]/[success] lines, [updateStatus] snapshots and the watchdog's
    [updateActivity] timestamps only feed the presentation layer. *)
Definition log (l : Level) (m : string) : M unit := modify (add_log l m).

(** [stopOperation()] *)
Definition stopOperation : M unit :=
  fun w =>
    if isRunning w
    then (Ret tt, add_log warning "Stopping operation..." (set_shouldStop true w), [])
    else (Ret tt, w, []).

(** [isOperationRunning()] *)
Definition isOperationRunning (w : World) : bool := isRunning w.

(** While the promise of site [s] is pending the event loop may run the
    stop button's handler. *)
Definition while_pending (s : Site) : M unit :=
  if stop_during env s then stopOperation else ret tt.

(** [await] of a collaborator call that answers [answer] or rejects. *)
Definition await {A} (s : Site) (answer : A) : M A :=
  while_pending s;;
  if rejects env s
  then emit (Call s false);; throw (Rejected s)
  else emit (Call s true);; ret answer.

(** A synchronous collaborator call. *)
Definition call {A} (s : Site) (answer : A) : M A :=
  if rejects env s
  then emit (Call s false);; throw (Rejected s)
  else emit (Call s true);; ret answer.

(** [await this.delay(ms)] *)
Definition delay (s : Site) : M unit :=
  while_pending s;; emit (Call s true).

(** A ledger request: it may reject on its own ([rejects]) or because the
    store refuses it ([None], with the store's message). *)
Definition request {A} (s : Site) (f : Database -> option (A * Database))
  (refusal : string) : M A :=
  while_pending s;;
  fun w =>
    if rejects env s then (Thrown (Rejected s), w, [Call s false])
    else match f (database w) with
         | Some (a, d) => (Ret a, set_database d w, [Call s true])
         | None => (Thrown (Err refusal), w, [Call s false])
         end.

Definition saveWallet (s : Site) (w : WalletInfo) : M positive :=
  request s (fun d => Some (db_saveWallet w d)) "Failed to save wallet".

Definition getWallet (s : Site) (k : positive) : M (option WalletInfo) :=
  request s (fun d => Some (db_getWallet k d, d)) "Failed to get wallet".

Definition getAllWallets (s : Site) : M (list WalletInfo) :=
  request s (fun d => Some (db_getAllWallets d, d)) "Failed to get wallets".

Definition updateWallet (s : Site) (k : positive) (st : WalletStatus) : M unit :=
  request s (fun d => option_map (fun d' => (tt, d')) (db_updateWallet k st d))
          "Wallet not found".

Definition saveTransaction (s : Site) (t : Transaction) : M positive :=
  request s (fun d => Some (db_saveTransaction t d)) "Failed to save transaction".

Definition updateTransaction (s : Site) (k : positive) (st : TxStatus)
  (hash err : option string) : M unit :=
  request s (fun d => option_map (fun d' => (tt, d'))
                        (db_updateTransaction k st hash err d))
          "Transaction not found".

Definition getConfig (s : Site) : M (option AppConfig) :=
  request s (fun d => Some (config d, d)) "Failed to get config".

(** wallet.ts.  A generated wallet is its address; [createWallet] also
    encrypts the key. *)
Definition createWallet (s : Site) : M WalletInfo :=
  await s (mkWallet None (text env s) (ciphertext env s) created).

Definition loadWallet (s : Site) (w : WalletInfo) : M string :=
  await s (address w).

Definition getWalletFromPrivateKey (s : Site) : M string :=
  call s (text env s).

Definition getBalance (s : Site) : M string := await s (text env s).
Definition getTokenBalance (s : Site) : M string := await s (text env s).
Definition provider_getBalance (s : Site) : M Z := await s (wei env s).
Definition provider_getFeeData (s : Site) : M (option Z) :=
  await s (feeGasPrice env s).

Definition finite (a : jsnum) : bool :=
  match a with Num _ => true | _ => false end.

(** [transferETH], [transferToken] and [swapETHToToken] first turn the
    decimal string of the amount into wei ([parseEther]/[parseUnits]),
    which throws on the rendering of a non-finite number; the answer is the
    receipt's hash. *)
Definition submit (s : Site) (amount : jsnum) : M string :=
  if finite amount then await s (text env s)
  else emit (Call s false);; throw (Err "invalid decimal amount").

Definition transferETH := submit.
Definition transferToken := submit.
Definition swapETHToToken := submit.

(** [feeData.gasPrice || ethers.parseUnits('0.1', 'gwei')]: a null or zero
    price is falsy. *)
Definition gasPrice_or_default (p : option Z) : Z :=
  match p with
  | Some g => if (g =? 0)%Z then 100000000%Z else g
  | None => 100000000%Z
  end.

(** [parseFloat(ethers.formatEther(wei))] *)
Definition ether (z : Z) : jsnum := Num (inject_Z z / inject_Z (10 ^ 18)).

Definition guard (violated : bool) (message : string) : M unit :=
  if violated then throw (Err message) else ret tt.

(** [validateConfig] *)
Definition validateConfig (config : AppConfig) : M unit :=
  guard (negb (isAddress env (tokenAddress config))) "Invalid token address";;
  guard (negb (isAddress env (targetAddress config))) "Invalid target address";;
  guard ((numWallets config <? 1)%Z || (numWallets config >? 1000)%Z)
        "Number of wallets must be between 1 and 1000";;
  guard (JS.le (parseFloat (gasAmount config)) (Num 0))
        "Gas amount must be greater than 0";;
  guard (JS.le (parseFloat (minPurchaseAmount config)) (Num 0))
        "Minimum purchase amount must be greater than 0";;
  guard (JS.le (parseFloat (maxPurchaseAmount config)) (Num 0))
        "Maximum purchase amount must be greater than 0";;
  guard (JS.gt (parseFloat (minPurchaseAmount config))
               (parseFloat (maxPurchaseAmount config)))
        "Minimum purchase amount cannot exceed maximum purchase amount";;
  guard (JS.lt (parseFloat (minKeptTokens config)) (Num 0))
        "Minimum kept tokens cannot be negative";;
  guard ((rpcUrl config =? "")%string || negb (String.prefix "http" (rpcUrl config)))
        "Invalid RPC URL".

(** *** The allocation planner *)

(** [allocations[i] += v]; an index outside the array leaves its elements
    as they are. *)
Fixpoint add_at (i : nat) (v : jsnum) (allocations : list jsnum) : list jsnum :=
  match allocations, i with
  | [], _ => []
  | a :: rest, O => JS.add a v :: rest
  | a :: rest, S j => a :: add_at j v rest
  end.

Definition math_random : M Q :=
  fun w => (Ret (random env (draws w)), add_draw w, []).

(** Step 3 of [generateRandomAllocations]: the loop
    [for (i = 0; i < numWallets - 1; i++)], with [todo] iterations left. *)
Fixpoint distribute (todo i : nat) (minAmount maxAmount : jsnum)
  (allocations : list jsnum) (remaining : jsnum) : M (list jsnum * jsnum) :=
  match todo with
  | O => ret (allocations, remaining)
  | S todo' =>
      let maxCanAdd := JS.sub maxAmount minAmount in
      let maxSafeAdd := JS.min maxCanAdd remaining in
      if JS.gt maxSafeAdd (Num 0) then
        r <- math_random;;
        let add := JS.mul (Num r) maxSafeAdd in
        distribute todo' (S i) minAmount maxAmount
                   (add_at i add allocations) (JS.sub remaining add)
      else
        distribute todo' (S i) minAmount maxAmount allocations remaining
  end.

Definition generateRandomAllocations (numWallets : nat)
  (totalAvailable minAmount maxAmount : jsnum) : M (list jsnum) :=
  let minRequired := JS.mul (JS.of_nat numWallets) minAmount in
  let maxPossible := JS.mul (JS.of_nat numWallets) maxAmount in
  guard (JS.lt totalAvailable minRequired) "Insufficient funds for allocation";;
  (if JS.gt totalAvailable maxPossible
   then log warning "Available funds exceed maximum allocation. Will allocate up to maximum."
   else ret tt);;
  let allocations := repeat minAmount numWallets in
  let remaining := JS.sub totalAvailable minRequired in
  st <- distribute (numWallets - 1) 0 minAmount maxAmount allocations remaining;;
  let '(allocations, remaining) := st in
  let lastWalletMax := JS.sub maxAmount minAmount in
  let toAdd := JS.min lastWalletMax remaining in
  ret (match numWallets with
       | O => allocations
       | S last => add_at last toAdd allocations
       end).

(** *** The phases of [executeOperation] *)

Definition checkStop (c : CheckPoint) : M bool :=
  fun w => (Ret (shouldStop w), w, [Check c (shouldStop w)]).

Definition message_of (e : Error) : string :=
  match e with
  | Err m => m
  | Rejected _ => "rejected"
  end.

(** Step 3, [for (i = 0; i < config.numWallets; i++)] with [todo]
    iterations left; answers the [wallets] array. *)
Fixpoint createWallets (todo i : nat) (purchaseAllocations : list jsnum)
  (wallets : list Entry) : M (list Entry) :=
  match todo with
  | O => ret wallets
  | S todo' =>
      stop <- checkStop (LoopTop Create i);;
      if stop then
        log warning "Operation stopped by user";;
        ret wallets
      else
        info <- createWallet (site Create i CreateWallet);;
        dbId <- saveWallet (site Create i SaveWallet) info;;
        let purchaseAmount := nth i purchaseAllocations NaN in
        delay (site Create i Delay);;
        createWallets todo' (S i) purchaseAllocations
                      (wallets ++ [mkEntry (address info) dbId purchaseAmount])
  end.

(** The loop of steps 4, 5 and 6,
    [for (i = 0; i < wallets.length; i++) { if (this.shouldStop) break; body }],
    from position [i] on. *)
Fixpoint for_each_wallet (p : Phase) (body : nat -> Entry -> M unit)
  (i : nat) (wallets : list Entry) : M unit :=
  match wallets with
  | [] => ret tt
  | e :: rest =>
      stop <- checkStop (LoopTop p i);;
      if stop then ret tt
      else
        body i e;;
        for_each_wallet p body (S i) rest
  end.

(** One iteration of step 4 after the stop check. *)
Definition fundWallet (masterWallet : string) (gasAmount : jsnum)
  (i : nat) (e : Entry) : M unit :=
  let amountToSend := JS.add gasAmount (purchaseAmount e) in
  try_catch
    (txId <- saveTransaction (site Fund i (SaveTransaction fund_transfer))
               (mkTx fund_transfer masterWallet (wallet e) amountToSend "ETH"
                     None pending None);;
     hash <- transferETH (site Fund i TransferETH) amountToSend;;
     updateTransaction (site Fund i (UpdateTransaction fund_transfer success))
                       txId success (Some hash) None;;
     updateWallet (site Fund i (UpdateWallet funded false)) (dbId e) funded)
    (fun err =>
       log error "Failed to fund wallet";;
       updateWallet (site Fund i (UpdateWallet created true)) (dbId e) created);;
  delay (site Fund i Delay).

Definition fundWallets (masterWallet : string) (gasAmount : jsnum)
  : nat -> list Entry -> M unit :=
  for_each_wallet Fund (fundWallet masterWallet gasAmount).

(** The amount step 5 swaps for a wallet holding [actualBalance] wei. *)
Definition actualSwapAmount (purchaseAmount : jsnum) (actualBalance : Z)
  (feeData : option Z) : jsnum :=
  let gasPrice := gasPrice_or_default feeData in
  let swapGasLimit := 500000%Z in
  let gasReserveWei := Z.quot (swapGasLimit * gasPrice * 150) 100 in
  let availableForSwapWei := (actualBalance - gasReserveWei)%Z in
  let availableForSwap := ether availableForSwapWei in
  JS.min purchaseAmount (JS.max (Num 0) availableForSwap).

(** One iteration of step 5 after the stop check; [continue] skips the
    delay at the end of the iteration. *)
Definition swapWallet (config : AppConfig) (i : nat) (e : Entry) : M unit :=
  continued <-
    try_catch
      (actualBalance <- provider_getBalance (site Swap i GetBalance);;
       feeData <- provider_getFeeData (site Swap i GetFeeData);;
       let amount := actualSwapAmount (purchaseAmount e) actualBalance feeData in
       if JS.le amount (Num 0) then
         log error "Insufficient balance for swap after gas";;
         ret true
       else
         txId <- saveTransaction (site Swap i (SaveTransaction token_swap))
                   (mkTx token_swap (wallet e) (wallet e) amount
                         (tokenAddress config) None pending None);;
         hash <- swapETHToToken (site Swap i SwapETHToToken) amount;;
         updateTransaction (site Swap i (UpdateTransaction token_swap success))
                           txId success (Some hash) None;;
         updateWallet (site Swap i (UpdateWallet swapped false)) (dbId e) swapped;;
         ret false)
      (fun err => log error "Failed to swap";; ret false);;
  if continued then ret tt else delay (site Swap i Delay).

Definition swapWallets (config : AppConfig) : nat -> list Entry -> M unit :=
  for_each_wallet Swap (swapWallet config).

(** One iteration of step 6 after the stop check. *)
Definition consolidateWallet (config : AppConfig) (i : nat) (e : Entry)
  : M unit :=
  try_catch
    (tokenBalance <- getTokenBalance (site Consolidate i GetTokenBalance);;
     let tokenBalanceNum := parseFloat tokenBalance in
     let minKept := parseFloat (minKeptTokens config) in
     let tokensToTransfer := JS.sub tokenBalanceNum minKept in
     (if JS.gt tokensToTransfer (Num (1 # 1000000)) then
        txId <- saveTransaction (site Consolidate i (SaveTransaction token_transfer))
                  (mkTx token_transfer (wallet e) (targetAddress config)
                        tokensToTransfer (tokenAddress config) None pending None);;
        try_catch
          (hash <- transferToken (site Consolidate i TransferToken) tokensToTransfer;;
           updateTransaction
             (site Consolidate i (UpdateTransaction token_transfer success))
             txId success (Some hash) None)
          (fun err =>
             updateTransaction
               (site Consolidate i (UpdateTransaction token_transfer failed))
               txId failed None (Some (message_of err));;
             log warning "Token transfer failed")
      else ret tt);;
     ethBalanceWei <- provider_getBalance (site Consolidate i GetBalance);;
     (if (ethBalanceWei >? 10000000000000)%Z then
        feeData <- provider_getFeeData (site Consolidate i GetFeeData);;
        let gasPrice := gasPrice_or_default feeData in
        let gasLimit := 21000%Z in
        let maxGasCostWei := (gasLimit * gasPrice * 2)%Z in
        let transferWei := (ethBalanceWei - maxGasCostWei)%Z in
        if (transferWei >? 0)%Z then
          txId <- saveTransaction (site Consolidate i (SaveTransaction eth_transfer))
                    (mkTx eth_transfer (wallet e) (targetAddress config)
                          (ether transferWei) "ETH" None pending None);;
          hash <- transferETH (site Consolidate i TransferETH) (ether transferWei);;
          updateTransaction
            (site Consolidate i (UpdateTransaction eth_transfer success))
            txId success (Some hash) None
        else log warning "Insufficient ETH after gas reserve"
      else ret tt);;
     updateWallet (site Consolidate i (UpdateWallet completed false))
                  (dbId e) completed)
    (fun err =>
       log error "Failed to transfer from wallet";;
       try_catch
         (updateWallet (site Consolidate i (UpdateWallet completed true))
                       (dbId e) completed)
         (fun dbError => log error "Failed to update wallet status"));;
  delay (site Consolidate i Delay).

Definition consolidateWallets (config : AppConfig)
  : nat -> list Entry -> M unit :=
  for_each_wallet Consolidate (consolidateWallet config).

(** [if (this.shouldStop) { this.isRunning = false; return; }] followed by
    the rest of the [try] block. *)
Definition unless_stopped (p : Phase) (rest : M unit) : M unit :=
  stop <- checkStop (Boundary p);;
  if stop then modify (set_isRunning false) else rest.

Definition step6 (config : AppConfig) (wallets : list Entry) : M unit :=
  consolidateWallets config 0 wallets.

Definition step5 (config : AppConfig) (wallets : list Entry) : M unit :=
  swapWallets config 0 wallets;;
  unless_stopped Swap (step6 config wallets).

Definition step4 (config : AppConfig) (masterWallet : string)
  (gasAmount : jsnum) (wallets : list Entry) : M unit :=
  fundWallets masterWallet gasAmount 0 wallets;;
  unless_stopped Fund (step5 config wallets).

Definition step3 (config : AppConfig) (masterWallet : string)
  (gasAmount : jsnum) (purchaseAllocations : list jsnum) : M unit :=
  wallets <- createWallets (Z.to_nat (numWallets config)) 0 purchaseAllocations [];;
  unless_stopped Create (step4 config masterWallet gasAmount wallets).

(** The [try] block of [executeOperation]. *)
Definition operation (config : AppConfig) (password : string) : M unit :=
  validateConfig config;;
  masterWallet <- getWalletFromPrivateKey (site Setup 0 LoadMaster);;
  masterBalance <- getBalance (site Setup 0 GetBalance);;
  let gasAmount := parseFloat (gasAmount config) in
  let minPurchase := parseFloat (minPurchaseAmount config) in
  let maxPurchase := parseFloat (maxPurchaseAmount config) in
  let availableBalance := parseFloat masterBalance in
  let totalGasNeeded := JS.mul gasAmount (JS.of_Z (numWallets config)) in
  let availableForPurchases := JS.sub availableBalance totalGasNeeded in
  purchaseAllocations <-
    generateRandomAllocations (Z.to_nat (numWallets config))
                              availableForPurchases minPurchase maxPurchase;;
  let totalPurchaseAmount :=
    fold_left (fun sum val => JS.add sum val) purchaseAllocations (Num 0) in
  let totalETHNeeded := JS.add totalGasNeeded totalPurchaseAmount in
  guard (JS.gt totalETHNeeded availableBalance) "Insufficient balance";;
  step3 config masterWallet gasAmount purchaseAllocations.

(** *** [cleanupAndConsolidateFunds] *)

(** One iteration of the sweep; [continue] (an already completed wallet)
    skips the delay. *)
Definition cleanupWallet (config : AppConfig) (i : nat)
  (walletInfo : WalletInfo) : M unit :=
  continued <-
    try_catch
      (if WalletStatus_eqb (status walletInfo) completed then ret true
       else
         wallet <- loadWallet (site Cleanup i LoadWallet) walletInfo;;
         ethBalance <- getBalance (site Cleanup i GetBalance);;
         let ethBalanceNum := parseFloat ethBalance in
         tokenBalance <-
           try_catch (getTokenBalance (site Cleanup i GetTokenBalance))
                     (fun err => ret "0");;
         let tokenBalanceNum := parseFloat tokenBalance in
         (if JS.gt tokenBalanceNum (Num 0) then
            let minKept := parseFloat (minKeptTokens config) in
            let tokensToTransfer := JS.sub tokenBalanceNum minKept in
            if JS.gt tokensToTransfer (Num 0) then
              try_catch
                (txId <- saveTransaction
                           (site Cleanup i (SaveTransaction token_transfer))
                           (mkTx token_transfer wallet (targetAddress config)
                                 tokensToTransfer (tokenAddress config)
                                 None pending None);;
                 hash <- transferToken (site Cleanup i TransferToken)
                                       tokensToTransfer;;
                 updateTransaction
                   (site Cleanup i (UpdateTransaction token_transfer success))
                   txId success (Some hash) None)
                (fun err => log error "Failed to transfer tokens")
            else ret tt
          else ret tt);;
         let gasBuffer := Num (1 # 10000) in
         let ethToTransfer := JS.sub ethBalanceNum gasBuffer in
         (if JS.gt ethToTransfer (Num (1 # 10000)) then
            try_catch
              (txId <- saveTransaction
                         (site Cleanup i (SaveTransaction eth_transfer))
                         (mkTx eth_transfer wallet (targetAddress config)
                               ethToTransfer "ETH" None pending None);;
               hash <- transferETH (site Cleanup i TransferETH) ethToTransfer;;
               updateTransaction
                 (site Cleanup i (UpdateTransaction eth_transfer success))
                 txId success (Some hash) None)
              (fun err => log error "Failed to transfer ETH")
          else ret tt);;
         (match id walletInfo with
          | Some k =>
              updateWallet (site Cleanup i (UpdateWallet completed false))
                           k completed
          | None => ret tt
          end);;
         ret false)
      (fun err => log error "Cleanup error";; ret false);;
  if continued then ret tt else delay (site Cleanup i Delay).

Fixpoint cleanupWallets (config : AppConfig) (i : nat)
  (allWallets : list WalletInfo) : M unit :=
  match allWallets with
  | [] => ret tt
  | walletInfo :: rest =>
      cleanupWallet config i walletInfo;;
      cleanupWallets config (S i) rest
  end.

Definition cleanupAndConsolidateFunds (config : AppConfig) (password : string)
  : M unit :=
  allWallets <- getAllWallets (site Cleanup 0 GetAllWallets);;
  match allWallets with
  | [] => ret tt
  | _ => cleanupWallets config 0 allWallets
  end.

(** *** [executeOperation] *)

Definition startWatchdog : M unit := modify (set_watchdogTimer true).

Definition stopWatchdog : M unit :=
  fun w =>
    if watchdogTimer w then (Ret tt, set_watchdogTimer false w, [])
    else (Ret tt, w, []).

(** The inner [try { await this.cleanupAndConsolidateFunds(...) } catch]. *)
Definition attempt_cleanup (config : AppConfig) (password : string) : M unit :=
  try_catch (cleanupAndConsolidateFunds config password)
            (fun cleanupError => log error "Cleanup failed").

(** The [catch (error)] block. *)
Definition on_failure (config : AppConfig) (password : string) (err : Error)
  : M unit :=
  log error "Operation failed";;
  attempt_cleanup config password;;
  throw err.

(** The [finally] block. *)
Definition on_exit : M unit :=
  stopWatchdog;; modify (set_isRunning false).

Definition executeOperation (config : AppConfig) (password : string) : M unit :=
  fun w =>
    if isRunning w then (Thrown (Err "Operation is already running"), w, [])
    else
      (modify (set_isRunning true);;
       modify (set_shouldStop false);;
       startWatchdog;;
       try_finally
         (try_catch (operation config password) (on_failure config password))
         on_exit) w.

(** *** [transferBackFromWallet] *)

Definition transferBackFromWallet (walletId : positive) (password : string)
  (targetAddress : string) (customGasLimit : option Z) : M unit :=
  try_catch
    (found <- getWallet (site Manual 0 GetWallet) walletId;;
     match found with
     | None => throw (Err "Wallet not found")
     | Some walletInfo =>
         wallet <- loadWallet (site Manual 0 LoadWallet) walletInfo;;
         stored <- getConfig (site Manual 0 GetConfig);;
         match stored with
         | None => throw (Err "No configuration found. Cannot determine token address.")
         | Some config =>
             tokenBalance <- getTokenBalance (site Manual 0 GetTokenBalance);;
             let tokenBalanceNum := parseFloat tokenBalance in
             let minKept := parseFloat (minKeptTokens config) in
             let tokensToTransfer := JS.sub tokenBalanceNum minKept in
             (if JS.gt tokensToTransfer (Num (1 # 1000000)) then
                txId <- saveTransaction
                          (site Manual 0 (SaveTransaction token_transfer))
                          (mkTx token_transfer wallet targetAddress
                                tokensToTransfer (tokenAddress config)
                                None pending None);;
                try_catch
                  (hash <- transferToken (site Manual 0 TransferToken)
                                         tokensToTransfer;;
                   updateTransaction
                     (site Manual 0 (UpdateTransaction token_transfer success))
                     txId success (Some hash) None)
                  (fun err =>
                     updateTransaction
                       (site Manual 0 (UpdateTransaction token_transfer failed))
                       txId failed None (Some (message_of err));;
                     log warning "Failed to transfer tokens")
              else ret tt);;
             ethBalanceWei <- provider_getBalance (site Manual 0 GetBalance);;
             (if (ethBalanceWei >? 10000000000000)%Z then
                feeData <- provider_getFeeData (site Manual 0 GetFeeData);;
                let gasPrice := gasPrice_or_default feeData in
                let gasLimit :=
                  match customGasLimit with
                  | Some g => if (g =? 0)%Z then 21000%Z else g
                  | None => 21000%Z
                  end in
                let maxGasCostWei := (gasLimit * gasPrice * 2)%Z in
                let transferWei := (ethBalanceWei - maxGasCostWei)%Z in
                if (transferWei >? 0)%Z then
                  txId <- saveTransaction
                            (site Manual 0 (SaveTransaction eth_transfer))
                            (mkTx eth_transfer wallet targetAddress
                                  (ether transferWei) "ETH" None pending None);;
                  try_catch
                    (hash <- transferETH (site Manual 0 TransferETH)
                                         (ether transferWei);;
                     updateTransaction
                       (site Manual 0 (UpdateTransaction eth_transfer success))
                       txId success (Some hash) None)
                    (fun err =>
                       updateTransaction
                         (site Manual 0 (UpdateTransaction eth_transfer failed))
                         txId failed None (Some (message_of err));;
                       log warning "ETH transfer failed")
                else ret tt
              else ret tt);;
             updateWallet (site Manual 0 (UpdateWallet completed false))
                          walletId completed
         end
     end)
    (fun err =>
       log error "Transfer back error";;
       try_catch
         (updateWallet (site Manual 0 (UpdateWallet completed true))
                       walletId completed)
         (fun dbError => log error "Failed to update wallet status");;
       throw err).

End Orchestrator.

Arguments await _ {A} s answer.
Arguments call _ {A} s answer.
Arguments request _ {A} s f refusal.


(** *** Events of a run *)

Definition Op_is (a b : Op) : bool :=
  match a, b with
  | TransferETH, TransferETH | SaveWallet, SaveWallet
  | CreateWallet, CreateWallet | LoadWallet, LoadWallet
  | GetBalance, GetBalance | GetTokenBalance, GetTokenBalance
  | GetAllWallets, GetAllWallets | Delay, Delay => true
  | _, _ => false
  end.

Definition Phase_is (a b : Phase) : bool :=
  match a, b with
  | Setup, Setup | Create, Create | Fund, Fund | Swap, Swap
  | Consolidate, Consolidate | Cleanup, Cleanup | Manual, Manual => true
  | _, _ => false
  end.


(** An event of the [try] block: any check, and calls outside the sweep
    and the manual transfer. *)
Definition run_event (e : Event) : Prop :=
  match e with
  | Call s _ => phase s <> Cleanup /\ phase s <> Manual
  | Check _ _ => True
  end.

(** An event of the cleanup sweep. *)
Definition sweep_event (e : Event) : Prop :=
  match e with
  | Call s _ => phase s = Cleanup
  | Check _ _ => False
  end.




Definition Site_eq_dec (a b : Site) : {a = b} + {a <> b}.
Proof. repeat decide equality. Defined.

(** How many times the call at site [s] was made. *)
Definition calls_of (s : Site) (t : list Event) : nat :=
  length (filter (fun e => match e with
                           | Call s' _ => if Site_eq_dec s s' then true else false
                           | Check _ _ => false
                           end) t).

(** Every ledger entry stored under key [k] is [completed]. *)
Definition all_completed (k : positive) (store : list (positive * WalletInfo))
  : Prop :=
  forall r, In (k, r) store -> status r = completed.

(** An event other than a call at site [s]. *)
Definition not_site (s : Site) (e : Event) : Prop :=
  match e with
  | Call s' _ => s' <> s
  | Check _ _ => True
  end.

(** An event that neither records nor submits a transaction. *)
Definition submits_nothing (e : Event) : Prop :=
  match e with
  | Call s _ =>
      match op s with
      | SaveTransaction _ | TransferETH | TransferToken | SwapETHToToken => False
      | _ => True
      end
  | Check _ _ => True
  end.

(** The configuration the ledger stores, if any, has passed the check on
    [minKeptTokens] that both validators make before a run. *)
Definition stored_config_checked (d : Database) : Prop :=
  forall c, config d = Some c ->
            JS.lt (parseFloat (minKeptTokens c)) (Num 0) = false.

(** An event of the sweep other than the ledger scan. *)
Definition visit_event (e : Event) : Prop :=
  match e with
  | Call s _ => phase s = Cleanup /\ op s <> GetAllWallets
  | Check _ _ => False
  end.

(** A cancellation check that found the flag set. *)
Definition observed_stop (e : Event) : Prop :=
  match e with
  | Check _ true => True
  | _ => False
  end.

Definition unobserved (e : Event) : Prop := ~ observed_stop e.

(* ================================================================== *)
(** ** Scenarios

    Concrete environments, configurations and worlds on which the
    statements below are exercised. *)

Module Scenario.

(** The all-lower-case form of an address: [0x] and forty more characters. *)
Definition plain_address (s : string) : bool :=
  String.prefix "0x" s && (String.length s =? 42)%nat.

Definition answers (s : Site) : string :=
  match op s with
  | GetBalance => "1.0"
  | GetTokenBalance => "250.0"
  | _ => "0xfeed"
  end.

(** Nothing rejects, nobody presses stop, every wallet holds 1 ETH and 250
    tokens, the gas price is 1 gwei and [Math.random] answers 1/2. *)
Definition calm : Env :=
  mkEnv plain_address (fun _ => (1 # 2)%Q) (fun _ => false) (fun _ => false)
        answers (fun _ => "sealed") (fun _ => (10 ^ 18)%Z)
        (fun _ => Some (10 ^ 9)%Z).


Definition with_rejects (r : Site -> bool) (e : Env) : Env :=
  mkEnv (isAddress e) (random e) r (stop_during e) (text e) (ciphertext e)
        (wei e) (feeGasPrice e).

Definition with_stop (r : Site -> bool) (e : Env) : Env :=
  mkEnv (isAddress e) (random e) (rejects e) r (text e) (ciphertext e)
        (wei e) (feeGasPrice e).

Definition with_text (t : Site -> string) (e : Env) : Env :=
  mkEnv (isAddress e) (random e) (rejects e) (stop_during e) t (ciphertext e)
        (wei e) (feeGasPrice e).

Definition with_wei (b : Site -> Z) (e : Env) : Env :=
  mkEnv (isAddress e) (random e) (rejects e) (stop_during e) (text e)
        (ciphertext e) b (feeGasPrice e).

(** The site [o] of wallet [i] in phase [p], and no other. *)
Definition only (p : Phase) (i : nat) (o : Op) (s : Site) : bool :=
  Phase_is (phase s) p && (index s =? i)%nat && Op_is (op s) o.

Definition token : string := "0x1111111111111111111111111111111111111111".
Definition target : string := "0x2222222222222222222222222222222222222222".

Definition config_for (n : Z) : AppConfig :=
  mkConfig token n "0xkey" target "0.001" "0.01" "0.02" "0" "base"
           "uniswap-v3" "https://mainnet.base.org".

Definition with_gasAmount (g : string) (c : AppConfig) : AppConfig :=
  mkConfig (tokenAddress c) (numWallets c) (masterPrivateKey c)
           (targetAddress c) g (minPurchaseAmount c) (maxPurchaseAmount c)
           (minKeptTokens c) (chain c) (dex c) (rpcUrl c).

Definition with_minPurchaseAmount (a : string) (c : AppConfig) : AppConfig :=
  mkConfig (tokenAddress c) (numWallets c) (masterPrivateKey c)
           (targetAddress c) (gasAmount c) a (maxPurchaseAmount c)
           (minKeptTokens c) (chain c) (dex c) (rpcUrl c).

Definition with_maxPurchaseAmount (a : string) (c : AppConfig) : AppConfig :=
  mkConfig (tokenAddress c) (numWallets c) (masterPrivateKey c)
           (targetAddress c) (gasAmount c) (minPurchaseAmount c) a
           (minKeptTokens c) (chain c) (dex c) (rpcUrl c).

Definition empty_ledger : Database := mkDb [] 1 [] 1 None.

Definition idle : World := mkWorld false false false empty_ledger [] 0.

Definition busy : World := set_isRunning true idle.

(** The funding transfer of the first wallet throws; everything else goes
    well, and every wallet is found to hold 1 ETH afterwards. *)
Definition first_funding_fails : Env :=
  with_rejects (only Fund 0 TransferETH) calm.


(** The token transfer of the first wallet throws in the consolidation. *)
Definition first_token_transfer_fails : Env :=
  with_rejects (fun s => Phase_is (phase s) Consolidate && (index s =? 0)%nat
                         && match op s with TransferToken => true | _ => false end)
               calm.

(** The ledger refuses the first new wallet, and the key of the wallet it
    already holds cannot be loaded under the password of this run. *)
Definition save_fails_key_unreadable : Env :=
  with_rejects (fun s => only Create 0 SaveWallet s || only Cleanup 0 LoadWallet s)
               calm.

Definition stopped_while_creating : Env :=
  with_stop (only Create 0 CreateWallet) calm.

(** Stop is pressed while the first wallet is being created, and the
    ledger then refuses to save that wallet. *)
Definition stopped_then_save_fails : Env :=
  with_stop (only Create 0 CreateWallet)
            (with_rejects (only Create 0 SaveWallet) calm).

(** A ledger that holds one funded wallet of an earlier run. *)
Definition earlier_run : World :=
  mkWorld false false false
          (mkDb [(1%positive, mkWallet None "0xold" "sealed" funded)] 2 [] 1
                (Some (config_for 1)))
          [] 0.

(** Every wallet is found to hold no tokens and no ETH. *)
Definition drained : Env :=
  with_wei (fun _ => 0%Z) (with_text (fun _ => "0.0") calm).

(** A ledger whose only wallet has already been swept. *)
Definition swept : World :=
  mkWorld false false false
          (mkDb [(1%positive, mkWallet None "0xold" "sealed" completed)] 2 [] 1
                (Some (config_for 1)))
          [] 0.

End Scenario.

(* ================================================================== *)
(** ** Amounts as rationals *)

(** The value of a finite number (0 for [NaN] and the infinities). *)
Definition qval (a : jsnum) : Q :=
  match a with Num q => q | _ => 0%Q end.

(** The exact sum of a list of amounts. *)
Definition qsum (l : list jsnum) : Q :=
  fold_right (fun a s => (qval a + s)%Q) 0%Q l.



(* ================================================================== *)
(** ** Properties of computations

    The vocabulary in which the statements about [executeOperation] and
    its steps are phrased. *)


(** Every event of [m] satisfies [phi]. *)
Definition emits {A} (phi : Event -> Prop) (m : M A) : Prop :=
  forall w, Forall phi (events (m w)).

(** [m] maintains the ledger invariant [J]. *)
Definition keeps {A} (J : Database -> Prop) (m : M A) : Prop :=
  forall w, J (database w) -> J (database (final (m w))).

(** [m] never throws. *)
Definition returns {A} (m : M A) : Prop :=
  forall w, exists a, outcome (m w) = Ret a.

(** The world in which the [try] block starts. *)
Definition started (w : World) : World :=
  set_watchdogTimer true (set_shouldStop false (set_isRunning true w)).

(** The effect of the [finally] block. *)
Definition finished (w : World) : World :=
  set_isRunning false (if watchdogTimer w then set_watchdogTimer false w else w).

(** The world in which the cleanup sweep starts after the [try] block
    ended in [w]. *)
Definition failed_in (w : World) : World := add_log error "Operation failed" w.

(** The world after site [s] was pending: the stop button's handler may
    have run. *)
Definition interrupted (env : Env) (s : Site) (w : World) : World :=
  final (while_pending env s w).

(** The events of [m] are an unobserved part followed by checks that found
    the flag set; if there is such a check [m] returns, with the flag still
    set. *)
Definition winds_down {A} (m : M A) : Prop :=
  forall w, exists t1 t2,
    events (m w) = t1 ++ t2
    /\ Forall unobserved t1
    /\ Forall observed_stop t2
    /\ (t2 <> [] -> (exists a, outcome (m w) = Ret a)
                    /\ shouldStop (final (m w)) = true).

(** Started with the flag set, [m] only checks the flag and returns. *)
Definition stops_at_once {A} (m : M A) : Prop :=
  forall w, shouldStop w = true ->
    Forall observed_stop (events (m w))
    /\ (exists a, outcome (m w) = Ret a)
    /\ shouldStop (final (m w)) = true.

(** The phases that go through the wallets of the run one by one. *)
Definition loop_phase (p : Phase) : bool :=
  match p with
  | Create | Fund | Swap | Consolidate => true
  | _ => false
  end.

(** The phases of the run that are followed by a check of the flag and
    come before phase [p]. *)
Definition earlier_phases (p : Phase) : list Phase :=
  match p with
  | Fund => [Create]
  | Swap => [Create; Fund]
  | Consolidate => [Create; Fund; Swap]
  | _ => []
  end.

(** The checks of the flag that stand between the start of the run and a
    call at site [s]: the top of the iteration the call belongs to, and the
    boundaries of the phases before. *)
Definition checks_due (s : Site) : list CheckPoint :=
  (if loop_phase (phase s) then [LoopTop (phase s) (index s)] else [])
  ++ map Boundary (earlier_phases (phase s)).

(** A call whose checks are all among [C]. *)
Definition cleared (C : list CheckPoint) (e : Event) : Prop :=
  match e with
  | Call s _ => incl (checks_due s) C
  | Check _ _ => True
  end.

(** After the trace [pre], every call of [t] comes after the checks due
    for it, each of which found the flag clear. *)
Definition checked_before (pre t : list Event) : Prop :=
  forall t1 s b t2 c,
    t = t1 ++ Call s b :: t2 -> In c (checks_due s) ->
    In (Check c false) (pre ++ t1).

(** Once the checks [C] have found the flag clear, every call of [m] comes
    after the checks due for it. *)
Definition covered {A} (C : list CheckPoint) (m : M A) : Prop :=
  forall w pre,
    (forall c, In c C -> In (Check c false) pre) ->
    checked_before pre (events (m w)).




(** Started from a ledger satisfying [J], [m] returns and leaves a ledger
    satisfying [J']. *)
Definition achieves {A} (J J' : Database -> Prop) (m : M A) : Prop :=
  forall w, J (database w) ->
    (exists a, outcome (m w) = Ret a) /\ J' (database (final (m w))).

(** On the ledger [d0], [m] leaves the ledger as it is and neither records
    nor submits a transaction. *)
Definition inert {A} (d0 : Database) (m : M A) : Prop :=
  forall w, database w = d0 ->
    database (final (m w)) = d0 /\ Forall submits_nothing (events (m w)).

(** What [m] answers on the ledger [d0] satisfies [P]. *)
Definition answers_with {A} (d0 : Database) (P : A -> Prop) (m : M A)
  : Prop :=
  forall w a, database w = d0 -> outcome (m w) = Ret a -> P a.

(* ================================================================== *)
(** ** The [Database] class as its callers see it (database.ts)

    The orchestrator above reaches the stores through [request]; here are
    the methods themselves, with the connection handle [this.db], the
    [metadata] store and the unique index on the wallets' addresses. *)

Module Db.

(** What IndexedDB keeps for the origin: the three stores of [Database]
    above and the [metadata] store (key path [key]; the only value the
    application stores there is a string). *)
Record Disk := mkDisk {
  ledger : Database;
  metadata : list (string * string)
}.

(** A [Database] object: [this.db] is null until [init] and after
    [close]; what is on disk does not depend on it. *)
Record Connection := mkConnection {
  opened : bool;
  disk : Disk
}.

(** A promise that resolves with a value and the new state, or rejects
    with an [Error] of the given message and leaves the state as it was
    (a request that fails aborts its transaction). *)
Definition Reply (A : Type) : Type := (string + A) * Connection.

Definition resolve {A} (a : A) (c : Connection) : Reply A := (inr a, c).
Definition reject {A} (message : string) (c : Connection) : Reply A :=
  (inl message, c).

Definition with_ledger (d : Database) (c : Connection) : Connection :=
  mkConnection (opened c) (mkDisk d (metadata (disk c))).

Definition with_metadata (m : list (string * string)) (c : Connection)
  : Connection :=
  mkConnection (opened c) (mkDisk (ledger (disk c)) m).

(** [if (!this.db) throw new Error('Database not initialized')] *)
Definition connected {A} (c : Connection) (k : Database -> Reply A) : Reply A :=
  if opened c then k (ledger (disk c))
  else reject "Database not initialized" c.

(** A database that was never opened: [onupgradeneeded] creates the four
    stores empty, with key generators at 1. *)
Definition fresh : Connection :=
  mkConnection false (mkDisk (mkDb [] 1 [] 1 None) []).

(** [init()]; [onupgradeneeded] creates the stores that do not exist yet
    and leaves the others alone. *)
Definition init (c : Connection) : Connection := mkConnection true (disk c).

(** [close()] *)
Definition close (c : Connection) : Connection := mkConnection false (disk c).

(** The index [address] of the wallets store is [unique]. *)
Definition address_taken (a : string) (d : Database) : bool :=
  existsb (fun e => String.eqb (address (snd e)) a) (wallets d).

(** [saveWallet(wallet)]: [store.add] of the wallet without its [id].
    The message of the rejection goes on with the text of the request's
    error. *)
Definition saveWallet (w : WalletInfo) (c : Connection) : Reply positive :=
  connected c (fun d =>
    if address_taken (address w) d then reject "Failed to save wallet" c
    else let '(k, d') := db_saveWallet w d in resolve k (with_ledger d' c)).

(** [getWallet(id)] *)
Definition getWallet (k : positive) (c : Connection)
  : Reply (option WalletInfo) :=
  connected c (fun d => resolve (db_getWallet k d) c).

(** [getAllWallets()] *)
Definition getAllWallets (c : Connection) : Reply (list WalletInfo) :=
  connected c (fun d => resolve (db_getAllWallets d) c).

(** [updateWallet(id, { status })] *)
Definition updateWallet (k : positive) (st : WalletStatus) (c : Connection)
  : Reply unit :=
  connected c (fun d =>
    match db_updateWallet k st d with
    | Some d' => resolve tt (with_ledger d' c)
    | None => reject "Wallet not found" c
    end).

(** [saveTransaction(transaction)] *)
Definition saveTransaction (t : Transaction) (c : Connection) : Reply positive :=
  connected c (fun d =>
    let '(k, d') := db_saveTransaction t d in resolve k (with_ledger d' c)).

(** [getAllTransactions()]: every record with its [id]. *)
Definition getAllTransactions (c : Connection)
  : Reply (list (positive * Transaction)) :=
  connected c (fun d => resolve (transactions d) c).

(** [updateTransaction(id, { status, txHash?, error? })] *)
Definition updateTransaction (k : positive) (st : TxStatus)
  (hash err : option string) (c : Connection) : Reply unit :=
  connected c (fun d =>
    match db_updateTransaction k st hash err d with
    | Some d' => resolve tt (with_ledger d' c)
    | None => reject "Transaction not found" c
    end).

(** [saveConfig(config)]: [store.put({ id: 'main', ...config })]. *)
Definition saveConfig (cfg : AppConfig) (c : Connection) : Reply unit :=
  connected c (fun d =>
    resolve tt (with_ledger (mkDb (wallets d) (walletKey d) (transactions d)
                                  (transactionKey d) (Some cfg)) c)).

(** [getConfig()] *)
Definition getConfig (c : Connection) : Reply (option AppConfig) :=
  connected c (fun d => resolve (config d) c).

(** [store.put({ key, value })]: the record of that key is replaced. *)
Definition put_metadata (key value : string) (m : list (string * string))
  : list (string * string) :=
  (key, value) :: filter (fun e => negb (String.eqb (fst e) key)) m.

(** [saveMetadata(key, value)] *)
Definition saveMetadata (key value : string) (c : Connection) : Reply unit :=
  connected c (fun _ =>
    resolve tt (with_metadata (put_metadata key value (metadata (disk c))) c)).

(** [getMetadata(key)]: [result ? result.value : null]. *)
Definition getMetadata (key : string) (c : Connection) : Reply (option string) :=
  connected c (fun _ =>
    resolve (option_map snd
               (find (fun e => String.eqb (fst e) key) (metadata (disk c))))
            c).

(** [clearAll()]: [store.clear()] on the four stores; clearing a store
    does not reset its key generator. *)
Definition clearAll (c : Connection) : Reply unit :=
  connected c (fun d =>
    resolve tt (mkConnection (opened c)
                  (mkDisk (mkDb [] (walletKey d) [] (transactionKey d) None) []))).

(** The requests a caller can make. *)
Inductive Request :=
| Init | Close
| SaveWallet (w : WalletInfo)
| UpdateWallet (k : positive) (st : WalletStatus)
| SaveTransaction (t : Transaction)
| UpdateTransaction (k : positive) (st : TxStatus) (hash err : option string)
| SaveConfig (cfg : AppConfig)
| SaveMetadata (key value : string)
| ClearAll.

(** The state a request leaves. *)
Definition perform (r : Request) (c : Connection) : Connection :=
  match r with
  | Init => init c
  | Close => close c
  | SaveWallet w => snd (saveWallet w c)
  | UpdateWallet k st => snd (updateWallet k st c)
  | SaveTransaction t => snd (saveTransaction t c)
  | UpdateTransaction k st hash err => snd (updateTransaction k st hash err c)
  | SaveConfig cfg => snd (saveConfig cfg c)
  | SaveMetadata key value => snd (saveMetadata key value c)
  | ClearAll => snd (clearAll c)
  end.

Definition perform_all (rs : list Request) (c : Connection) : Connection :=
  fold_left (fun c r => perform r c) rs c.

(** Every key in use is below the generator's next value, and no key is
    used twice. *)
Definition well_keyed {A} (store : list (positive * A)) (next : positive)
  : Prop :=
  NoDup (map fst store) /\ forall k, In k (map fst store) -> (k < next)%positive.

End Db.

(* ================================================================== *)
(** ** The watchdog of [TransactionManager] (transactions.ts)

    [startWatchdog], [updateActivity] and [checkWatchdog] on the fields
    [lastActivityTime], [currentOperation] and [isStuck]; the clock
    ([Date.now()], in milliseconds) is an argument. *)

Module Watchdog.

Record State := mkState {
  lastActivityTime : Z;
  currentOperation : string;
  isStuck : bool
}.

(** [private watchdogTimeout: number = 60000] *)
Definition watchdogTimeout : Z := 60000.

(** What one check reports: the two warnings and the status snapshot of
    the first detection, the two errors of the later ones.  [seconds] is
    [Math.floor(timeSinceLastActivity / 1000)]. *)
Inductive Notice :=
| StuckWarning (operation : string) (seconds : Z)
| MonitoringWarning
| StuckStatus (operation : string)
| CriticalError (seconds : Z) (operation : string)
| AdviceError.

(** The fields as [startWatchdog] sets them. *)
Definition start (now : Z) : State := mkState now "Starting" false.

(** [updateActivity(operation)] *)
Definition updateActivity (now : Z) (operation : string) (d : State) : State :=
  mkState now operation false.

(** [checkWatchdog()]; [listening] says whether [onStatusUpdate] is set. *)
Definition checkWatchdog (listening : bool) (now : Z) (d : State)
  : State * list Notice :=
  let timeSinceLastActivity := (now - lastActivityTime d)%Z in
  if (timeSinceLastActivity >? watchdogTimeout)%Z then
    if negb (isStuck d) then
      (mkState (lastActivityTime d) (currentOperation d) true,
       [StuckWarning (currentOperation d) (timeSinceLastActivity / 1000)%Z;
        MonitoringWarning]
       ++ (if listening then [StuckStatus (currentOperation d)] else []))
    else if (timeSinceLastActivity >? watchdogTimeout * 2)%Z then
      (d, [CriticalError (timeSinceLastActivity / 1000)%Z (currentOperation d);
           AdviceError])
    else (d, [])
  else (d, []).

(** The checks the interval timer makes at the times [ticks], with no
    activity in between. *)
Fixpoint checks (listening : bool) (ticks : list Z) (d : State)
  : State * list Notice :=
  match ticks with
  | [] => (d, [])
  | now :: later =>
      let '(d1, n1) := checkWatchdog listening now d in
      let '(d2, n2) := checks listening later d1 in
      (d2, n1 ++ n2)
  end.

Definition is_stuck_warning (n : Notice) : bool :=
  match n with StuckWarning _ _ => true | _ => false end.

Definition is_critical (n : Notice) : bool :=
  match n with CriticalError _ _ => true | _ => false end.

(** Ticks that are at most [period] apart, the first at most [period]
    after [from]. *)
Fixpoint paced (period from : Z) (ticks : list Z) : Prop :=
  match ticks with
  | [] => True
  | t :: later => (from <= t <= from + period)%Z /\ paced period t later
  end.

End Watchdog.

(* ================================================================== *)
(** ** [DexService] (dex.ts)

    [swapETHToToken] with the two swap implementations.  A [bigint] is a
    [Z]; what the chain answers to each call of one swap is read from an
    [Oracle]. *)

Module Dex.

Record ChainConfig := mkChain {
  chainId : Z;
  chainName : string;
  nativeToken : string;
  wethAddress : string;
  chainRpcUrl : string
}.

(** [CHAINS] *)
Definition CHAINS (chain : string) : option ChainConfig :=
  if (chain =? "base")%string then
    Some (mkChain 8453 "Base" "ETH"
                  "0x4200000000000000000000000000000000000006"
                  "https://mainnet.base.org")
  else if (chain =? "ethereum")%string then
    Some (mkChain 1 "Ethereum" "ETH"
                  "0xC02aaA39b223FE8D0A0e5C4F27eAD9083C756Cc2"
                  "https://eth.llamarpc.com")
  else if (chain =? "arbitrum")%string then
    Some (mkChain 42161 "Arbitrum" "ETH"
                  "0x82aF49447D8a07e3bd95BD0d56f35241523fBab1"
                  "https://arb1.arbitrum.io/rpc")
  else None.

Record DexConfig := mkDex {
  dexName : string;
  routers : Z -> option string;
  quoters : Z -> option string
}.

(** [DEXES] *)
Definition DEXES (dex : string) : option DexConfig :=
  if (dex =? "uniswap-v3")%string then
    Some (mkDex "Uniswap V3"
            (fun id =>
               if (id =? 8453)%Z then Some "0x2626664c2603336E57B271c5C0b26F421741e481"
               else if (id =? 1)%Z then Some "0xE592427A0AEce92De3Edee1F18E0157C05861564"
               else if (id =? 42161)%Z then Some "0xE592427A0AEce92De3Edee1F18E0157C05861564"
               else None)
            (fun id =>
               if (id =? 8453)%Z then Some "0x3d4e44Eb1374240CE5F1B871ab261CD16335B76a"
               else if (id =? 1)%Z then Some "0xb27308f9F90D607463bb33eA1BeBb41C27CE5AB6"
               else if (id =? 42161)%Z then Some "0xb27308f9F90D607463bb33eA1BeBb41C27CE5AB6"
               else None))
  else if (dex =? "uniswap-v2")%string then
    Some (mkDex "Uniswap V2"
            (fun id =>
               if (id =? 8453)%Z then Some "0x4752ba5dbc23f44d87826276bf6fd6b1c372ad24"
               else if (id =? 1)%Z then Some "0x7a250d5630B4cF539739dF2C5dAcb4c659F2488D"
               else if (id =? 42161)%Z then Some "0x1b02dA8Cb0d097eB8D57A175b88c7D8b47997506"
               else None)
            (fun _ => None))
  else None.

(** The receipt of a mined transaction: [status] is 1 on success. *)
Record Receipt := mkReceipt {
  receiptStatus : Z;
  receiptHash : string
}.

(** The transaction a swap submits: the parameters of the router call
    ([fee] is the pool's tier, absent for a V2 path) and the transaction
    options. *)
Record SwapTx := mkSwapTx {
  router : string;
  fee : option Z;
  tokenIn : string;
  tokenOut : string;
  amountIn : Z;
  amountOutMinimum : Z;
  value : Z;
  maxFeePerGas : Z;
  maxPriorityFeePerGas : Z;
  gasLimit : Z
}.

(** The answers of the chain during one swap; [None] is a call that
    throws (a promise that rejects). *)
Record Oracle := mkOracle {
  parseEther : option Z;                  (* ethers.parseEther(ethAmount) *)
  quote : Z -> option Z;                  (* quoteExactInputSingle at a fee tier *)
  amountsOut : option Z;                  (* getAmountsOut(...)[1] *)
  decimals : option Z;                    (* tokenContract.decimals() *)
  feeData : option (option Z * option Z); (* maxFeePerGas, maxPriorityFeePerGas *)
  estimateGas : option Z;
  mined : SwapTx -> option (option Receipt)
    (* the router call followed by tx.wait(): a receipt, null, or a throw
       (the 60 s timeout of the V3 swap included) *)
}.

Inductive Failure :=
| UnsupportedDex (dex : string)
| NotSupportedOn (dexName chainName : string)
| NoLiquidity
| SwapFailed
| TypeError            (* a property of [undefined] is read *)
| CallFailed.          (* an awaited call threw *)

Record SwapResult := mkResult {
  resultHash : string;
  estimatedOutput : Z
}.

(** What a swap did: the transaction it submitted, if it got that far,
    and how it ended. *)
Definition Swap : Type := option SwapTx * (Failure + SwapResult).

Definition fails (f : Failure) : Swap := (None, inl f).

(** [ethers.parseUnits('0.02', 'gwei')] and the like, in wei. *)
Definition gwei_0_001 : Z := 1000000.
Definition gwei_0_01 : Z := 10000000.
Definition gwei_0_02 : Z := 20000000.
Definition gwei_0_1 : Z := 100000000.

(** [a || b] on bigints that may be null: null and [0n] are falsy. *)
Definition or_else (a : option Z) (b : Z) : Z :=
  match a with
  | Some x => if (x =? 0)%Z then b else x
  | None => b
  end.

(** The fee options of a swap; [fallback] is the [maxFeePerGas] of the
    [catch] block. *)
Definition feeOptions (o : Oracle) (fallback : Z) : Z * Z :=
  match feeData o with
  | Some (maxFee, priorityFee) =>
      let minAcceptableFee := gwei_0_02 in
      let maxAllowedFee := gwei_0_1 in
      let currentMaxFee := or_else maxFee minAcceptableFee in
      let currentPriorityFee := or_else priorityFee gwei_0_001 in
      (if (currentMaxFee <? minAcceptableFee)%Z then minAcceptableFee
       else if (currentMaxFee >? maxAllowedFee)%Z then maxAllowedFee
       else currentMaxFee,
       if (currentPriorityFee <? maxAllowedFee)%Z then currentPriorityFee
       else gwei_0_001)
  | None => (fallback, gwei_0_001)
  end.

(** [estimatedGas * BigInt(120) / BigInt(100)], or the fallback limit. *)
Definition gasLimitOf (o : Oracle) (fallback : Z) : Z :=
  match estimateGas o with
  | Some estimatedGas => Z.quot (estimatedGas * 120) 100
  | None => fallback
  end.

(** [Math.floor(slippage * 100)] *)
Definition slippageBps (slippage : Q) : Z := Qfloor (slippage * 100).

(** [(quote * BigInt(10000 - slippageBps)) / BigInt(10000)] *)
Definition minimumOutput (quoted : Z) (slippage : Q) : Z :=
  Z.quot (quoted * (10000 - slippageBps slippage)) 10000.

(** One turn of the loop over the fee tiers: a tier whose quote throws is
    skipped, a quote replaces the best one only if it is larger. *)
Definition tryFee (o : Oracle) (best : Z * Z) (tier : Z) : Z * Z :=
  match quote o tier with
  | Some amountOut => if (amountOut >? fst best)%Z then (amountOut, tier) else best
  | None => best
  end.

Definition feeTiers : list Z := [3000; 500; 10000]%Z.

(** [(bestQuote, bestFee)] after the loop. *)
Definition bestOf (o : Oracle) : Z * Z :=
  fold_left (tryFee o) feeTiers (0, 3000)%Z.

(** Submitting the transaction and waiting for its receipt. *)
Definition execute (o : Oracle) (tx : SwapTx) (quoted : Z) : Swap :=
  match mined o tx with
  | None => (Some tx, inl CallFailed)
  | Some None => (Some tx, inl SwapFailed)
  | Some (Some receipt) =>
      if (receiptStatus receipt =? 1)%Z
      then (Some tx, inr (mkResult (receiptHash receipt) quoted))
      else (Some tx, inl SwapFailed)
  end.

(** [swapUniswapV3] *)
Definition swapUniswapV3 (o : Oracle) (wallet tokenAddress : string)
  (slippage : Q) (chainConfig : option ChainConfig) (dexConfig : DexConfig)
  : Swap :=
  match chainConfig with
  | None => fails TypeError
  | Some chainConfig =>
      match routers dexConfig (chainId chainConfig),
            quoters dexConfig (chainId chainConfig) with
      | Some routerAddress, Some quoterAddress =>
          match parseEther o with
          | None => fails CallFailed
          | Some amountIn =>
              let '(bestQuote, bestFee) := bestOf o in
              if (bestQuote =? 0)%Z then fails NoLiquidity
              else
                let amountOutMinimum := minimumOutput bestQuote slippage in
                match decimals o with
                | None => fails CallFailed
                | Some _ =>
                    let '(maxFee, priorityFee) := feeOptions o gwei_0_01 in
                    let gasLimit := gasLimitOf o 300000 in
                    execute o
                      (mkSwapTx routerAddress (Some bestFee)
                                (wethAddress chainConfig) tokenAddress
                                amountIn amountOutMinimum amountIn
                                maxFee priorityFee gasLimit)
                      bestQuote
                end
          end
      | _, _ => fails (NotSupportedOn (dexName dexConfig) (chainName chainConfig))
      end
  end.

(** [swapUniswapV2] *)
Definition swapUniswapV2 (o : Oracle) (wallet tokenAddress : string)
  (slippage : Q) (chainConfig : option ChainConfig) (dexConfig : DexConfig)
  : Swap :=
  match chainConfig with
  | None => fails TypeError
  | Some chainConfig =>
      match routers dexConfig (chainId chainConfig) with
      | Some routerAddress =>
          match parseEther o with
          | None => fails CallFailed
          | Some amountIn =>
              match amountsOut o with
              | None => fails CallFailed
              | Some expectedOutput =>
                  let amountOutMin := minimumOutput expectedOutput slippage in
                  match decimals o with
                  | None => fails CallFailed
                  | Some _ =>
                      let '(maxFee, priorityFee) := feeOptions o gwei_0_02 in
                      let gasLimit := gasLimitOf o 250000 in
                      execute o
                        (mkSwapTx routerAddress None
                                  (wethAddress chainConfig) tokenAddress
                                  amountIn amountOutMin amountIn
                                  maxFee priorityFee gasLimit)
                        expectedOutput
                  end
              end
          end
      | None => fails (NotSupportedOn (dexName dexConfig) (chainName chainConfig))
      end
  end.

(** [swapETHToToken] of a service set to [chain] and [dex]. *)
Definition swapETHToToken (chain dex : string) (o : Oracle)
  (wallet tokenAddress : string) (slippage : Q) : Swap :=
  let chainConfig := CHAINS chain in
  if (dex =? "uniswap-v3")%string then
    match DEXES dex with
    | Some dexConfig =>
        swapUniswapV3 o wallet tokenAddress slippage chainConfig dexConfig
    | None => fails TypeError
    end
  else if (dex =? "uniswap-v2")%string then
    match DEXES dex with
    | Some dexConfig =>
        swapUniswapV2 o wallet tokenAddress slippage chainConfig dexConfig
    | None => fails TypeError
    end
  else fails (UnsupportedDex dex).

End Dex.

(* ================================================================== *)
(** ** The application shell (main.ts)

    [App] owns the [Database] object, the master password and the
    unlocked flag; the form's texts reach it through
    [UIManager.getConfigFromForm]. *)

Module App.

(** [isNaN(x)] *)
Definition isNaN (a : jsnum) : bool :=
  match a with NaN => true | _ => false end.

(** [!s || !s.startsWith(p)]: the empty string is falsy. *)
Definition lacks_prefix (p s : string) : bool :=
  (s =? "")%string || negb (String.prefix p s).

(** [App.validateConfig(config)].  [parsed] is the number [parseInt] made
    of the wallet count field, [None] for [NaN]; the other fields are
    those of [config]. *)
Definition validateConfig (parsed : option Z) (config : AppConfig) : M unit :=
  guard (lacks_prefix "0x" (tokenAddress config)) "Invalid token address";;
  guard (lacks_prefix "0x" (targetAddress config)) "Invalid target address";;
  guard (lacks_prefix "0x" (masterPrivateKey config)) "Invalid master private key";;
  guard (match parsed with
         | None => true
         | Some n => (n <? 1)%Z || (n >? 1000)%Z
         end)
        "Number of wallets must be between 1 and 1000";;
  guard (isNaN (parseFloat (gasAmount config))
         || JS.le (parseFloat (gasAmount config)) (Num 0))
        "Gas amount must be a positive number";;
  guard (isNaN (parseFloat (minPurchaseAmount config))
         || JS.le (parseFloat (minPurchaseAmount config)) (Num 0))
        "Minimum purchase amount must be a positive number";;
  guard (isNaN (parseFloat (maxPurchaseAmount config))
         || JS.le (parseFloat (maxPurchaseAmount config)) (Num 0))
        "Maximum purchase amount must be a positive number";;
  guard (JS.gt (parseFloat (minPurchaseAmount config))
               (parseFloat (maxPurchaseAmount config)))
        "Minimum purchase amount cannot be greater than maximum purchase amount";;
  guard (isNaN (parseFloat (minKeptTokens config))
         || JS.lt (parseFloat (minKeptTokens config)) (Num 0))
        "Minimum kept tokens cannot be negative";;
  guard (lacks_prefix "http" (rpcUrl config)) "Invalid RPC URL".

(** The fields of [App] that [handleUnlock] reads and writes, and the
    messages it has shown with [alert]. *)
Record State := mkState {
  database : Db.Connection;
  masterPassword : string;
  isUnlocked : bool;
  walletService : bool;            (* [this.walletService] is not null *)
  alerts : list string
}.

(** [new App()] followed by [init()] on what the origin has on disk. *)
Definition start (d : Db.Disk) : State :=
  mkState (Db.init (Db.mkConnection false d)) "" false false [].

(** The page is loaded again: a new [App] on what is on disk. *)
Definition reload (s : State) : State := start (Db.disk (database s)).

Definition alert (message : string) (s : State) : State :=
  mkState (database s) (masterPassword s) (isUnlocked s) (walletService s)
          (alerts s ++ [message]).

Definition with_database (c : Db.Connection) (s : State) : State :=
  mkState c (masterPassword s) (isUnlocked s) (walletService s) (alerts s).

(** [alert(`Failed to unlock: ${error}`)] for an [Error] of the given
    message. *)
Definition unlock_failure (message : string) : string :=
  String.append "Failed to unlock: Error: " message.

(** The rest of the [try] block once the password is accepted: the fields
    are set, then the stored configuration and the two tables are read. *)
Definition unlocked (password : string) (s : State) : State :=
  let s1 := mkState (database s) password true true (alerts s) in
  match fst (Db.getConfig (database s1)) with
  | inl message => alert (unlock_failure message) s1
  | inr _ =>
      match fst (Db.getAllTransactions (database s1)) with
      | inl message => alert (unlock_failure message) s1
      | inr _ =>
          match fst (Db.getAllWallets (database s1)) with
          | inl message => alert (unlock_failure message) s1
          | inr _ => s1
          end
      end
  end.

(** [handleUnlock()] with the text of the password field; [hashPassword]
    is [CryptoService.hashPassword].  The length of a string is the number
    of its code units. *)
Definition handleUnlock (hashPassword : string -> string) (password : string)
  (s : State) : State :=
  if (password =? "")%string || (String.length password <? 8)%nat then
    alert "Please enter a password with at least 8 characters" s
  else
    match fst (Db.getMetadata "passwordHash" (database s)) with
    | inl message => alert (unlock_failure message) s
    | inr savedPasswordHash =>
        match savedPasswordHash with
        | Some saved =>
            if (saved =? "")%string then
              match Db.saveMetadata "passwordHash" (hashPassword password)
                                    (database s) with
              | (inl message, _) => alert (unlock_failure message) s
              | (inr _, c) => unlocked password (with_database c s)
              end
            else if negb (hashPassword password =? saved)%string then
              alert "Incorrect password!" s
            else unlocked password s
        | None =>
            match Db.saveMetadata "passwordHash" (hashPassword password)
                                  (database s) with
            | (inl message, _) => alert (unlock_failure message) s
            | (inr _, c) => unlocked password (with_database c s)
            end
        end
    end.

(** [UIManager.showError(message)] *)
Definition showError (message : string) (s : State) : State :=
  alert (String.append "Error: " message) s.

(** [handleClearDatabase()]; [confirmed] is the answer to the dialog.
    After [clearAll] the two tables are read again. *)
Definition handleClearDatabase (confirmed : bool) (s : State) : State :=
  if negb confirmed then s
  else
    match Db.clearAll (database s) with
    | (inl _, _) => showError "Failed to clear database" s
    | (inr _, c) =>
        let s1 := with_database c s in
        match fst (Db.getAllTransactions c) with
        | inl _ => showError "Failed to clear database" s1
        | inr _ =>
            match fst (Db.getAllWallets c) with
            | inl _ => showError "Failed to clear database" s1
            | inr _ => s1
            end
        end
    end.

End App.

(* ================================================================== *)
(** ** Pages of the tables (ui.ts) *)

Module Pager.

Definition itemsPerPage : Z := 20%Z.

(** [Math.ceil(length / this.itemsPerPage)] *)
Definition totalPages (n : nat) : Z :=
  Qceiling (inject_Z (Z.of_nat n) / inject_Z itemsPerPage).

(** [array.slice(start, end)] for [0 <= start <= end]. *)
Definition slice {A} (startIdx endIdx : Z) (l : list A) : list A :=
  firstn (Z.to_nat (endIdx - startIdx)%Z) (skipn (Z.to_nat startIdx) l).

(** [renderTransactionsPaginated] and [renderWalletsPaginated]: the page
    number they leave in [this.txCurrentPage] / [this.walletsCurrentPage]
    and the rows they show. *)
Definition render {A} (currentPage : Z) (all : list A) : Z * list A :=
  match all with
  | [] => (currentPage, [])
  | _ =>
      let totalPages := totalPages (length all) in
      let currentPage := Z.max 1 (Z.min currentPage totalPages) in
      let startIdx := ((currentPage - 1) * itemsPerPage)%Z in
      let endIdx := (startIdx + itemsPerPage)%Z in
      (currentPage, slice startIdx endIdx all)
  end.

(** [changeTxPage(delta)] and [changeWalletsPage(delta)] *)
Definition changePage {A} (delta : Z) (currentPage : Z) (all : list A)
  : Z * list A :=
  render (currentPage + delta)%Z all.

End Pager.

(* ================================================================== *)
(** ** Properties of runs, continued *)

(** From [d] to [d'] no wallet and no transaction record was lost or
    given another identity: every key of [d] is still there, a wallet with
    its address and key material, a record with its type, parties, amount
    and token; the configuration is the same and the key generators did
    not go back. *)
Definition grows (d d' : Database) : Prop :=
  (forall k r, In (k, r) (wallets d) ->
     exists r', In (k, r') (wallets d')
                /\ address r' = address r
                /\ encryptedPrivateKey r' = encryptedPrivateKey r)
  /\ (forall k t, In (k, t) (transactions d) ->
        exists t', In (k, t') (transactions d')
                   /\ tx_type t' = tx_type t
                   /\ fromAddress t' = fromAddress t
                   /\ toAddress t' = toAddress t
                   /\ amount t' = amount t
                   /\ token t' = token t)
  /\ config d' = config d
  /\ (walletKey d <= walletKey d')%positive
  /\ (transactionKey d <= transactionKey d')%positive.

(** Started with the cancellation flag clear, [m] finds it clear at every
    check and leaves it clear. *)
Definition quiet {A} (m : M A) : Prop :=
  forall w, shouldStop w = false ->
    Forall unobserved (events (m w)) /\ shouldStop (final (m w)) = false.

(** The wallets are those of [old], untouched, followed by wallets with
    keys from [k0] on. *)
Definition appended (old : list (positive * WalletInfo)) (k0 : positive)
  (d : Database) : Prop :=
  (exists new, wallets d = old ++ new
               /\ forall e, In e new -> (k0 <= fst e)%positive)
  /\ (k0 <= walletKey d)%positive.

(** The wallets are those of [old], untouched, followed by the wallets of
    the entries [ws] of the run, in order. *)
Definition holds_run (old : list (positive * WalletInfo)) (k0 : positive)
  (ws : list Entry) (d : Database) : Prop :=
  (exists new, wallets d = old ++ new /\ map fst new = map dbId ws)
  /\ Forall (fun e => (k0 <= dbId e)%positive) ws
  /\ (k0 <= walletKey d)%positive.

(** The flag is clear and the wallets of the run [ws] are in the ledger
    after those of [old]. *)
Definition running (old : list (positive * WalletInfo)) (k0 : positive)
  (ws : list Entry) (w : World) : Prop :=
  shouldStop w = false /\ holds_run old k0 ws (database w).

(** When [m], started in a world satisfying [P], returns [a], the world it
    leaves satisfies [Q a]. *)
Definition hoare {A} (P : World -> Prop) (m : M A) (Q : A -> World -> Prop)
  : Prop :=
  forall w, P w -> forall a, outcome (m w) = Ret a -> Q a (final (m w)).

(** [m] maintains [I], whether it returns or throws. *)
Definition invariant {A} (I : World -> Prop) (m : M A) : Prop :=
  forall w, I w -> I (final (m w)).






(* ================================================================== *)
(** ** Facts about numbers *)

Lemma Qltb_true x y : Qltb x y = true <-> (x < y)%Q.
Proof.
  unfold Qltb. rewrite Qlt_alt. destruct (x ?= y)%Q; intuition discriminate.
Qed.

Lemma Qltb_false x y : Qltb x y = false <-> (y <= x)%Q.
Proof.
  split; intro H.
  - apply Qnot_lt_le. intro L. apply Qltb_true in L. congruence.
  - destruct (Qltb x y) eqn:E; trivial.
    apply Qltb_true in E. apply Qlt_not_le in E. contradiction.
Qed.

Lemma Qltb_irrefl_eq x y : (x == y)%Q -> Qltb x y = false.
Proof. intro H. apply Qltb_false. rewrite H. apply Qle_refl. Qed.


Lemma qsum_repeat q k : (qsum (repeat (Num q) k) == inject_Z (Z.of_nat k) * q)%Q.
Proof.
  induction k as [|k IH].
  - cbn. ring.
  - cbn [repeat qsum fold_right qval]. fold (qsum (repeat (Num q) k)).
    rewrite IH, Nat2Z.inj_succ. unfold Z.succ. rewrite inject_Z_plus. ring.
Qed.




(* ================================================================== *)
(** ** The allocation planner *)

Section Planner.

Variable env : Env.

(** [Math.random()] answers a number in [0, 1). *)
Hypothesis random_range : forall k, (0 <= random env k < 1)%Q.

Variables mn mx : Q.
Hypothesis bounds : (mn <= mx)%Q.


End Planner.






(* ================================================================== *)
(** ** Reasoning rules for computations *)

Lemma bind_run {A B} (m : M A) (f : A -> M B) (w : World) :
  bind m f w =
  match outcome (m w) with
  | Ret a => (outcome (f a (final (m w))), final (f a (final (m w))),
              events (m w) ++ events (f a (final (m w))))
  | Thrown e => (Thrown e, final (m w), events (m w))
  end.
Proof.
  unfold bind, outcome, final, events.
  destruct (m w) as [[[a|e] w1] t1]; cbn; [|reflexivity].
  destruct (f a w1) as [[r2 w2] t2]; reflexivity.
Qed.

Lemma try_catch_run {A} (m : M A) (h : Error -> M A) (w : World) :
  try_catch m h w =
  match outcome (m w) with
  | Ret a => (Ret a, final (m w), events (m w))
  | Thrown e => (outcome (h e (final (m w))), final (h e (final (m w))),
                 events (m w) ++ events (h e (final (m w))))
  end.
Proof.
  unfold try_catch, outcome, final, events.
  destruct (m w) as [[[a|e] w1] t1]; cbn; [reflexivity|].
  destruct (h e w1) as [[r2 w2] t2]; reflexivity.
Qed.

Section Rules.

Context {A B : Type}.
Variable phi : Event -> Prop.
Variable J : Database -> Prop.

Lemma emits_ret (a : A) : emits phi (ret a).
Proof. intro w; constructor. Qed.

Lemma emits_throw (e : Error) : emits phi (@throw A e).
Proof. intro w; constructor. Qed.

Lemma emits_bind (m : M A) (f : A -> M B) :
  emits phi m -> (forall a, emits phi (f a)) -> emits phi (bind m f).
Proof.
  intros Hm Hf w. rewrite bind_run. specialize (Hm w).
  destruct (outcome (m w)); cbn [events snd]; auto.
  apply Forall_app; split; auto. apply Hf.
Qed.

Lemma emits_try_catch (m : M A) (h : Error -> M A) :
  emits phi m -> (forall e, emits phi (h e)) -> emits phi (try_catch m h).
Proof.
  intros Hm Hh w. rewrite try_catch_run. specialize (Hm w).
  destruct (outcome (m w)); cbn [events snd]; auto.
  apply Forall_app; split; auto. apply Hh.
Qed.

Lemma keeps_ret (a : A) : keeps J (ret a).
Proof. intros w H; exact H. Qed.

Lemma keeps_throw (e : Error) : keeps J (@throw A e).
Proof. intros w H; exact H. Qed.

Lemma keeps_bind (m : M A) (f : A -> M B) :
  keeps J m -> (forall a, keeps J (f a)) -> keeps J (bind m f).
Proof.
  intros Hm Hf w H. rewrite bind_run. specialize (Hm w H).
  destruct (outcome (m w)); cbn [final fst snd]; auto.
  apply Hf; exact Hm.
Qed.

Lemma keeps_try_catch (m : M A) (h : Error -> M A) :
  keeps J m -> (forall e, keeps J (h e)) -> keeps J (try_catch m h).
Proof.
  intros Hm Hh w H. rewrite try_catch_run. specialize (Hm w H).
  destruct (outcome (m w)); cbn [final fst snd]; auto.
  apply Hh; exact Hm.
Qed.

Lemma returns_ret (a : A) : returns (ret a).
Proof. intro w; exists a; reflexivity. Qed.

Lemma returns_bind (m : M A) (f : A -> M B) :
  returns m -> (forall a, returns (f a)) -> returns (bind m f).
Proof.
  intros Hm Hf w. rewrite bind_run. destruct (Hm w) as [a ->].
  destruct (Hf a (final (m w))) as [b Hb]. exists b. exact Hb.
Qed.

Lemma returns_try_catch (m : M A) (h : Error -> M A) :
  (forall e, returns (h e)) -> returns (try_catch m h).
Proof.
  intros Hh w. rewrite try_catch_run.
  destruct (outcome (m w)) as [a|e].
  - exists a; reflexivity.
  - destruct (Hh e (final (m w))) as [b Hb]. exists b. exact Hb.
Qed.

End Rules.

Section PrimitiveRules.

Variable env : Env.
Variable phi : Event -> Prop.
Variable J : Database -> Prop.

Lemma emits_modify f : emits phi (modify f).
Proof. intro w; constructor. Qed.

Lemma emits_log l m : emits phi (log l m).
Proof. intro w; constructor. Qed.

Lemma emits_guard c m : emits phi (guard c m).
Proof. intro w; unfold guard; destruct c; constructor. Qed.

Lemma emits_emit e : phi e -> emits phi (emit e).
Proof. intros H w; repeat constructor; exact H. Qed.

Lemma emits_stopOperation : emits phi stopOperation.
Proof. intro w; unfold stopOperation; destruct (isRunning w); constructor. Qed.

Lemma emits_while_pending s : emits phi (while_pending env s).
Proof.
  unfold while_pending. destruct (stop_during env s).
  - apply emits_stopOperation.
  - apply emits_ret.
Qed.

Lemma emits_checkStop c : (forall b, phi (Check c b)) -> emits phi (checkStop c).
Proof. intros H w; repeat constructor; apply H. Qed.

Lemma emits_await {A} s (a : A) :
  (forall b, phi (Call s b)) -> emits phi (await env s a).
Proof.
  intro H. unfold await. apply emits_bind; [apply emits_while_pending|intros _].
  destruct (rejects env s).
  - apply emits_bind; [apply emits_emit, H | intros _; apply emits_throw].
  - apply emits_bind; [apply emits_emit, H | intros _; apply emits_ret].
Qed.

Lemma emits_call {A} s (a : A) :
  (forall b, phi (Call s b)) -> emits phi (call env s a).
Proof.
  intro H. unfold call. destruct (rejects env s).
  - apply emits_bind; [apply emits_emit, H | intros _; apply emits_throw].
  - apply emits_bind; [apply emits_emit, H | intros _; apply emits_ret].
Qed.

Lemma emits_delay s : (forall b, phi (Call s b)) -> emits phi (delay env s).
Proof.
  intro H. unfold delay. apply emits_bind; [apply emits_while_pending|intros _].
  apply emits_emit, H.
Qed.

Lemma emits_request {A} s (f : Database -> option (A * Database)) msg :
  (forall b, phi (Call s b)) -> emits phi (request env s f msg).
Proof.
  intro H. unfold request. apply emits_bind; [apply emits_while_pending|intros _].
  intro w. destruct (rejects env s); [repeat constructor; apply H|].
  destruct (f (database w)) as [[a d]|]; repeat constructor; apply H.
Qed.

Lemma emits_submit s a :
  (forall b, phi (Call s b)) -> emits phi (submit env s a).
Proof.
  intro H. unfold submit. destruct (finite a).
  - apply emits_await, H.
  - apply emits_bind; [apply emits_emit, H | intros _; apply emits_throw].
Qed.

Lemma emits_math_random : emits phi (math_random env).
Proof. intro w; constructor. Qed.

Lemma keeps_modify_flag f :
  (forall w, database (f w) = database w) -> keeps J (modify f).
Proof. intros H w Hj. cbn. rewrite H. exact Hj. Qed.

Lemma keeps_log l m : keeps J (log l m).
Proof. intros w H; exact H. Qed.

Lemma keeps_guard c m : keeps J (guard c m).
Proof. intros w H; unfold guard; destruct c; exact H. Qed.

Lemma keeps_emit e : keeps J (emit e).
Proof. intros w H; exact H. Qed.

Lemma keeps_stopOperation : keeps J stopOperation.
Proof. intros w H; unfold stopOperation; destruct (isRunning w); exact H. Qed.

Lemma keeps_while_pending s : keeps J (while_pending env s).
Proof.
  unfold while_pending. destruct (stop_during env s).
  - apply keeps_stopOperation.
  - apply keeps_ret.
Qed.

Lemma keeps_checkStop c : keeps J (checkStop c).
Proof. intros w H; exact H. Qed.

Lemma keeps_await {A} s (a : A) : keeps J (await env s a).
Proof.
  unfold await. apply keeps_bind; [apply keeps_while_pending|intros _].
  destruct (rejects env s);
    (apply keeps_bind; [apply keeps_emit | intros _]);
    [apply keeps_throw | apply keeps_ret].
Qed.

Lemma keeps_call {A} s (a : A) : keeps J (call env s a).
Proof.
  unfold call.
  destruct (rejects env s);
    (apply keeps_bind; [apply keeps_emit | intros _]);
    [apply keeps_throw | apply keeps_ret].
Qed.

Lemma keeps_delay s : keeps J (delay env s).
Proof.
  unfold delay. apply keeps_bind; [apply keeps_while_pending|intros _].
  apply keeps_emit.
Qed.

Lemma keeps_request {A} s (f : Database -> option (A * Database)) msg :
  (forall d a d', J d -> f d = Some (a, d') -> J d') ->
  keeps J (request env s f msg).
Proof.
  intro H. unfold request. apply keeps_bind; [apply keeps_while_pending|intros _].
  intros w Hj. destruct (rejects env s); [exact Hj|].
  destruct (f (database w)) as [[a d]|] eqn:E; [|exact Hj].
  cbn. eapply H; eauto.
Qed.

Lemma keeps_submit s a : keeps J (submit env s a).
Proof.
  unfold submit. destruct (finite a).
  - apply keeps_await.
  - apply keeps_bind; [apply keeps_emit | intros _; apply keeps_throw].
Qed.

Lemma keeps_math_random : keeps J (math_random env).
Proof. intros w H; exact H. Qed.

Lemma returns_modify f : returns (modify f).
Proof. intro w; exists tt; reflexivity. Qed.

Lemma returns_log l m : returns (log l m).
Proof. intro w; exists tt; reflexivity. Qed.

Lemma returns_stopOperation : returns stopOperation.
Proof.
  intro w; exists tt; unfold stopOperation; destruct (isRunning w); reflexivity.
Qed.

Lemma returns_while_pending s : returns (while_pending env s).
Proof.
  unfold while_pending. destruct (stop_during env s).
  - apply returns_stopOperation.
  - apply returns_ret.
Qed.

Lemma returns_delay s : returns (delay env s).
Proof.
  unfold delay. apply returns_bind; [apply returns_while_pending|intros _].
  intro w; exists tt; reflexivity.
Qed.

Lemma returns_checkStop c : returns (checkStop c).
Proof. intro w; eexists; reflexivity. Qed.

End PrimitiveRules.

(* ================================================================== *)
(** ** Footprints: which calls each part of the orchestrator makes *)

Create HintDb orch.
#[local] Hint Unfold saveWallet getWallet getAllWallets updateWallet
  saveTransaction updateTransaction getConfig createWallet loadWallet
  getWalletFromPrivateKey getBalance getTokenBalance provider_getBalance
  provider_getFeeData transferETH transferToken swapETHToToken
  startWatchdog : orch.

Ltac step_emits :=
  cbv beta zeta;
  first
    [ apply emits_ret | apply emits_throw | apply emits_log | apply emits_guard
    | apply emits_modify | apply emits_math_random
    | apply emits_await | apply emits_call | apply emits_delay
    | apply emits_request | apply emits_submit | apply emits_checkStop
    | apply emits_try_catch; [| intro]
    | apply emits_bind; [| intro]
    | match goal with
      | |- emits _ (if ?c then _ else _) => destruct c
      | |- emits _ (match ?x with _ => _ end) => destruct x
      end ].

Ltac emits_tac := autounfold with orch; repeat step_emits.

Section Footprints.

Variable env : Env.
Variable phi : Event -> Prop.

Lemma emits_validateConfig config : emits phi (validateConfig env config).
Proof. unfold validateConfig. emits_tac. Qed.

Lemma emits_distribute todo :
  forall i mn mx l rem, emits phi (distribute env todo i mn mx l rem).
Proof.
  induction todo as [|todo IH]; intros; cbn [distribute].
  - apply emits_ret.
  - emits_tac; apply IH.
Qed.

Lemma emits_generateRandomAllocations n total mn mx :
  emits phi (generateRandomAllocations env n total mn mx).
Proof.
  unfold generateRandomAllocations. emits_tac. apply emits_distribute.
Qed.

Lemma emits_for_each_wallet p body :
  forall ws i,
    (forall j b, (i <= j)%nat -> phi (Check (LoopTop p j) b)) ->
    (forall j e, (i <= j)%nat -> emits phi (body j e)) ->
    emits phi (for_each_wallet p body i ws).
Proof.
  induction ws as [|e rest IH]; intros i Hc Hb; cbn [for_each_wallet].
  - apply emits_ret.
  - emits_tac.
    + intro b. apply Hc. lia.
    + apply Hb. lia.
    + apply IH; intros; [apply Hc | apply Hb]; lia.
Qed.

Lemma emits_createWallets todo :
  forall i allocations ws,
    (forall j b, (i <= j)%nat -> phi (Check (LoopTop Create j) b)) ->
    (forall j o b, (i <= j)%nat -> phi (Call (site Create j o) b)) ->
    emits phi (createWallets env todo i allocations ws).
Proof.
  induction todo as [|todo IH]; intros i allocations ws Hc Hs;
    cbn [createWallets].
  - apply emits_ret.
  - emits_tac; try (intro b; first [apply Hc | apply Hs]; lia).
    apply IH; intros; [apply Hc | apply Hs]; lia.
Qed.

Lemma emits_fundWallet master gas i e :
  (forall o b, phi (Call (site Fund i o) b)) ->
  emits phi (fundWallet env master gas i e).
Proof. intro H. unfold fundWallet. emits_tac; intro; apply H. Qed.

Lemma emits_swapWallet config i e :
  (forall o b, phi (Call (site Swap i o) b)) ->
  emits phi (swapWallet env config i e).
Proof. intro H. unfold swapWallet. emits_tac; intro; apply H. Qed.

Lemma emits_consolidateWallet config i e :
  (forall o b, phi (Call (site Consolidate i o) b)) ->
  emits phi (consolidateWallet env config i e).
Proof. intro H. unfold consolidateWallet. emits_tac; intro; apply H. Qed.

Lemma emits_cleanupWallet config i r :
  (forall o b, phi (Call (site Cleanup i o) b)) ->
  emits phi (cleanupWallet env config i r).
Proof. intro H. unfold cleanupWallet. emits_tac; intro; apply H. Qed.

Lemma emits_cleanupWallets config :
  forall l i,
    (forall j o b, (i <= j)%nat -> phi (Call (site Cleanup j o) b)) ->
    emits phi (cleanupWallets env config i l).
Proof.
  induction l as [|r l IH]; intros i H; cbn [cleanupWallets].
  - apply emits_ret.
  - apply emits_bind; [|intros _].
    + apply emits_cleanupWallet. intros; apply H; lia.
    + apply IH. intros; apply H; lia.
Qed.

Lemma emits_cleanupAndConsolidateFunds config password :
  (forall j o b, phi (Call (site Cleanup j o) b)) ->
  emits phi (cleanupAndConsolidateFunds env config password).
Proof.
  intro H. unfold cleanupAndConsolidateFunds.
  emits_tac; first [apply emits_cleanupWallets; intros; apply H | intro; apply H].
Qed.

End Footprints.

(* ================================================================== *)
(** ** The shape of a run of [executeOperation] *)

Lemma on_exit_run w : on_exit w = (Ret tt, finished w, []).
Proof.
  unfold on_exit, finished, bind, stopWatchdog, modify.
  destruct (watchdogTimer w); reflexivity.
Qed.

Lemma executeOperation_busy env config password w :
  isRunning w = true ->
  executeOperation env config password w
  = (Thrown (Err "Operation is already running"), w, []).
Proof. intro H. unfold executeOperation. rewrite H. reflexivity. Qed.

Lemma executeOperation_run env config password w :
  isRunning w = false ->
  executeOperation env config password w
  = match outcome (operation env config password (started w)) with
    | Ret a =>
        (Ret a,
         finished (final (operation env config password (started w))),
         events (operation env config password (started w)))
    | Thrown e =>
        (Thrown e,
         finished (final (attempt_cleanup env config password
                    (failed_in (final (operation env config password (started w)))))),
         events (operation env config password (started w))
         ++ events (attempt_cleanup env config password
                    (failed_in (final (operation env config password (started w))))))
    end.
Proof.
  intro H. unfold executeOperation. rewrite H.
  unfold startWatchdog. unfold bind at 1 2 3. unfold modify at 1 2 3.
  fold (started w). cbn [app].
  unfold try_finally. rewrite try_catch_run.
  destruct (outcome (operation env config password (started w))) as [a|e].
  - rewrite on_exit_run. destruct a. cbn. rewrite app_nil_r. reflexivity.
  - unfold on_failure. rewrite bind_run. cbn [log modify outcome final events fst snd].
    fold (failed_in (final (operation env config password (started w)))).
    rewrite bind_run.
    assert (R : returns (attempt_cleanup env config password)).
    { unfold attempt_cleanup. apply returns_try_catch. intro. apply returns_log. }
    destruct (R (failed_in (final (operation env config password (started w)))))
      as [[] ->].
    cbn [throw outcome final events fst snd]. rewrite on_exit_run.
    cbn. rewrite !app_nil_r. reflexivity.
Qed.

Lemma finished_isRunning w : isRunning (finished w) = false.
Proof. reflexivity. Qed.

Lemma finished_watchdog w : watchdogTimer (finished w) = false.
Proof. unfold finished. destruct (watchdogTimer w) eqn:E; cbn; auto. Qed.

Lemma finished_database w : database (finished w) = database w.
Proof. unfold finished. destruct (watchdogTimer w); reflexivity. Qed.

Lemma guard_bind_run {A} c msg (k : M A) w :
  (guard c msg;; k) w = if c then (Thrown (Err msg), w, []) else k w.
Proof.
  rewrite bind_run. unfold guard. destruct c; cbn; [reflexivity|].
  destruct (k w) as [[r w1] t1]; reflexivity.
Qed.



Lemma validateConfig_accepted env config w :
  outcome (validateConfig env config w) = Ret tt ->
  isAddress env (tokenAddress config) = true
  /\ isAddress env (targetAddress config) = true
  /\ (1 <= numWallets config <= 1000)%Z
  /\ JS.le (parseFloat (gasAmount config)) (Num 0) = false
  /\ JS.le (parseFloat (minPurchaseAmount config)) (Num 0) = false
  /\ JS.le (parseFloat (maxPurchaseAmount config)) (Num 0) = false
  /\ JS.gt (parseFloat (minPurchaseAmount config))
           (parseFloat (maxPurchaseAmount config)) = false
  /\ JS.lt (parseFloat (minKeptTokens config)) (Num 0) = false
  /\ String.prefix "http" (rpcUrl config) = true.
Proof.
  unfold validateConfig, guard.
  destruct (isAddress env (tokenAddress config)); [|discriminate].
  destruct (isAddress env (targetAddress config)); [|discriminate].
  destruct (numWallets config <? 1)%Z eqn:E1; [discriminate|].
  destruct (numWallets config >? 1000)%Z eqn:E2; [discriminate|].
  destruct (JS.le (parseFloat (gasAmount config)) (Num 0)); [discriminate|].
  destruct (JS.le (parseFloat (minPurchaseAmount config)) (Num 0)); [discriminate|].
  destruct (JS.le (parseFloat (maxPurchaseAmount config)) (Num 0)); [discriminate|].
  destruct (JS.gt (parseFloat (minPurchaseAmount config))
                  (parseFloat (maxPurchaseAmount config))); [discriminate|].
  destruct (JS.lt (parseFloat (minKeptTokens config)) (Num 0)); [discriminate|].
  destruct (rpcUrl config =? "")%string; [discriminate|].
  destruct (String.prefix "http" (rpcUrl config)); [|discriminate].
  intros _. repeat split; auto; lia.
Qed.

(* ================================================================== *)
(** ** Run equations of the collaborator calls *)

Section RunEquations.

Variable env : Env.

Lemma while_pending_run s w :
  while_pending env s w = (Ret tt, interrupted env s w, []).
Proof.
  unfold interrupted, while_pending, stopOperation.
  destruct (stop_during env s); [destruct (isRunning w)|]; reflexivity.
Qed.

Lemma interrupted_database s w : database (interrupted env s w) = database w.
Proof.
  unfold interrupted, while_pending, stopOperation.
  destruct (stop_during env s); [destruct (isRunning w)|]; reflexivity.
Qed.

Lemma interrupted_isRunning s w : isRunning (interrupted env s w) = isRunning w.
Proof.
  unfold interrupted, while_pending, stopOperation.
  destruct (stop_during env s); [destruct (isRunning w) eqn:E|]; cbn; auto.
Qed.

Lemma interrupted_shouldStop s w :
  shouldStop w = true -> shouldStop (interrupted env s w) = true.
Proof.
  unfold interrupted, while_pending, stopOperation.
  destruct (stop_during env s); [destruct (isRunning w)|]; cbn; auto.
Qed.

Lemma interrupted_requested s w :
  stop_during env s = true -> isRunning w = true ->
  shouldStop (interrupted env s w) = true.
Proof.
  intros H1 H2. unfold interrupted, while_pending, stopOperation.
  rewrite H1, H2. reflexivity.
Qed.

Lemma await_run {A} s (a : A) w :
  await env s a w
  = if rejects env s
    then (Thrown (Rejected s), interrupted env s w, [Call s false])
    else (Ret a, interrupted env s w, [Call s true]).
Proof.
  unfold await. rewrite bind_run, while_pending_run.
  cbn [outcome final events fst snd]. destruct (rejects env s); reflexivity.
Qed.

Lemma call_run {A} s (a : A) w :
  call env s a w
  = if rejects env s
    then (Thrown (Rejected s), w, [Call s false])
    else (Ret a, w, [Call s true]).
Proof. unfold call. destruct (rejects env s); reflexivity. Qed.

Lemma delay_run s w : delay env s w = (Ret tt, interrupted env s w, [Call s true]).
Proof.
  unfold delay. rewrite bind_run, while_pending_run. reflexivity.
Qed.

Lemma request_run {A} s (f : Database -> option (A * Database)) msg w :
  request env s f msg w
  = if rejects env s
    then (Thrown (Rejected s), interrupted env s w, [Call s false])
    else match f (database w) with
         | Some (a, d) => (Ret a, set_database d (interrupted env s w), [Call s true])
         | None => (Thrown (Err msg), interrupted env s w, [Call s false])
         end.
Proof.
  unfold request. rewrite bind_run, while_pending_run.
  cbn [outcome final events fst snd]. rewrite interrupted_database.
  destruct (rejects env s); [reflexivity|].
  destruct (f (database w)) as [[a d]|]; reflexivity.
Qed.

Lemma submit_run s a w :
  submit env s a w
  = if finite a
    then (if rejects env s
          then (Thrown (Rejected s), interrupted env s w, [Call s false])
          else (Ret (text env s), interrupted env s w, [Call s true]))
    else (Thrown (Err "invalid decimal amount"), w, [Call s false]).
Proof.
  unfold submit. destruct (finite a); [apply await_run | reflexivity].
Qed.

End RunEquations.

(* ================================================================== *)
(** ** The [try] block *)

Lemma emits_unless_stopped phi p rest :
  (forall b, phi (Check (Boundary p) b)) -> emits phi rest ->
  emits phi (unless_stopped p rest).
Proof. intros H Hr. unfold unless_stopped. emits_tac; auto. Qed.

Lemma emits_operation env config password :
  emits run_event (operation env config password).
Proof.
  unfold operation. apply emits_bind; [apply emits_validateConfig|intros _].
  apply emits_bind; [emits_tac; intro; cbn; split; discriminate|intro master].
  apply emits_bind; [emits_tac; intro; cbn; split; discriminate|intro balance].
  cbv zeta.
  apply emits_bind; [apply emits_generateRandomAllocations|intro allocations].
  apply emits_bind; [apply emits_guard|intros _].
  - unfold step3. apply emits_bind; [|intro ws].
    + apply emits_createWallets; intros; cbn; auto. split; discriminate.
    + apply emits_unless_stopped; [intro; exact I|].
      unfold step4. apply emits_bind; [|intros _].
      * apply emits_for_each_wallet; intros; [exact I|].
        apply emits_fundWallet. intros; cbn; split; discriminate.
      * apply emits_unless_stopped; [intro; exact I|].
        unfold step5. apply emits_bind; [|intros _].
        -- apply emits_for_each_wallet; intros; [exact I|].
           apply emits_swapWallet. intros; cbn; split; discriminate.
        -- apply emits_unless_stopped; [intro; exact I|].
           apply emits_for_each_wallet; intros; [exact I|].
           apply emits_consolidateWallet. intros; cbn; split; discriminate.
Qed.

Lemma emits_attempt_cleanup env config password :
  emits sweep_event (attempt_cleanup env config password).
Proof.
  unfold attempt_cleanup. apply emits_try_catch; [|intro; apply emits_log].
  apply emits_cleanupAndConsolidateFunds. intros; reflexivity.
Qed.


(* ================================================================== *)
(** ** The run flag *)

(** C8.  A call of [executeOperation] while an operation is in progress
    throws at once and leaves the world as it is (no wallet, no record, the
    run flag still set); a call that is let in leaves the run flag cleared
    and the watchdog torn down however it ends. *)
Theorem run_flag_guard (env : Env) (config : AppConfig) (password : string)
  (w : World) :
  (isRunning w = true ->
   executeOperation env config password w
   = (Thrown (Err "Operation is already running"), w, []))
  /\ (isRunning w = false ->
      isOperationRunning (final (executeOperation env config password w)) = false
      /\ watchdogTimer (final (executeOperation env config password w)) = false).
Proof.
  split; intro H.
  - apply executeOperation_busy; exact H.
  - rewrite (executeOperation_run env config password w H).
    unfold isOperationRunning.
    destruct (outcome (operation env config password (started w)));
      cbn [final fst snd]; split;
      first [apply finished_isRunning | apply finished_watchdog].
Qed.

Lemma run_flag_guard_witness :
  executeOperation Scenario.calm (Scenario.config_for 2) "pw" Scenario.busy
  = (Thrown (Err "Operation is already running"), Scenario.busy, [])
  /\ isOperationRunning
       (final (executeOperation Scenario.calm (Scenario.config_for 2) "pw"
                                Scenario.idle)) = false.
Proof.
  split.
  - apply (proj1 (run_flag_guard Scenario.calm (Scenario.config_for 2) "pw"
                                 Scenario.busy)).
    reflexivity.
  - apply (proj2 (run_flag_guard Scenario.calm (Scenario.config_for 2) "pw"
                                 Scenario.idle)).
    reflexivity.
Defined.

(* ================================================================== *)
(** ** Failures of the pre-checks *)







(* ================================================================== *)
(** ** Non-numeric amounts *)

Lemma validateConfig_accepts env config w :
  isAddress env (tokenAddress config) = true ->
  isAddress env (targetAddress config) = true ->
  (1 <= numWallets config <= 1000)%Z ->
  JS.le (parseFloat (gasAmount config)) (Num 0) = false ->
  JS.le (parseFloat (minPurchaseAmount config)) (Num 0) = false ->
  JS.le (parseFloat (maxPurchaseAmount config)) (Num 0) = false ->
  JS.gt (parseFloat (minPurchaseAmount config))
        (parseFloat (maxPurchaseAmount config)) = false ->
  JS.lt (parseFloat (minKeptTokens config)) (Num 0) = false ->
  String.prefix "http" (rpcUrl config) = true ->
  outcome (validateConfig env config w) = Ret tt.
Proof.
  intros H1 H2 [H3 H3'] H4 H5 H6 H7 H8 H9.
  unfold validateConfig. rewrite !guard_bind_run. unfold guard.
  rewrite H1, H2, H4, H5, H6, H7, H8, H9.
  replace (numWallets config <? 1)%Z with false by (symmetry; apply Z.ltb_ge; lia).
  replace (numWallets config >? 1000)%Z with false
    by (symmetry; rewrite Z.gtb_ltb; apply Z.ltb_ge; lia).
  destruct (rpcUrl config) as [|c r]; [discriminate H9|]. reflexivity.
Qed.

Lemma gt_NaN_l a : JS.gt NaN a = false.
Proof. destruct a; reflexivity. Qed.

(** C10.  ["abc"] parses to [NaN]; every comparison of [validateConfig]
    with [NaN] is false, so a configuration that is accepted stays accepted
    when its gas amount, its minimum or its maximum purchase amount is
    replaced by ["abc"]; and [executeOperation] then goes on with [NaN]
    amounts: with one wallet it records a funding transfer of [NaN]. *)
Theorem non_numeric_amount_accepted (env : Env) (config : AppConfig)
  (w : World) :
  outcome (validateConfig env config w) = Ret tt ->
  parseFloat "abc" = NaN
  /\ outcome (validateConfig env (Scenario.with_gasAmount "abc" config) w) = Ret tt
  /\ outcome (validateConfig env (Scenario.with_minPurchaseAmount "abc" config) w)
     = Ret tt
  /\ outcome (validateConfig env (Scenario.with_maxPurchaseAmount "abc" config) w)
     = Ret tt
  /\ exists k tx,
       In (k, tx)
          (transactions
             (database
                (final (executeOperation Scenario.calm
                          (Scenario.with_gasAmount "abc" (Scenario.config_for 1))
                          "pw" Scenario.idle))))
       /\ tx_type tx = fund_transfer /\ amount tx = NaN.
Proof.
  intro Hv.
  destruct (validateConfig_accepted env config w Hv)
    as [H1 [H2 [H3 [H4 [H5 [H6 [H7 [H8 H9]]]]]]]].
  assert (Habc : parseFloat "abc" = NaN) by reflexivity.
  split; [exact Habc|].
  split; [|split; [|split]].
  - apply validateConfig_accepts; cbn [Scenario.with_gasAmount tokenAddress
      targetAddress numWallets gasAmount minPurchaseAmount maxPurchaseAmount
      minKeptTokens rpcUrl]; auto.
  - apply validateConfig_accepts; cbn [Scenario.with_minPurchaseAmount tokenAddress
      targetAddress numWallets gasAmount minPurchaseAmount maxPurchaseAmount
      minKeptTokens rpcUrl]; auto.
    rewrite Habc. apply gt_NaN_l.
  - apply validateConfig_accepts; cbn [Scenario.with_maxPurchaseAmount tokenAddress
      targetAddress numWallets gasAmount minPurchaseAmount maxPurchaseAmount
      minKeptTokens rpcUrl]; auto.
  - vm_compute. do 2 eexists. split; [left; reflexivity|]. split; reflexivity.
Qed.

Lemma non_numeric_amount_accepted_witness :
  parseFloat "abc" = NaN
  /\ outcome (validateConfig Scenario.calm
                (Scenario.with_gasAmount "abc" (Scenario.config_for 1))
                Scenario.idle) = Ret tt.
Proof.
  pose proof (non_numeric_amount_accepted Scenario.calm (Scenario.config_for 1)
                Scenario.idle eq_refl) as [H1 [H2 _]].
  split; [exact H1 | exact H2].
Defined.

(* ================================================================== *)
(** ** The allocation planner on concrete budgets *)





(* ================================================================== *)
(** ** Cancellation *)

Ltac wd_split := split; [| split; [| split]].

Lemma winds_down_quiet {A} (m : M A) : emits unobserved m -> winds_down m.
Proof.
  intros H w. exists (events (m w)), []. rewrite app_nil_r.
  wd_split; auto. congruence.
Qed.

Lemma winds_down_after_quiet {A B} (m : M A) (f : A -> M B) :
  emits unobserved m -> (forall a, winds_down (f a)) -> winds_down (bind m f).
Proof.
  intros Hm Hf w. rewrite bind_run. specialize (Hm w).
  destruct (outcome (m w)) as [a|e].
  - destruct (Hf a (final (m w))) as [t1 [t2 [E [Q1 [Q2 Hr]]]]].
    exists (events (m w) ++ t1), t2. cbn [events outcome final fst snd].
    rewrite E, app_assoc. wd_split; auto.
    apply Forall_app; auto.
  - exists (events (m w)), []. cbn [events snd]. rewrite app_nil_r.
    wd_split; auto. congruence.
Qed.

Lemma winds_down_bind {A B} (m : M A) (f : A -> M B) :
  winds_down m -> (forall a, winds_down (f a)) ->
  (forall a, stops_at_once (f a)) -> winds_down (bind m f).
Proof.
  intros Hm Hf Hs w. rewrite bind_run.
  destruct (Hm w) as [t1 [t2 [E [Q1 [Q2 Hr]]]]].
  destruct t2 as [|x t2].
  - rewrite app_nil_r in E. destruct (outcome (m w)) as [a|e].
    + destruct (Hf a (final (m w))) as [u1 [u2 [E' [P1 [P2 Hr']]]]].
      exists (t1 ++ u1), u2. cbn [events outcome final fst snd].
      rewrite E, E', app_assoc. wd_split; auto.
      apply Forall_app; auto.
    + exists t1, []. cbn [events snd]. rewrite app_nil_r.
      wd_split; auto. congruence.
  - destruct Hr as [[a Ha] Hstop]; [discriminate|]. rewrite Ha.
    destruct (Hs a (final (m w)) Hstop) as [P [Hret Hstop']].
    exists t1, ((x :: t2) ++ events (f a (final (m w)))).
    cbn [events outcome final fst snd]. rewrite E, app_assoc.
    wd_split; auto.
    apply Forall_app; auto.
Qed.

Lemma stops_at_once_bind {A B} (m : M A) (f : A -> M B) :
  stops_at_once m -> (forall a, stops_at_once (f a)) -> stops_at_once (bind m f).
Proof.
  intros Hm Hf w Hw. rewrite bind_run.
  destruct (Hm w Hw) as [P [[a Ha] Hstop]]. rewrite Ha.
  destruct (Hf a (final (m w)) Hstop) as [P' [Hret Hstop']].
  cbn [events outcome final fst snd]. repeat split; auto.
  apply Forall_app; auto.
Qed.

Lemma unobserved_call s b : unobserved (Call s b).
Proof. intro H; exact H. Qed.

Lemma unobserved_check c : unobserved (Check c false).
Proof. intro H; exact H. Qed.

Lemma winds_down_for_each_wallet p body :
  (forall j e, emits unobserved (body j e)) ->
  forall ws i, winds_down (for_each_wallet p body i ws).
Proof.
  intros Hb. induction ws as [|e rest IH]; intro i; cbn [for_each_wallet].
  - apply winds_down_quiet, emits_ret.
  - intro w. rewrite bind_run. cbn [checkStop outcome final events fst snd].
    destruct (shouldStop w) eqn:Hw.
    + exists [], [Check (LoopTop p i) true]. cbn.
      wd_split; auto; repeat constructor; eauto.
    + assert (W : winds_down (body i e;; for_each_wallet p body (S i) rest)).
      { apply winds_down_after_quiet; [apply Hb | intros _; apply IH]. }
      destruct (W w) as [t1 [t2 [E [Q1 [Q2 Hr]]]]].
      exists (Check (LoopTop p i) false :: t1), t2.
      cbn [app]. rewrite E. wd_split; auto.
      constructor; auto. apply unobserved_check.
Qed.

Lemma stops_at_once_for_each_wallet p body ws i :
  stops_at_once (for_each_wallet p body i ws).
Proof.
  intros w Hw. destruct ws as [|e rest]; cbn [for_each_wallet].
  - cbn. repeat split; eauto.
  - rewrite bind_run. cbn [checkStop outcome final events fst snd].
    rewrite Hw. cbn. repeat split; eauto. repeat constructor.
Qed.

Lemma winds_down_unless_stopped p rest :
  winds_down rest -> winds_down (unless_stopped p rest).
Proof.
  intros Hr w. unfold unless_stopped. rewrite bind_run.
  cbn [checkStop outcome final events fst snd].
  destruct (shouldStop w) eqn:Hw.
  - exists [], [Check (Boundary p) true]. cbn.
    wd_split; auto; repeat constructor; eauto.
  - destruct (Hr w) as [t1 [t2 [E [Q1 [Q2 Hret]]]]].
    exists (Check (Boundary p) false :: t1), t2.
    cbn [app]. rewrite E. wd_split; auto.
    constructor; auto. apply unobserved_check.
Qed.

Lemma stops_at_once_unless_stopped p rest : stops_at_once (unless_stopped p rest).
Proof.
  intros w Hw. unfold unless_stopped. rewrite bind_run.
  cbn [checkStop outcome final events fst snd]. rewrite Hw.
  cbn. repeat split; eauto. repeat constructor.
Qed.

Section CancellationOfPhases.

Variable env : Env.

Lemma winds_down_createWallets todo :
  forall i allocations ws,
    winds_down (createWallets env todo i allocations ws).
Proof.
  induction todo as [|todo IH]; intros i allocations ws; cbn [createWallets].
  - apply winds_down_quiet, emits_ret.
  - intro w. rewrite bind_run. cbn [checkStop outcome final events fst snd].
    destruct (shouldStop w) eqn:Hw.
    + exists [], [Check (LoopTop Create i) true]. cbn.
      wd_split; auto; repeat constructor; eauto.
    + match goal with
      | |- context [events (?m w)] => assert (W : winds_down m)
      end.
      { apply winds_down_after_quiet;
          [emits_tac; intro; apply unobserved_call | intro info].
        apply winds_down_after_quiet;
          [emits_tac; intro; apply unobserved_call | intro k].
        apply winds_down_after_quiet;
          [emits_tac; intro; apply unobserved_call | intros _].
        apply IH. }
      destruct (W w) as [t1 [t2 [E [Q1 [Q2 Hr]]]]].
      exists (Check (LoopTop Create i) false :: t1), t2.
      cbn [app]. rewrite E. wd_split; auto.
      constructor; auto. apply unobserved_check.
Qed.

Lemma stops_at_once_createWallets todo i allocations ws :
  stops_at_once (createWallets env todo i allocations ws).
Proof.
  intros w Hw. destruct todo as [|todo]; cbn [createWallets].
  - cbn. repeat split; eauto.
  - rewrite bind_run. cbn [checkStop outcome final events fst snd].
    rewrite Hw. cbn. repeat split; eauto. repeat constructor.
Qed.

Lemma winds_down_operation config password :
  winds_down (operation env config password).
Proof.
  unfold operation.
  apply winds_down_after_quiet; [apply emits_validateConfig|intros _].
  apply winds_down_after_quiet;
    [emits_tac; intro; apply unobserved_call|intro master].
  apply winds_down_after_quiet;
    [emits_tac; intro; apply unobserved_call|intro balance].
  cbv zeta.
  apply winds_down_after_quiet;
    [apply emits_generateRandomAllocations|intro allocations].
  apply winds_down_after_quiet; [apply emits_guard|intros _].
  unfold step3.
  apply winds_down_bind;
    [apply winds_down_createWallets | intro ws
     | intro; apply stops_at_once_unless_stopped].
  apply winds_down_unless_stopped. unfold step4.
  apply winds_down_bind;
    [apply winds_down_for_each_wallet | intros _
     | intro; apply stops_at_once_unless_stopped].
  { intros. apply emits_fundWallet. intros; apply unobserved_call. }
  apply winds_down_unless_stopped. unfold step5.
  apply winds_down_bind;
    [apply winds_down_for_each_wallet | intros _
     | intro; apply stops_at_once_unless_stopped].
  { intros. apply emits_swapWallet. intros; apply unobserved_call. }
  apply winds_down_unless_stopped. unfold step6.
  apply winds_down_for_each_wallet.
  intros. apply emits_consolidateWallet. intros; apply unobserved_call.
Qed.

End CancellationOfPhases.

Lemma observed_not_unobserved c t :
  Forall unobserved t -> In (Check c true) t -> False.
Proof.
  intros F H. rewrite Forall_forall in F. apply (F _ H). exact I.
Qed.

(* ================================================================== *)
(** ** The checks of the flag come first *)

Lemma checked_before_nil pre : checked_before pre [].
Proof. intros t1 s b t2 c E. destruct t1; discriminate E. Qed.

Lemma checked_before_check pre c b : checked_before pre [Check c b].
Proof.
  intros t1 s b' t2 c' E. destruct t1 as [|x t1]; [discriminate E|].
  destruct t1; discriminate E.
Qed.

Lemma checked_before_app pre t t' :
  checked_before pre t -> checked_before (pre ++ t) t' ->
  checked_before pre (t ++ t').
Proof.
  intros H H' t1 s b t2 c E Hc.
  apply app_eq_app in E. destruct E as [l [[E1 E2]|[E1 E2]]].
  - destruct l as [|x l].
    + cbn in E2. rewrite app_nil_r in E1. subst t t'.
      rewrite <- (app_nil_r (pre ++ t1)). apply (H' [] s b t2 c); auto.
    + inversion E2; subst. apply (H t1 s b l c); auto.
  - subst. rewrite app_assoc. apply (H' l s b t2 c); auto.
Qed.

Lemma covered_of_emits {A} C (m : M A) : emits (cleared C) m -> covered C m.
Proof.
  intros H w pre Hpre t1 s b t2 c E Hc.
  specialize (H w). rewrite E in H. apply Forall_app in H.
  destruct H as [_ H]. inversion H as [|x l Hx Hl]; subst.
  apply in_or_app. left. apply Hpre. apply Hx. exact Hc.
Qed.

Lemma covered_weaken {A} C C' (m : M A) :
  incl C C' -> covered C m -> covered C' m.
Proof. intros Hi H w pre Hpre. apply H. intros c Hc. apply Hpre, Hi, Hc. Qed.

Lemma covered_ret {A} C (a : A) : covered C (ret a).
Proof. intros w pre _. apply checked_before_nil. Qed.

Lemma covered_bind {A B} C (m : M A) (f : A -> M B) :
  covered C m -> (forall a, covered C (f a)) -> covered C (bind m f).
Proof.
  intros Hm Hf w pre Hpre. rewrite bind_run.
  destruct (outcome (m w)) as [a|e]; cbn [events snd].
  - apply checked_before_app; [apply Hm; exact Hpre|].
    apply Hf. intros c Hc. apply in_or_app. left. auto.
  - apply Hm; exact Hpre.
Qed.

(** What follows a check that found the flag clear may rely on it. *)
Lemma covered_after_check {A} C c (k : bool -> M A) :
  covered C (k true) -> covered (c :: C) (k false) ->
  covered C (bind (checkStop c) k).
Proof.
  intros Ht Hf w pre Hpre. rewrite bind_run.
  cbn [checkStop outcome final events fst snd].
  apply checked_before_app; [apply checked_before_check|].
  destruct (shouldStop w).
  - apply Ht. intros x Hx. apply in_or_app. left. auto.
  - apply Hf. intros x [<-|Hx]; apply in_or_app; [right; left; reflexivity|].
    left. auto.
Qed.

Lemma covered_for_each_wallet C p body :
  (forall i e, covered (LoopTop p i :: C) (body i e)) ->
  forall ws i, covered C (for_each_wallet p body i ws).
Proof.
  intros Hb. induction ws as [|e rest IH]; intro i; cbn [for_each_wallet].
  - apply covered_ret.
  - apply covered_after_check; [apply covered_ret|].
    apply covered_bind; [apply Hb|intros _].
    apply covered_weaken with (C := C); [apply incl_tl, incl_refl | apply IH].
Qed.

Lemma covered_unless_stopped C p rest :
  covered (Boundary p :: C) rest -> covered C (unless_stopped p rest).
Proof.
  intro H. unfold unless_stopped. apply covered_after_check; [|exact H].
  apply covered_of_emits. emits_tac.
Qed.

(** The checks due for a call are among those already made. *)
Ltac due :=
  let c := fresh "c" in
  let H := fresh "H" in
  cbn; intros c H; cbn in H; cbn; tauto.

Section ChecksOfPhases.

Variable env : Env.

Lemma covered_createWallets C todo :
  forall i allocations ws, covered C (createWallets env todo i allocations ws).
Proof.
  induction todo as [|todo IH]; intros i allocations ws; cbn [createWallets].
  - apply covered_ret.
  - apply covered_after_check; [apply covered_of_emits; emits_tac|].
    apply covered_bind;
      [apply covered_of_emits; emits_tac; intro; due
      |intro info].
    apply covered_bind;
      [apply covered_of_emits; emits_tac; intro; due
      |intro dbId].
    cbv zeta.
    apply covered_bind;
      [apply covered_of_emits; emits_tac; intro; due
      |intros _].
    apply covered_weaken with (C := C); [apply incl_tl, incl_refl | apply IH].
Qed.

Lemma covered_step6 config ws :
  covered [Boundary Swap; Boundary Fund; Boundary Create] (step6 env config ws).
Proof.
  unfold step6, consolidateWallets. apply covered_for_each_wallet. intros i e.
  apply covered_of_emits, emits_consolidateWallet. intros o b. due.
Qed.

Lemma covered_step5 config ws :
  covered [Boundary Fund; Boundary Create] (step5 env config ws).
Proof.
  unfold step5, swapWallets. apply covered_bind; [|intros _].
  - apply covered_for_each_wallet. intros i e.
    apply covered_of_emits, emits_swapWallet. intros o b. due.
  - apply covered_unless_stopped, covered_step6.
Qed.

Lemma covered_step4 config master gas ws :
  covered [Boundary Create] (step4 env config master gas ws).
Proof.
  unfold step4, fundWallets. apply covered_bind; [|intros _].
  - apply covered_for_each_wallet. intros i e.
    apply covered_of_emits, emits_fundWallet. intros o b. due.
  - apply covered_unless_stopped, covered_step5.
Qed.

Lemma covered_operation config password :
  covered [] (operation env config password).
Proof.
  unfold operation.
  apply covered_bind; [apply covered_of_emits, emits_validateConfig|intros _].
  apply covered_bind;
    [apply covered_of_emits; emits_tac; intro; due|intro master].
  apply covered_bind;
    [apply covered_of_emits; emits_tac; intro; due|intro balance].
  cbv zeta.
  apply covered_bind;
    [apply covered_of_emits, emits_generateRandomAllocations|intro allocations].
  apply covered_bind; [apply covered_of_emits, emits_guard|intros _].
  unfold step3. apply covered_bind; [apply covered_createWallets|intro ws].
  apply covered_unless_stopped, covered_step4.
Qed.

Lemma covered_attempt_cleanup config password :
  covered [] (attempt_cleanup env config password).
Proof.
  apply covered_of_emits. unfold attempt_cleanup.
  apply emits_try_catch; [|intro; apply emits_log].
  apply emits_cleanupAndConsolidateFunds. intros j o b. due.
Qed.

(** In a run of [executeOperation] every call made for a wallet in one of
    the four loops comes after the check at the top of its iteration, and
    every call of a later phase after the checks that follow the phases
    before; each of these checks found the flag clear. *)
Lemma executeOperation_checks_first config password w :
  checked_before [] (events (executeOperation env config password w)).
Proof.
  destruct (isRunning w) eqn:Hrun.
  - rewrite (executeOperation_busy env config password w Hrun).
    apply checked_before_nil.
  - rewrite (executeOperation_run env config password w Hrun).
    pose proof (covered_operation config password (started w) []) as Ho.
    destruct (outcome (operation env config password (started w))) as [a|e];
      cbn [events snd].
    + apply Ho. intros c [].
    + apply checked_before_app; [apply Ho; intros c []|].
      apply covered_attempt_cleanup. intros c [].
Qed.

End ChecksOfPhases.

(** C7 (as amended).  The flag is checked at the top of every iteration of
    the create, fund, swap and consolidate loops and after the first three
    of them: every call made for a wallet in one of these loops comes
    after the check at the top of its iteration, every call of a later
    phase comes after the checks at the boundaries before it, and all these
    checks found the flag clear.  In every run in which one of the checks
    finds the flag set, [executeOperation] makes no collaborator call after
    that check (only the remaining checks on the way out), returns without
    throwing, has not run the cleanup sweep, and leaves the run flag
    cleared.  (A step that throws out of the [try] block before the flag is
    next checked is handled as a failure, stop request or not.) *)
Theorem cancellation_returns_early (env : Env) (config : AppConfig)
  (password : string) (w : World) (c : CheckPoint) :
  isRunning w = false ->
  In (Check c true) (events (executeOperation env config password w)) ->
  (forall t1 s b t2 c',
     events (executeOperation env config password w) = t1 ++ Call s b :: t2 ->
     In c' (checks_due s) -> In (Check c' false) t1)
  /\ outcome (executeOperation env config password w) = Ret tt
  /\ (forall s b, In (Call s b) (events (executeOperation env config password w))
                  -> phase s <> Cleanup)
  /\ isOperationRunning (final (executeOperation env config password w)) = false
  /\ exists t1 t2,
       events (executeOperation env config password w) = t1 ++ t2
       /\ Forall unobserved t1
       /\ Forall observed_stop t2.
Proof.
  intros Hidle Hin.
  split; [exact (executeOperation_checks_first env config password w)|].
  revert Hin.
  rewrite (executeOperation_run env config password w Hidle).
  destruct (winds_down_operation env config password (started w))
    as [t1 [t2 [E [Q1 [Q2 Hr]]]]].
  pose proof (emits_operation env config password (started w)) as Hrun.
  destruct (outcome (operation env config password (started w))) as [[]|e] eqn:Ho;
    cbn [outcome final events fst snd]; intro Hin.
  - split; [reflexivity|]. split; [|split; [reflexivity|]].
    + intros s b Hs. rewrite Forall_forall in Hrun.
      apply (Hrun _ Hs).
    + exists t1, t2. auto.
  - exfalso. apply in_app_or in Hin. destruct Hin as [Hin|Hin].
    + rewrite E in Hin. apply in_app_or in Hin. destruct Hin as [Hin|Hin].
      * eapply observed_not_unobserved; eauto.
      * destruct Hr as [[a Ha] _]; [intro Hn; rewrite Hn in Hin; exact Hin|].
        discriminate Ha.
    + pose proof (emits_attempt_cleanup env config password
                    (failed_in (final (operation env config password (started w)))))
        as Hs.
      rewrite Forall_forall in Hs. apply (Hs _ Hin).
Qed.

Lemma cancellation_returns_early_witness :
  (forall t1 s b t2 c',
     events (executeOperation Scenario.stopped_while_creating
               (Scenario.config_for 2) "pw" Scenario.idle)
     = t1 ++ Call s b :: t2 ->
     In c' (checks_due s) -> In (Check c' false) t1)
  /\ outcome (executeOperation Scenario.stopped_while_creating
                (Scenario.config_for 2) "pw" Scenario.idle) = Ret tt
  /\ (forall s b,
        In (Call s b)
           (events (executeOperation Scenario.stopped_while_creating
                      (Scenario.config_for 2) "pw" Scenario.idle))
        -> phase s <> Cleanup)
  /\ isOperationRunning
       (final (executeOperation Scenario.stopped_while_creating
                 (Scenario.config_for 2) "pw" Scenario.idle)) = false
  /\ exists t1 t2,
       events (executeOperation Scenario.stopped_while_creating
                 (Scenario.config_for 2) "pw" Scenario.idle) = t1 ++ t2
       /\ Forall unobserved t1
       /\ Forall observed_stop t2.
Proof.
  apply (cancellation_returns_early Scenario.stopped_while_creating
           (Scenario.config_for 2) "pw" Scenario.idle (LoopTop Create 1)).
  - reflexivity.
  - vm_compute. auto 20.
Defined.

(** C7, the claim as stated fails: stop is pressed while the first wallet
    is being created, and saving that wallet then fails before the flag is
    looked at again.  The flag is set, and yet [executeOperation] runs the
    sweep over the wallet of the earlier run and throws. *)
Lemma stop_then_failure_counterexample :
  stop_during Scenario.stopped_then_save_fails (site Create 0 CreateWallet) = true
  /\ In (Call (site Create 0 CreateWallet) true)
        (events (executeOperation Scenario.stopped_then_save_fails
                   (Scenario.config_for 1) "pw" Scenario.earlier_run))
  /\ shouldStop (final (executeOperation Scenario.stopped_then_save_fails
                          (Scenario.config_for 1) "pw" Scenario.earlier_run))
     = true
  /\ outcome (executeOperation Scenario.stopped_then_save_fails
                (Scenario.config_for 1) "pw" Scenario.earlier_run)
     = Thrown (Rejected (site Create 0 SaveWallet))
  /\ In (Call (site Cleanup 0 TransferETH) true)
        (events (executeOperation Scenario.stopped_then_save_fails
                   (Scenario.config_for 1) "pw" Scenario.earlier_run))
  /\ forall c, ~ In (Check c true)
                    (events (executeOperation Scenario.stopped_then_save_fails
                               (Scenario.config_for 1) "pw" Scenario.earlier_run)).
Proof.
  vm_compute. repeat split; auto 20.
  intros c H. repeat (destruct H as [H | H]; [discriminate H|]). exact H.
Qed.

(* ================================================================== *)
(** ** Stepping through a run *)








(* ================================================================== *)
(** ** Locating the calls made for one wallet *)

Lemma filter_none {X} (f : X -> bool) t :
  Forall (fun e => f e = false) t -> filter f t = [].
Proof.
  induction 1 as [|x t Hx _ IH]; cbn; [reflexivity|]. rewrite Hx. exact IH.
Qed.



Section Localisation.

Context {A B : Type}.
Variable p : Phase.
Variable k : nat.
Variable Q : list Event -> Prop.





End Localisation.














Section LocalisedPhases.

Variable env : Env.
Variable config : AppConfig.
Variable k : nat.






End LocalisedPhases.


(* ================================================================== *)
(** ** A funding transfer that throws *)




(* ================================================================== *)
(** ** The audit trail *)

(** C6, the code at the failing input: one wallet whose funding transfer
    throws.  The run completes, the record written before the transfer is
    still [pending] at the end (the [catch] of the funding step updates the
    wallet, not the record), whereas a token transfer that throws in the
    consolidation phase does get its record set to [failed]. *)
Theorem failed_funding_record_stays_pending :
  outcome (executeOperation Scenario.first_funding_fails
             (Scenario.config_for 1) "pw" Scenario.idle) = Ret tt
  /\ In (Call (site Fund 0 TransferETH) false)
        (events (executeOperation Scenario.first_funding_fails
                   (Scenario.config_for 1) "pw" Scenario.idle))
  /\ map (fun r => (tx_type (snd r), tx_status (snd r)))
         (transactions
            (database
               (final (executeOperation Scenario.first_funding_fails
                         (Scenario.config_for 1) "pw" Scenario.idle))))
     = [(fund_transfer, pending); (token_swap, success);
        (token_transfer, success); (eth_transfer, success)]
  /\ map (fun r => (tx_type (snd r), tx_status (snd r)))
         (transactions
            (database
               (final (executeOperation Scenario.first_token_transfer_fails
                         (Scenario.config_for 1) "pw" Scenario.idle))))
     = [(fund_transfer, success); (token_swap, success);
        (token_transfer, failed); (eth_transfer, success)].
Proof.
  vm_compute. repeat split; auto 40.
Qed.

(* ================================================================== *)
(** ** The cleanup sweep *)

Lemma calls_of_app s t1 t2 : calls_of s (t1 ++ t2) = (calls_of s t1 + calls_of s t2)%nat.
Proof. unfold calls_of. rewrite filter_app, length_app. reflexivity. Qed.

Lemma calls_of_none s t :
  Forall (not_site s) t -> calls_of s t = 0%nat.
Proof.
  intro H. unfold calls_of. rewrite filter_none; [reflexivity|].
  eapply Forall_impl; [|exact H]. intros [s' b|c b] He; [|reflexivity].
  destruct (Site_eq_dec s s'); [congruence|reflexivity].
Qed.

Lemma calls_of_head s b t : calls_of s (Call s b :: t) = S (calls_of s t).
Proof.
  unfold calls_of. cbn. destruct (Site_eq_dec s s); [reflexivity|congruence].
Qed.

Lemma calls_of_skip s s' b t : s <> s' -> calls_of s (Call s' b :: t) = calls_of s t.
Proof.
  intro H. unfold calls_of. cbn. destruct (Site_eq_dec s s'); [congruence|reflexivity].
Qed.

Ltac step_keeps :=
  cbv beta zeta;
  first
    [ apply keeps_ret | apply keeps_throw | apply keeps_log | apply keeps_guard
    | apply keeps_math_random
    | apply keeps_await | apply keeps_call | apply keeps_delay
    | apply keeps_submit | apply keeps_checkStop
    | apply keeps_request
    | apply keeps_try_catch; [| intro]
    | apply keeps_bind; [| intro]
    | match goal with
      | |- keeps _ (if ?c then _ else _) => destruct c
      | |- keeps _ (match ?x with _ => _ end) => destruct x
      end ].

Ltac keeps_tac := autounfold with orch; repeat step_keeps.

Lemma put_in {X} k (f : X -> X) store k' x :
  In (k', x) (put k f store) ->
  exists y, In (k', y) store /\ x = (if Pos.eqb k' k then f y else y).
Proof.
  unfold put. rewrite in_map_iff. intros [[k0 y] [E Hin]]. cbn [fst snd] in E.
  destruct (Pos.eqb k0 k) eqn:Ek; inversion E; subst.
  - exists y. rewrite Ek. auto.
  - exists x. rewrite Ek. auto.
Qed.

Lemma has_key_in {X} k (store : list (positive * X)) :
  has_key k store = true <-> exists x, In (k, x) store.
Proof.
  unfold has_key. rewrite existsb_exists. split.
  - intros [[k' x] [Hin E]]. cbn in E. apply Pos.eqb_eq in E. subst. eauto.
  - intros [x Hin]. exists (k, x). split; [exact Hin|]. apply Pos.eqb_refl.
Qed.

Lemma has_key_put {X} k k' (f : X -> X) store :
  has_key k (put k' f store) = has_key k store.
Proof.
  unfold has_key, put. induction store as [|[k0 x] store IH]; cbn; [reflexivity|].
  rewrite IH. destruct (Pos.eqb k0 k'); reflexivity.
Qed.

(** Writing [completed] keeps completed wallets completed. *)
Lemma all_completed_put k k' store :
  all_completed k store ->
  all_completed k (put k' (with_status completed) store).
Proof.
  intros H r Hin. apply put_in in Hin. destruct Hin as [y [Hy ->]].
  destruct (Pos.eqb k k'); [reflexivity | apply H; exact Hy].
Qed.

Lemma all_completed_put_same k store :
  all_completed k (put k (with_status completed) store).
Proof.
  intros r Hin. apply put_in in Hin. destruct Hin as [y [Hy ->]].
  rewrite Pos.eqb_refl. reflexivity.
Qed.

Section WalletStoreInvariant.

Variable env : Env.
Variable P : list (positive * WalletInfo) -> option AppConfig -> Prop.

Lemma keeps_saveTransaction s t :
  keeps (fun d => P (wallets d) (config d)) (saveTransaction env s t).
Proof.
  unfold saveTransaction. apply keeps_request.
  intros d a d' Hd E. inversion E; subst. exact Hd.
Qed.

Lemma keeps_updateTransaction s k st h e :
  keeps (fun d => P (wallets d) (config d)) (updateTransaction env s k st h e).
Proof.
  unfold updateTransaction. apply keeps_request.
  intros d a d' Hd E. unfold db_updateTransaction in E.
  destruct (has_key k (transactions d)); inversion E; subst. exact Hd.
Qed.

Lemma keeps_updateWallet s k st :
  (forall store c, P store c -> P (put k (with_status st) store) c) ->
  keeps (fun d => P (wallets d) (config d)) (updateWallet env s k st).
Proof.
  intro HP. unfold updateWallet. apply keeps_request.
  intros d a d' Hd E. unfold db_updateWallet in E.
  destruct (has_key k (wallets d)); inversion E; subst.
  cbn [wallets config]. apply HP; exact Hd.
Qed.

Lemma keeps_getWallet s k :
  keeps (fun d => P (wallets d) (config d)) (getWallet env s k).
Proof.
  unfold getWallet. apply keeps_request.
  intros d a d' Hd E. inversion E; subst. exact Hd.
Qed.

Lemma keeps_getConfig s :
  keeps (fun d => P (wallets d) (config d)) (getConfig env s).
Proof.
  unfold getConfig. apply keeps_request.
  intros d a d' Hd E. inversion E; subst. exact Hd.
Qed.

End WalletStoreInvariant.

Ltac store_keeps P :=
  repeat first
    [ apply (keeps_saveTransaction _ P) | apply (keeps_updateTransaction _ P)
    | apply (keeps_updateWallet _ P)
    | apply (keeps_getWallet _ P) | apply (keeps_getConfig _ P)
    | step_keeps ].

Section Sweep.

Variable env : Env.
Variable config : AppConfig.

Lemma emits_visit i r : emits visit_event (cleanupWallet env config i r).
Proof.
  unfold cleanupWallet. emits_tac; intro; cbn; split;
    first [reflexivity | discriminate].
Qed.

Lemma emits_visits l : forall i, emits visit_event (cleanupWallets env config i l).
Proof.
  induction l as [|r l IH]; intro i; cbn [cleanupWallets].
  - apply emits_ret.
  - apply emits_bind; [apply emits_visit | intros _; apply IH].
Qed.

Lemma returns_cleanupWallet i r : returns (cleanupWallet env config i r).
Proof.
  unfold cleanupWallet. apply returns_bind.
  - apply returns_try_catch. intro e.
    apply returns_bind; [apply returns_log | intros _; apply returns_ret].
  - intros [|]; [apply returns_ret | apply returns_delay].
Qed.

(** A ledger invariant that only depends on the wallet store and that
    writing [completed] maintains is maintained by the sweep. *)
Lemma keeps_cleanupWallet (P : list (positive * WalletInfo) -> Prop) i r :
  (forall k store, P store -> P (put k (with_status completed) store)) ->
  keeps (fun d => P (wallets d)) (cleanupWallet env config i r).
Proof.
  intro HP. unfold cleanupWallet.
  unfold loadWallet, getBalance, getTokenBalance, transferETH, transferToken.
  store_keeps (fun store (_ : option AppConfig) => P store).
  intros store _. apply HP.
Qed.

Lemma keeps_cleanupWallets (P : list (positive * WalletInfo) -> Prop) l :
  (forall k store, P store -> P (put k (with_status completed) store)) ->
  forall i, keeps (fun d => P (wallets d)) (cleanupWallets env config i l).
Proof.
  intro HP. induction l as [|r l IH]; intro i; cbn [cleanupWallets].
  - apply keeps_ret.
  - apply keeps_bind; [apply keeps_cleanupWallet; exact HP | intros _; apply IH].
Qed.

Lemma achieves_bind {A B} (J J' : Database -> Prop) (m : M A) (f : A -> M B) :
  returns m -> keeps J m -> (forall a, achieves J J' (f a)) ->
  achieves J J' (bind m f).
Proof.
  intros Hr Hk Hf w Hw. rewrite bind_run. destruct (Hr w) as [a Ha].
  rewrite Ha. cbn [outcome final fst snd]. apply Hf. apply Hk. exact Hw.
Qed.

Lemma returns_await_ok {A} s (a : A) :
  rejects env s = false -> returns (await env s a).
Proof. intros H w. rewrite await_run, H. exists a; reflexivity. Qed.

(** The visit of a wallet that is not yet completed marks it completed
    when its key loads, its balance reads and the ledger takes the update,
    whatever happens to its transfers. *)
Lemma cleanupWallet_completes i info k w :
  id info = Some k ->
  status info <> completed ->
  has_key k (wallets (database w)) = true ->
  rejects env (site Cleanup i LoadWallet) = false ->
  rejects env (site Cleanup i GetBalance) = false ->
  rejects env (site Cleanup i (UpdateWallet completed false)) = false ->
  all_completed k (wallets (database (final (cleanupWallet env config i info w)))).
Proof.
  intros Hid Hst Hkey R1 R2 R3.
  unfold cleanupWallet.
  assert (Est : WalletStatus_eqb (status info) completed = false).
  { destruct (status info); try reflexivity. contradiction Hst; reflexivity. }
  rewrite Est, Hid.
  set (P := fun (store : list (positive * WalletInfo)) (_ : option AppConfig) =>
              has_key k store = true).
  match goal with
  | |- context [try_catch ?body ?h] =>
      assert (Hb : achieves (fun d => has_key k (wallets d) = true)
                            (fun d => all_completed k (wallets d)) body)
  end.
  { apply achieves_bind;
      [apply returns_await_ok; exact R1
      |unfold loadWallet; store_keeps P|intro wallet].
    apply achieves_bind;
      [apply returns_await_ok; exact R2
      |unfold getBalance; store_keeps P|intro balance].
    apply achieves_bind;
      [apply returns_try_catch; intro; apply returns_ret
      |unfold getTokenBalance; store_keeps P|intro tokenBalance].
    cbv zeta.
    apply achieves_bind; [| |intros _].
    { repeat match goal with
             | |- returns (if ?c then _ else _) => destruct c
             end;
        first [apply returns_ret | apply returns_try_catch; intro; apply returns_log]. }
    { unfold transferToken. store_keeps P. }
    apply achieves_bind; [| |intros _].
    { repeat match goal with
             | |- returns (if ?c then _ else _) => destruct c
             end;
        first [apply returns_ret | apply returns_try_catch; intro; apply returns_log]. }
    { unfold transferETH. store_keeps P. }
    intros w1 Hw1. rewrite bind_run. unfold updateWallet.
    rewrite request_run, R3. unfold db_updateWallet. rewrite Hw1.
    cbn [option_map outcome final events fst snd ret database set_database wallets].
    split; [eauto | apply all_completed_put_same]. }
  rewrite bind_run, try_catch_run.
  destruct (Hb w Hkey) as [[a Ha] Hdone]. rewrite Ha.
  cbn [outcome final events fst snd].
  destruct a; [exact Hdone|]. rewrite delay_run. cbn [final fst snd].
  rewrite interrupted_database. exact Hdone.
Qed.

Lemma calls_of_bind_quiet_after {A B} s (m : M A) (f : A -> M B) w :
  (forall a, emits (not_site s) (f a)) ->
  calls_of s (events (bind m f w)) = calls_of s (events (m w)).
Proof.
  intro H. rewrite bind_run. destruct (outcome (m w)); cbn [events snd]; auto.
  rewrite calls_of_app, (calls_of_none s (events (f a _))); [lia | apply H].
Qed.

Lemma calls_of_try_catch_quiet_handler {A} s (m : M A) h w :
  (forall e, emits (not_site s) (h e)) ->
  calls_of s (events (try_catch m h w)) = calls_of s (events (m w)).
Proof.
  intro H. rewrite try_catch_run. destruct (outcome (m w)); cbn [events snd]; auto.
  rewrite calls_of_app, (calls_of_none s (events (h e _))); [lia | apply H].
Qed.

Lemma calls_of_first_await {A B} s (a : A) (f : A -> M B) w :
  (forall x, emits (not_site s) (f x)) ->
  calls_of s (events (bind (await env s a) f w)) = 1%nat.
Proof.
  intro H. rewrite bind_run, await_run.
  destruct (rejects env s); cbn [outcome final events fst snd app].
  - apply calls_of_head.
  - rewrite calls_of_head, (calls_of_none s); [reflexivity | apply H].
Qed.

(** The visit of wallet [i] loads its key once unless the wallet is
    already completed, and makes no call for another wallet. *)
Lemma cleanupWallet_visit_count i j info w :
  calls_of (site Cleanup j LoadWallet) (events (cleanupWallet env config i info w))
  = if ((i =? j)%nat && negb (WalletStatus_eqb (status info) completed))%bool
    then 1%nat else 0%nat.
Proof.
  destruct (Nat.eqb_spec i j) as [->|Hne]; cbn [andb].
  - unfold cleanupWallet.
    destruct (WalletStatus_eqb (status info) completed); cbn [negb];
      [reflexivity|].
    rewrite calls_of_bind_quiet_after;
      [|intros [|]; emits_tac; intro; cbn; discriminate].
    rewrite calls_of_try_catch_quiet_handler; [|intro; emits_tac].
    unfold loadWallet. apply calls_of_first_await.
    intro wallet. emits_tac; intro; cbn; discriminate.
  - apply calls_of_none. apply emits_cleanupWallet.
    intros o b. cbn. intro E. inversion E. contradiction.
Qed.

Lemma cleanupWallets_visit_count l :
  forall i w j info,
    nth_error l j = Some info ->
    calls_of (site Cleanup (i + j) LoadWallet)
             (events (cleanupWallets env config i l w))
    = if WalletStatus_eqb (status info) completed then 0%nat else 1%nat.
Proof.
  induction l as [|a l IH]; intros i w j info Hj; [destruct j; discriminate|].
  cbn [cleanupWallets]. rewrite bind_run.
  destruct (returns_cleanupWallet i a w) as [[] ->].
  cbn [events snd]. rewrite calls_of_app, cleanupWallet_visit_count.
  destruct j as [|j]; cbn [nth_error] in Hj.
  - inversion Hj; subst a. rewrite Nat.add_0_r, Nat.eqb_refl. cbn [andb].
    rewrite (calls_of_none _ (events (cleanupWallets env config (S i) l _))).
    + destruct (WalletStatus_eqb (status info) completed); reflexivity.
    + apply emits_cleanupWallets. intros j o b Hle. cbn. intro E.
      inversion E. lia.
  - replace (i =? i + S j)%nat with false by (symmetry; apply Nat.eqb_neq; lia).
    cbn [andb]. replace (i + S j)%nat with (S i + j)%nat by lia.
    rewrite (IH (S i) _ j info Hj). reflexivity.
Qed.

Lemma has_key_kept k store k' :
  has_key k store = true ->
  has_key k (put k' (with_status completed) store) = true.
Proof. intro H. rewrite has_key_put. exact H. Qed.

Lemma cleanupWallets_completes l :
  forall i w j info k,
    nth_error l j = Some info ->
    id info = Some k ->
    status info <> completed ->
    has_key k (wallets (database w)) = true ->
    rejects env (site Cleanup (i + j) LoadWallet) = false ->
    rejects env (site Cleanup (i + j) GetBalance) = false ->
    rejects env (site Cleanup (i + j) (UpdateWallet completed false)) = false ->
    all_completed k
      (wallets (database (final (cleanupWallets env config i l w)))).
Proof.
  induction l as [|a l IH]; intros i w j info k Hj Hid Hst Hkey R1 R2 R3;
    [destruct j; discriminate|].
  cbn [cleanupWallets]. rewrite bind_run.
  destruct (returns_cleanupWallet i a w) as [[] ->].
  cbn [final fst snd].
  destruct j as [|j]; cbn [nth_error] in Hj.
  - inversion Hj; subst a. rewrite Nat.add_0_r in R1, R2, R3.
    apply (keeps_cleanupWallets (all_completed k) l
             (fun k' store H => all_completed_put k k' store H) (S i)).
    apply cleanupWallet_completes; assumption.
  - replace (i + S j)%nat with (S i + j)%nat in R1, R2, R3 by lia.
    apply (IH (S i) _ j info k); auto.
    apply (keeps_cleanupWallet (fun store => has_key k store = true) i a
             (fun k' store H => has_key_kept k store k' H)).
    exact Hkey.
Qed.

(** The sweep: the ledger scan, then the visits of the wallets it
    answered. *)
Lemma attempt_cleanup_run password w :
  rejects env (site Cleanup 0 GetAllWallets) = false ->
  events (attempt_cleanup env config password w)
  = Call (site Cleanup 0 GetAllWallets) true
    :: events (cleanupWallets env config 0 (db_getAllWallets (database w))
                 (interrupted env (site Cleanup 0 GetAllWallets) w))
  /\ final (attempt_cleanup env config password w)
     = final (cleanupWallets env config 0 (db_getAllWallets (database w))
                (interrupted env (site Cleanup 0 GetAllWallets) w)).
Proof.
  intro R. unfold attempt_cleanup, cleanupAndConsolidateFunds, getAllWallets.
  rewrite try_catch_run, bind_run, request_run, R.
  cbn [outcome final events fst snd app].
  set (w1 := set_database (database w) (interrupted env _ w)).
  assert (Ew : w1 = interrupted env (site Cleanup 0 GetAllWallets) w).
  { unfold w1. rewrite <- (interrupted_database env (site Cleanup 0 GetAllWallets) w).
    destruct (interrupted env (site Cleanup 0 GetAllWallets) w); reflexivity. }
  rewrite Ew.
  assert (Em : forall l,
             match l with
             | [] => ret tt
             | _ :: _ => cleanupWallets env config 0 l
             end = cleanupWallets env config 0 l).
  { intros [|x l]; reflexivity. }
  rewrite Em.
  assert (Hr : returns (cleanupWallets env config 0 (db_getAllWallets (database w)))).
  { generalize 0%nat. induction (db_getAllWallets (database w)) as [|x l IH];
      intro n; cbn [cleanupWallets].
    - apply returns_ret.
    - apply returns_bind; [apply returns_cleanupWallet | intros _; apply IH]. }
  destruct (Hr (interrupted env (site Cleanup 0 GetAllWallets) w)) as [[] ->].
  split; reflexivity.
Qed.

Lemma attempt_cleanup_scans_once password w :
  calls_of (site Cleanup 0 GetAllWallets)
           (events (attempt_cleanup env config password w)) = 1%nat.
Proof.
  destruct (rejects env (site Cleanup 0 GetAllWallets)) eqn:R.
  - unfold attempt_cleanup, cleanupAndConsolidateFunds, getAllWallets.
    rewrite try_catch_run, bind_run, request_run, R. reflexivity.
  - destruct (attempt_cleanup_run password w R) as [-> _].
    rewrite calls_of_head, calls_of_none; [reflexivity|].
    eapply Forall_impl; [|apply emits_visits].
    intros [s b|c b]; cbn; [|contradiction].
    intros [_ H] E. subst s. apply H. reflexivity.
Qed.

End Sweep.

Lemma run_event_not_sweep s t :
  phase s = Cleanup -> Forall run_event t -> Forall (not_site s) t.
Proof.
  intros Hs H. eapply Forall_impl; [|exact H].
  intros [s' b|c b]; cbn; [|trivial]. intros [H1 _] E. subst s'. contradiction.
Qed.

(** C5 (as amended).  Whenever a failure escapes the [try] block,
    [executeOperation] throws that same failure to its caller after having
    attempted the sweep: the ledger is scanned exactly once and, if the
    scan succeeds, every wallet the ledger holds at that moment is visited
    (its key loaded) exactly once when it is not yet [completed] and not at
    all when it is.  A visited wallet ends [completed], whether or not its
    token and ETH transfers succeed, provided its key can be loaded, its
    ETH balance can be read and the ledger accepts the status update;
    otherwise the error is logged and the wallet is left as it was. *)
Theorem sweep_after_failure (env : Env) (config : AppConfig)
  (password : string) (w : World) (e : Error) :
  isRunning w = false ->
  outcome (operation env config password (started w)) = Thrown e ->
  outcome (executeOperation env config password w) = Thrown e
  /\ calls_of (site Cleanup 0 GetAllWallets)
              (events (executeOperation env config password w)) = 1%nat
  /\ (rejects env (site Cleanup 0 GetAllWallets) = false ->
      forall i k r,
        nth_error
          (wallets (database (final (operation env config password (started w)))))
          i = Some (k, r) ->
        calls_of (site Cleanup i LoadWallet)
                 (events (executeOperation env config password w))
        = (if WalletStatus_eqb (status r) completed then 0%nat else 1%nat)
        /\ (status r <> completed ->
            rejects env (site Cleanup i LoadWallet) = false ->
            rejects env (site Cleanup i GetBalance) = false ->
            rejects env (site Cleanup i (UpdateWallet completed false)) = false ->
            all_completed k
              (wallets (database (final (executeOperation env config password w)))))).
Proof.
  intros Hidle Ho.
  rewrite (executeOperation_run env config password w Hidle), Ho.
  cbn [outcome final events fst snd].
  pose proof (emits_operation env config password (started w)) as Hrun.
  set (w1 := final (operation env config password (started w))) in *.
  split; [reflexivity|]. split.
  - rewrite calls_of_app, attempt_cleanup_scans_once.
    rewrite calls_of_none; [reflexivity|].
    apply run_event_not_sweep; [reflexivity | exact Hrun].
  - intros Rscan i k r Hi.
    destruct (attempt_cleanup_run env config password (failed_in w1) Rscan)
      as [Ev Fin].
    rewrite Ev, Fin. cbn [failed_in add_log database].
    assert (Hnth : nth_error (db_getAllWallets (database w1)) i
                   = Some (with_id (k, r))).
    { unfold db_getAllWallets. apply map_nth_error. exact Hi. }
    split.
    + rewrite calls_of_app.
      rewrite (calls_of_none _ (events (operation env config password (started w))));
        [|apply run_event_not_sweep; [reflexivity | exact Hrun]].
      cbn [Nat.add]. rewrite calls_of_skip by discriminate.
      apply (cleanupWallets_visit_count env config _ 0 _ i (with_id (k, r)) Hnth).
    + intros Hst R1 R2 R3. rewrite finished_database.
      apply (cleanupWallets_completes env config _ 0 _ i (with_id (k, r)) k Hnth);
        auto.
      rewrite interrupted_database. cbn [failed_in add_log database].
      apply has_key_in. exists r. eapply nth_error_In; eauto.
Qed.

Lemma sweep_after_failure_witness :
  outcome (executeOperation Scenario.calm (Scenario.config_for 0) "pw"
                            Scenario.earlier_run)
  = Thrown (Err "Number of wallets must be between 1 and 1000")
  /\ calls_of (site Cleanup 0 GetAllWallets)
              (events (executeOperation Scenario.calm (Scenario.config_for 0) "pw"
                         Scenario.earlier_run)) = 1%nat
  /\ (rejects Scenario.calm (site Cleanup 0 GetAllWallets) = false ->
      forall i k r,
        nth_error
          (wallets (database (final (operation Scenario.calm (Scenario.config_for 0)
                                       "pw" (started Scenario.earlier_run)))))
          i = Some (k, r) ->
        calls_of (site Cleanup i LoadWallet)
                 (events (executeOperation Scenario.calm (Scenario.config_for 0) "pw"
                            Scenario.earlier_run))
        = (if WalletStatus_eqb (status r) completed then 0%nat else 1%nat)
        /\ (status r <> completed ->
            rejects Scenario.calm (site Cleanup i LoadWallet) = false ->
            rejects Scenario.calm (site Cleanup i GetBalance) = false ->
            rejects Scenario.calm (site Cleanup i (UpdateWallet completed false))
            = false ->
            all_completed k
              (wallets (database (final (executeOperation Scenario.calm
                          (Scenario.config_for 0) "pw" Scenario.earlier_run)))))).
Proof.
  apply (sweep_after_failure Scenario.calm (Scenario.config_for 0) "pw"
           Scenario.earlier_run
           (Err "Number of wallets must be between 1 and 1000")).
  - reflexivity.
  - reflexivity.
Defined.

(** C5, the claim as stated fails: the ledger refuses the first new
    wallet (a failure of phase 2), the sweep visits the funded wallet the
    ledger holds from an earlier run exactly once, but its key cannot be
    loaded: the visit is logged as an error and the wallet is left
    [funded], not [completed]. *)
Lemma sweep_completes_all_counterexample :
  outcome (executeOperation Scenario.save_fails_key_unreadable
             (Scenario.config_for 1) "pw" Scenario.earlier_run)
  = Thrown (Rejected (site Create 0 SaveWallet))
  /\ calls_of (site Cleanup 0 LoadWallet)
              (events (executeOperation Scenario.save_fails_key_unreadable
                         (Scenario.config_for 1) "pw" Scenario.earlier_run))
     = 1%nat
  /\ map (fun r => status (snd r)) (wallets (database Scenario.earlier_run))
     = [funded]
  /\ map (fun r => status (snd r))
         (wallets (database (final (executeOperation
                     Scenario.save_fails_key_unreadable
                     (Scenario.config_for 1) "pw" Scenario.earlier_run))))
     = [funded].
Proof.
  vm_compute. repeat split; reflexivity.
Qed.

(* ================================================================== *)
(** ** Consolidating a wallet that is already empty *)

Lemma with_status_completed r : status r = completed -> with_status completed r = r.
Proof. destruct r; cbn; intros ->; reflexivity. Qed.

Lemma put_completed_id k store :
  all_completed k store -> put k (with_status completed) store = store.
Proof.
  intro H. unfold put. induction store as [|[k0 r] store IH]; cbn; [reflexivity|].
  rewrite IH by (intros r' Hin; apply H; right; exact Hin).
  destruct (Pos.eqb_spec k0 k) as [->|Hne]; [|reflexivity].
  rewrite with_status_completed; [reflexivity|]. apply H. left; reflexivity.
Qed.

Lemma db_updateWallet_completed_id k d d' :
  all_completed k (wallets d) -> db_updateWallet k completed d = Some d' -> d' = d.
Proof.
  intros H E. unfold db_updateWallet in E.
  destruct (has_key k (wallets d)); inversion E; subst.
  rewrite put_completed_id by exact H. destruct d; reflexivity.
Qed.

(** The dust threshold of the token transfer: nothing is to be
    transferred from a zero balance once [minKeptTokens] has passed its
    check. *)
Lemma token_dust_threshold q kept :
  (q == 0)%Q -> JS.lt kept (Num 0) = false ->
  JS.gt (JS.sub (Num q) kept) (Num (1 # 1000000)) = false.
Proof.
  intros Hq Hk. destruct kept as [|[|]|m]; cbn in *; try reflexivity;
    try discriminate Hk.
  apply Qltb_false. apply Qltb_false in Hk. rewrite Hq.
  assert ((0 <= 1 # 1000000)%Q) by (unfold Qle; cbn; lia). lra.
Qed.

Section Inert.

Variable env : Env.
Variable d0 : Database.

Lemma inert_ret {A} (a : A) : inert d0 (ret a).
Proof. intros w H. split; [exact H | constructor]. Qed.

Lemma inert_throw {A} e : inert d0 (@throw A e).
Proof. intros w H. split; [exact H | constructor]. Qed.

Lemma inert_log l m : inert d0 (log l m).
Proof. intros w H. split; [exact H | constructor]. Qed.

Lemma inert_bind {A B} (P : A -> Prop) (m : M A) (f : A -> M B) :
  inert d0 m -> answers_with d0 P m -> (forall a, P a -> inert d0 (f a)) ->
  inert d0 (bind m f).
Proof.
  intros Hm Ha Hf w Hw. rewrite bind_run. destruct (Hm w Hw) as [Hd Hev].
  destruct (outcome (m w)) as [a|e] eqn:Ho; cbn [final events fst snd]; auto.
  destruct (Hf a (Ha w a Hw Ho) (final (m w)) Hd) as [Hd' Hev'].
  split; [exact Hd' | apply Forall_app; auto].
Qed.

Lemma inert_seq {A B} (m : M A) (f : A -> M B) :
  inert d0 m -> (forall a, inert d0 (f a)) -> inert d0 (bind m f).
Proof.
  intros Hm Hf. apply (inert_bind (fun _ => True)); auto. intros w a _ _; exact I.
Qed.

Lemma inert_try_catch {A} (m : M A) h :
  inert d0 m -> (forall e, inert d0 (h e)) -> inert d0 (try_catch m h).
Proof.
  intros Hm Hh w Hw. rewrite try_catch_run. destruct (Hm w Hw) as [Hd Hev].
  destruct (outcome (m w)) as [a|e]; cbn [final events fst snd]; auto.
  destruct (Hh e (final (m w)) Hd) as [Hd' Hev'].
  split; [exact Hd' | apply Forall_app; auto].
Qed.

Lemma inert_await {A} s (a : A) :
  (forall b, submits_nothing (Call s b)) -> inert d0 (await env s a).
Proof.
  intros Hs w Hw. rewrite await_run.
  destruct (rejects env s); cbn [final events fst snd];
    rewrite interrupted_database;
    (split; [exact Hw | repeat constructor; apply Hs]).
Qed.

Lemma inert_request {A} s (f : Database -> option (A * Database)) msg :
  (forall b, submits_nothing (Call s b)) ->
  (forall a d', f d0 = Some (a, d') -> d' = d0) ->
  inert d0 (request env s f msg).
Proof.
  intros Hs Hf w Hw. rewrite request_run.
  destruct (rejects env s); cbn [final events fst snd].
  - rewrite interrupted_database.
    split; [exact Hw | repeat constructor; apply Hs].
  - rewrite Hw. destruct (f d0) as [[a d']|] eqn:E; cbn [final events fst snd].
    + cbn [set_database database].
      split; [eapply Hf; eauto | repeat constructor; apply Hs].
    + rewrite interrupted_database.
      split; [exact Hw | repeat constructor; apply Hs].
Qed.

Lemma answers_await {A} s (a : A) : answers_with d0 (fun x => x = a) (await env s a).
Proof.
  intros w x _. rewrite await_run. destruct (rejects env s); cbn; congruence.
Qed.

Lemma answers_request {A} s (f : Database -> option (A * Database)) msg :
  answers_with d0 (fun x => exists d', f d0 = Some (x, d')) (request env s f msg).
Proof.
  intros w x Hw. rewrite request_run, Hw.
  destruct (rejects env s); [discriminate|].
  destruct (f d0) as [[a d']|]; cbn; [|discriminate].
  intro E. inversion E; subst. eauto.
Qed.

End Inert.

(** A manual transfer back from a wallet that is completed and holds no
    tokens and no ETH changes nothing in the ledger and neither records nor
    submits a transaction. *)
Lemma transferBack_of_empty_wallet env walletId password target gasLimit w :
  all_completed walletId (wallets (database w)) ->
  stored_config_checked (database w) ->
  (exists q, parseFloat (text env (site Manual 0 GetTokenBalance)) = Num q
             /\ (q == 0)%Q) ->
  wei env (site Manual 0 GetBalance) = 0%Z ->
  database (final (transferBackFromWallet env walletId password target gasLimit w))
  = database w
  /\ Forall submits_nothing
            (events (transferBackFromWallet env walletId password target gasLimit w)).
Proof.
  intros Hdone Hcfg [q [Hq Hq0]] Hwei.
  assert (Hupd : forall s,
             (forall b, submits_nothing (Call s b)) ->
             inert (database w) (updateWallet env s walletId completed)).
  { intros s Hs. unfold updateWallet. apply inert_request; [exact Hs|].
    intros a d' E. destruct (db_updateWallet walletId completed (database w))
      as [d1|] eqn:E1; cbn in E; inversion E; subst.
    eapply db_updateWallet_completed_id; eauto. }
  cut (inert (database w)
             (transferBackFromWallet env walletId password target gasLimit)).
  { intro H. exact (H w eq_refl). }
  unfold transferBackFromWallet.
  apply inert_try_catch.
  - apply (inert_bind (database w) (fun found => True));
      [unfold getWallet; apply inert_request; [intro; exact I|];
       intros a d' E; inversion E; reflexivity
      |intros ? ? _ _; exact I|intros found _].
    destruct found as [walletInfo|]; [|apply inert_throw].
    apply inert_seq; [apply inert_await; intro; exact I|intro wallet].
    apply (inert_bind (database w) (fun stored => stored = config (database w)));
      [unfold getConfig; apply inert_request; [intro; exact I|];
       intros a d' E; inversion E; reflexivity
      |unfold getConfig; intros w1 a Hw1 Ho;
       destruct (answers_request env (database w) _ _ _ w1 a Hw1 Ho) as [d' E];
       inversion E; reflexivity
      |intros stored ->].
    destruct (config (database w)) as [c|] eqn:Ec; [|apply inert_throw].
    apply (inert_bind (database w)
             (fun a => a = text env (site Manual 0 GetTokenBalance)));
      [apply inert_await; intro; exact I | apply answers_await | intros tb ->].
    cbv zeta. rewrite Hq, (token_dust_threshold q _ Hq0 (Hcfg c Ec)).
    apply inert_seq; [apply inert_ret|intros _].
    apply (inert_bind (database w)
             (fun a => a = wei env (site Manual 0 GetBalance)));
      [apply inert_await; intro; exact I | apply answers_await | intros bal ->].
    rewrite Hwei. cbn [Z.gtb Z.compare].
    apply inert_seq; [apply inert_ret|intros _].
    apply Hupd. intro; exact I.
  - intro err. apply inert_seq; [apply inert_log|intros _].
    apply inert_seq; [|intros _; apply inert_throw].
    apply inert_try_catch; [apply Hupd; intro; exact I | intro; apply inert_log].
Qed.

(** A manual transfer back keeps completed wallets completed and does not
    touch the stored configuration. *)
Lemma keeps_transferBack env walletId password target gasLimit :
  keeps (fun d => all_completed walletId (wallets d) /\ stored_config_checked d)
        (transferBackFromWallet env walletId password target gasLimit).
Proof.
  unfold transferBackFromWallet.
  unfold loadWallet, getTokenBalance, provider_getBalance, provider_getFeeData,
    transferETH, transferToken.
  store_keeps (fun store c =>
                 all_completed walletId store
                 /\ (forall c0, c = Some c0 ->
                                JS.lt (parseFloat (minKeptTokens c0)) (Num 0) = false));
    intros store c [H1 H2]; (split; [apply all_completed_put; exact H1 | exact H2]).
Qed.

(** C9.  On a wallet that is already [completed], with the stored
    configuration having passed the check of [minKeptTokens], a second call
    of [transferBackFromWallet] that finds no tokens and no ETH in the
    wallet is a no-op: the ledger is left exactly as the first call left
    it (no transaction record is created) and no transfer is submitted. *)
Theorem transfer_back_twice_is_noop (env1 env2 : Env) (walletId : positive)
  (password target : string) (gasLimit1 gasLimit2 : option Z) (w : World) :
  all_completed walletId (wallets (database w)) ->
  stored_config_checked (database w) ->
  (exists q, parseFloat (text env2 (site Manual 0 GetTokenBalance)) = Num q
             /\ (q == 0)%Q) ->
  wei env2 (site Manual 0 GetBalance) = 0%Z ->
  database
    (final (transferBackFromWallet env2 walletId password target gasLimit2
              (final (transferBackFromWallet env1 walletId password target
                        gasLimit1 w))))
  = database (final (transferBackFromWallet env1 walletId password target
                       gasLimit1 w))
  /\ Forall submits_nothing
       (events (transferBackFromWallet env2 walletId password target gasLimit2
                  (final (transferBackFromWallet env1 walletId password target
                            gasLimit1 w)))).
Proof.
  intros Hdone Hcfg Htok Hwei.
  destruct (keeps_transferBack env1 walletId password target gasLimit1 w
              (conj Hdone Hcfg)) as [Hdone1 Hcfg1].
  apply transferBack_of_empty_wallet; assumption.
Qed.

Lemma transfer_back_twice_is_noop_witness :
  database
    (final (transferBackFromWallet Scenario.drained 1 "pw" Scenario.target None
              (final (transferBackFromWallet Scenario.drained 1 "pw"
                        Scenario.target None Scenario.swept))))
  = database (final (transferBackFromWallet Scenario.drained 1 "pw"
                       Scenario.target None Scenario.swept))
  /\ Forall submits_nothing
       (events (transferBackFromWallet Scenario.drained 1 "pw" Scenario.target
                  None
                  (final (transferBackFromWallet Scenario.drained 1 "pw"
                            Scenario.target None Scenario.swept)))).
Proof.
  apply (transfer_back_twice_is_noop Scenario.drained Scenario.drained 1 "pw"
           Scenario.target None None Scenario.swept).
  - intros r [E | []]. inversion E. reflexivity.
  - intros c E. inversion E. reflexivity.
  - eexists. split; [vm_compute; reflexivity | reflexivity].
  - reflexivity.
Defined.

(* ================================================================== *)
(** ** The [Database] class *)

Lemma find_app_none {A} (f : A -> bool) l1 l2 :
  find f l1 = None -> find f (l1 ++ l2) = find f l2.
Proof.
  induction l1 as [|x l1 IH]; cbn; [reflexivity|].
  destruct (f x); [discriminate|exact IH].
Qed.

Lemma find_app_some {A} (f : A -> bool) l1 l2 x :
  find f l1 = Some x -> find f (l1 ++ l2) = Some x.
Proof.
  induction l1 as [|y l1 IH]; cbn; [discriminate|].
  destruct (f y); [auto|exact IH].
Qed.

Lemma find_key_none {A} (store : list (positive * A)) k :
  ~ In k (map fst store) ->
  find (fun e => Pos.eqb (fst e) k) store = None.
Proof.
  induction store as [|[k' a] store IH]; cbn; [reflexivity|].
  intro H. destruct (Pos.eqb_spec k' k) as [->|_].
  - exfalso. apply H. left. reflexivity.
  - apply IH. intro Hin. apply H. right. exact Hin.
Qed.

Lemma well_keyed_fresh {A} (store : list (positive * A)) next :
  Db.well_keyed store next -> ~ In next (map fst store).
Proof. intros [_ H] Hin. apply H in Hin. lia. Qed.

Lemma well_keyed_add {A} (store : list (positive * A)) next a :
  Db.well_keyed store next ->
  Db.well_keyed (store ++ [(next, a)]) (Pos.succ next).
Proof.
  intros [Hn Hb]. split.
  - rewrite map_app. cbn. apply NoDup_app.
    + exact Hn.
    + repeat constructor. intros [].
    + intros k Hk [<-|[]]. apply Hb in Hk. lia.
  - intros k. rewrite map_app, in_app_iff. cbn.
    intros [Hk|[<-|[]]]; [apply Hb in Hk|]; lia.
Qed.

Lemma map_fst_put {A} k (f : A -> A) (store : list (positive * A)) :
  map fst (put k f store) = map fst store.
Proof.
  unfold put. rewrite map_map. apply map_ext. intros [k' a]. cbn.
  destruct (Pos.eqb k' k); reflexivity.
Qed.

Lemma well_keyed_put {A} k (f : A -> A) (store : list (positive * A)) next :
  Db.well_keyed store next -> Db.well_keyed (put k f store) next.
Proof. unfold Db.well_keyed. rewrite map_fst_put. auto. Qed.

Lemma well_keyed_nil {A} next : Db.well_keyed (@nil (positive * A)) next.
Proof. split; [constructor | intros k []]. Qed.

Lemma find_put_same {A} k (f : A -> A) (store : list (positive * A)) :
  find (fun e => Pos.eqb (fst e) k) (put k f store)
  = option_map (fun e => (fst e, f (snd e)))
      (find (fun e => Pos.eqb (fst e) k) store).
Proof.
  induction store as [|[k' a] store IH]; cbn; [reflexivity|].
  destruct (Pos.eqb k' k) eqn:E; cbn; rewrite E; [reflexivity|exact IH].
Qed.

Lemma find_put_other {A} k k' (f : A -> A) (store : list (positive * A)) :
  k' <> k ->
  find (fun e => Pos.eqb (fst e) k') (put k f store)
  = find (fun e => Pos.eqb (fst e) k') store.
Proof.
  intro Hne. induction store as [|[j a] store IH]; cbn; [reflexivity|].
  destruct (Pos.eqb_spec j k) as [->|Hj]; cbn.
  - destruct (Pos.eqb_spec k k') as [E|_]; [congruence|exact IH].
  - destruct (Pos.eqb j k'); [reflexivity|exact IH].
Qed.

Lemma has_key_find {A} k (store : list (positive * A)) :
  has_key k store = true <->
  exists e, find (fun e => Pos.eqb (fst e) k) store = Some e.
Proof.
  unfold has_key. induction store as [|[j a] store IH]; cbn.
  - split; [discriminate|intros [e H]; discriminate].
  - destruct (Pos.eqb j k); cbn; [|exact IH].
    split; [eauto|reflexivity].
Qed.

Lemma has_key_find_none {A} k (store : list (positive * A)) :
  has_key k store = false <->
  find (fun e => Pos.eqb (fst e) k) store = None.
Proof.
  unfold has_key. induction store as [|[j a] store IH]; cbn.
  - split; reflexivity.
  - destruct (Pos.eqb j k); cbn; [|exact IH].
    split; discriminate.
Qed.

(** X1.  On an open connection whose wallet keys are well formed, saving a
    wallet with an address not yet stored resolves with the generator's
    key; the wallet is then found under that key with its [id] set to the
    key (whatever [id] it carried), every other key answers as before, and
    [getAllWallets] lists it last. *)
Theorem saved_wallet_is_found (w : WalletInfo) (c : Db.Connection) :
  Db.opened c = true ->
  Db.well_keyed (wallets (Db.ledger (Db.disk c)))
                (walletKey (Db.ledger (Db.disk c))) ->
  Db.address_taken (address w) (Db.ledger (Db.disk c)) = false ->
  exists c',
    Db.saveWallet w c = (inr (walletKey (Db.ledger (Db.disk c))), c')
    /\ fst (Db.getWallet (walletKey (Db.ledger (Db.disk c))) c')
       = inr (Some (mkWallet (Some (walletKey (Db.ledger (Db.disk c))))
                             (address w) (encryptedPrivateKey w) (status w)))
    /\ (forall k, k <> walletKey (Db.ledger (Db.disk c)) ->
                  fst (Db.getWallet k c') = fst (Db.getWallet k c))
    /\ fst (Db.getAllWallets c')
       = inr (db_getAllWallets (Db.ledger (Db.disk c))
              ++ [mkWallet (Some (walletKey (Db.ledger (Db.disk c))))
                           (address w) (encryptedPrivateKey w) (status w)]).
Proof.
  intros Ho Hk Ha. destruct c as [o [d m]]. cbn in *. subst o.
  eexists. unfold Db.saveWallet, Db.connected. cbn. rewrite Ha. cbn.
  split; [reflexivity|].
  unfold Db.getWallet, Db.getAllWallets, Db.connected, Db.resolve. cbn.
  unfold db_getWallet, db_getAllWallets. cbn.
  pose proof (find_key_none _ _ (well_keyed_fresh _ _ Hk)) as Hnone.
  split; [|split].
  - rewrite (find_app_none _ _ _ Hnone). cbn. rewrite Pos.eqb_refl. reflexivity.
  - intros k Hne. f_equal. f_equal.
    destruct (find (fun e => Pos.eqb (fst e) k) (wallets d)) as [e|] eqn:E.
    + rewrite (find_app_some _ _ _ _ E). reflexivity.
    + rewrite (find_app_none _ _ _ E). cbn.
      destruct (Pos.eqb_spec (walletKey d) k); [congruence|reflexivity].
  - rewrite map_app. reflexivity.
Qed.

Lemma saved_wallet_is_found_witness :
  exists c',
    Db.saveWallet (mkWallet (Some 7%positive) "0xabc" "sealed" created)
                  (Db.init Db.fresh)
    = (inr (walletKey (Db.ledger (Db.disk (Db.init Db.fresh)))), c')
    /\ fst (Db.getWallet (walletKey (Db.ledger (Db.disk (Db.init Db.fresh)))) c')
       = inr (Some (mkWallet
                      (Some (walletKey (Db.ledger (Db.disk (Db.init Db.fresh)))))
                      (address (mkWallet (Some 7%positive) "0xabc" "sealed" created))
                      (encryptedPrivateKey
                         (mkWallet (Some 7%positive) "0xabc" "sealed" created))
                      (status (mkWallet (Some 7%positive) "0xabc" "sealed" created))))
    /\ (forall k, k <> walletKey (Db.ledger (Db.disk (Db.init Db.fresh))) ->
                  fst (Db.getWallet k c') = fst (Db.getWallet k (Db.init Db.fresh)))
    /\ fst (Db.getAllWallets c')
       = inr (db_getAllWallets (Db.ledger (Db.disk (Db.init Db.fresh)))
              ++ [mkWallet
                    (Some (walletKey (Db.ledger (Db.disk (Db.init Db.fresh)))))
                    (address (mkWallet (Some 7%positive) "0xabc" "sealed" created))
                    (encryptedPrivateKey
                       (mkWallet (Some 7%positive) "0xabc" "sealed" created))
                    (status (mkWallet (Some 7%positive) "0xabc" "sealed" created))]).
Proof.
  apply (saved_wallet_is_found
           (mkWallet (Some 7%positive) "0xabc" "sealed" created)
           (Db.init Db.fresh)).
  - reflexivity.
  - apply well_keyed_nil.
  - reflexivity.
Defined.

(** X2.  On an open connection [updateWallet(id, { status })] resolves
    exactly when the wallet is there.  It then changes the status of that
    wallet and nothing else: its address and key material, every other
    wallet, the transactions, the configuration and the metadata are as
    before.  For an unknown [id] it rejects with 'Wallet not found' and
    leaves everything as it was. *)
Theorem update_wallet_touches_one_status (k : positive) (st : WalletStatus)
  (c : Db.Connection) :
  Db.opened c = true ->
  match fst (Db.getWallet k c) with
  | inr (Some r) =>
      exists c',
        Db.updateWallet k st c = (inr tt, c')
        /\ fst (Db.getWallet k c') = inr (Some (with_status st r))
        /\ (forall k', k' <> k ->
                       fst (Db.getWallet k' c') = fst (Db.getWallet k' c))
        /\ transactions (Db.ledger (Db.disk c'))
           = transactions (Db.ledger (Db.disk c))
        /\ config (Db.ledger (Db.disk c')) = config (Db.ledger (Db.disk c))
        /\ Db.metadata (Db.disk c') = Db.metadata (Db.disk c)
        /\ walletKey (Db.ledger (Db.disk c')) = walletKey (Db.ledger (Db.disk c))
  | _ => Db.updateWallet k st c = (inl "Wallet not found", c)
  end.
Proof.
  intro Ho. destruct c as [o [d m]]. cbn in Ho. subst o.
  unfold Db.getWallet, Db.updateWallet, Db.connected, Db.resolve, Db.reject.
  cbn. unfold db_getWallet, db_updateWallet.
  destruct (find (fun e => Pos.eqb (fst e) k) (wallets d)) as [e|] eqn:E; cbn.
  - assert (Hk : has_key k (wallets d) = true)
      by (apply has_key_find; eauto).
    rewrite Hk. eexists. split; [reflexivity|]. cbn.
    split; [|split; [|repeat split]].
    + rewrite find_put_same, E. reflexivity.
    + intros k' Hne. rewrite (find_put_other k k' _ _ Hne). reflexivity.
  - apply has_key_find_none in E. rewrite E. reflexivity.
Qed.

Lemma update_wallet_touches_one_status_witness :
  match fst (Db.getWallet 1 (snd (Db.saveWallet
               (mkWallet None "0xabc" "sealed" created) (Db.init Db.fresh)))) with
  | inr (Some r) =>
      exists c',
        Db.updateWallet 1 funded
          (snd (Db.saveWallet (mkWallet None "0xabc" "sealed" created)
                              (Db.init Db.fresh)))
        = (inr tt, c')
        /\ fst (Db.getWallet 1 c') = inr (Some (with_status funded r))
        /\ (forall k', k' <> 1%positive ->
              fst (Db.getWallet k' c')
              = fst (Db.getWallet k' (snd (Db.saveWallet
                       (mkWallet None "0xabc" "sealed" created)
                       (Db.init Db.fresh)))))
        /\ transactions (Db.ledger (Db.disk c'))
           = transactions (Db.ledger (Db.disk (snd (Db.saveWallet
                       (mkWallet None "0xabc" "sealed" created)
                       (Db.init Db.fresh)))))
        /\ config (Db.ledger (Db.disk c'))
           = config (Db.ledger (Db.disk (snd (Db.saveWallet
                       (mkWallet None "0xabc" "sealed" created)
                       (Db.init Db.fresh)))))
        /\ Db.metadata (Db.disk c')
           = Db.metadata (Db.disk (snd (Db.saveWallet
                       (mkWallet None "0xabc" "sealed" created)
                       (Db.init Db.fresh))))
        /\ walletKey (Db.ledger (Db.disk c'))
           = walletKey (Db.ledger (Db.disk (snd (Db.saveWallet
                       (mkWallet None "0xabc" "sealed" created)
                       (Db.init Db.fresh)))))
  | _ => Db.updateWallet 1 funded
           (snd (Db.saveWallet (mkWallet None "0xabc" "sealed" created)
                               (Db.init Db.fresh)))
         = (inl "Wallet not found",
            snd (Db.saveWallet (mkWallet None "0xabc" "sealed" created)
                               (Db.init Db.fresh)))
  end.
Proof.
  apply (update_wallet_touches_one_status 1 funded
           (snd (Db.saveWallet (mkWallet None "0xabc" "sealed" created)
                               (Db.init Db.fresh)))).
  reflexivity.
Defined.

(** The stores of a connection satisfy the schema: keys are unique and
    below their generators, and no two wallets share an address. *)
Lemma NoDup_map_put_status k st (store : list (positive * WalletInfo)) :
  map (fun e => address (snd e)) (put k (with_status st) store)
  = map (fun e => address (snd e)) store.
Proof.
  unfold put. rewrite map_map. apply map_ext. intros [j r]. cbn.
  destruct (Pos.eqb j k); reflexivity.
Qed.

Lemma address_taken_false a d :
  Db.address_taken a d = false ->
  ~ In a (map (fun e => address (snd e)) (wallets d)).
Proof.
  unfold Db.address_taken. intros H Hin. apply in_map_iff in Hin.
  destruct Hin as [e [<- He]].
  assert (existsb (fun e0 => String.eqb (address (snd e0)) (address (snd e)))
                  (wallets d) = true).
  { apply existsb_exists. exists e. split; [exact He|apply String.eqb_refl]. }
  congruence.
Qed.

Lemma schema_kept (r : Db.Request) (c : Db.Connection) :
  let d := Db.ledger (Db.disk c) in
  let d' := Db.ledger (Db.disk (Db.perform r c)) in
  (Db.well_keyed (wallets d) (walletKey d)
   /\ Db.well_keyed (transactions d) (transactionKey d)
   /\ NoDup (map (fun e => address (snd e)) (wallets d))) ->
  (Db.well_keyed (wallets d') (walletKey d')
   /\ Db.well_keyed (transactions d') (transactionKey d')
   /\ NoDup (map (fun e => address (snd e)) (wallets d')))
  /\ (walletKey d <= walletKey d')%positive
  /\ (transactionKey d <= transactionKey d')%positive.
Proof.
  destruct c as [o [d m]]. cbn. intros [Hw [Ht Ha]].
  assert (Hsame : (Db.well_keyed (wallets d) (walletKey d)
                   /\ Db.well_keyed (transactions d) (transactionKey d)
                   /\ NoDup (map (fun e => address (snd e)) (wallets d)))
                  /\ (walletKey d <= walletKey d)%positive
                  /\ (transactionKey d <= transactionKey d)%positive)
    by (split; [exact (conj Hw (conj Ht Ha))|split; lia]).
  destruct r as [ | | w | k st | t | k st hash err | cfg | key value | ];
    unfold Db.perform, Db.init, Db.close, Db.saveWallet, Db.updateWallet,
      Db.saveTransaction, Db.updateTransaction, Db.saveConfig,
      Db.saveMetadata, Db.clearAll, Db.connected, Db.resolve, Db.reject;
    cbn; try exact Hsame; (destruct o; cbn; [|exact Hsame]).
  - destruct (Db.address_taken (address w) d) eqn:E; cbn; [exact Hsame|].
    split; [split; [apply well_keyed_add; exact Hw|split; [exact Ht|]]|split; lia].
    rewrite map_app. cbn. apply NoDup_app; [exact Ha|repeat constructor; intros []|].
    intros a Hin [<-|[]]. eapply address_taken_false; eauto.
  - unfold db_updateWallet. destruct (has_key k (wallets d)); cbn;
      [|exact Hsame].
    split; [split; [apply well_keyed_put; exact Hw|split; [exact Ht|]]|split; lia].
    rewrite NoDup_map_put_status. exact Ha.
  - split; [split; [exact Hw|split; [apply well_keyed_add; exact Ht|exact Ha]]|].
    split; lia.
  - unfold db_updateTransaction. destruct (has_key k (transactions d)); cbn;
      [|exact Hsame].
    split; [split; [exact Hw|split; [apply well_keyed_put; exact Ht|exact Ha]]|].
    split; lia.
  - exact Hsame.
  - exact Hsame.
  - split; [split; [apply well_keyed_nil|split; [apply well_keyed_nil|constructor]]|].
    split; lia.
Qed.

Lemma schema_kept_all (rs : list Db.Request) :
  forall c,
    let d := Db.ledger (Db.disk c) in
    let d' := Db.ledger (Db.disk (Db.perform_all rs c)) in
    (Db.well_keyed (wallets d) (walletKey d)
     /\ Db.well_keyed (transactions d) (transactionKey d)
     /\ NoDup (map (fun e => address (snd e)) (wallets d))) ->
    (Db.well_keyed (wallets d') (walletKey d')
     /\ Db.well_keyed (transactions d') (transactionKey d')
     /\ NoDup (map (fun e => address (snd e)) (wallets d')))
    /\ (walletKey d <= walletKey d')%positive
    /\ (transactionKey d <= transactionKey d')%positive.
Proof.
  induction rs as [|r rs IH]; intros c; cbn.
  - intro H. split; [exact H|split; lia].
  - intro H. destruct (schema_kept r c H) as [H1 [H2 H3]].
    destruct (IH (Db.perform r c) H1) as [H4 [H5 H6]].
    split; [exact H4|]. unfold Db.perform_all in *. split; lia.
Qed.

(** X3.  Whatever sequence of requests a database has served since it was
    created, its wallets have pairwise distinct ids and pairwise distinct
    addresses, its transactions have pairwise distinct ids, and every id in
    use is below the next id the store will hand out. *)
Theorem stored_ids_are_unique (rs : list Db.Request) :
  NoDup (map fst (wallets (Db.ledger (Db.disk (Db.perform_all rs Db.fresh)))))
  /\ NoDup (map (fun e => address (snd e))
                (wallets (Db.ledger (Db.disk (Db.perform_all rs Db.fresh)))))
  /\ NoDup (map fst (transactions
                       (Db.ledger (Db.disk (Db.perform_all rs Db.fresh)))))
  /\ (forall k,
        In k (map fst (wallets (Db.ledger (Db.disk (Db.perform_all rs Db.fresh)))))
        -> (k < walletKey (Db.ledger (Db.disk (Db.perform_all rs Db.fresh))))%positive)
  /\ (forall k,
        In k (map fst (transactions
                         (Db.ledger (Db.disk (Db.perform_all rs Db.fresh)))))
        -> (k < transactionKey
                  (Db.ledger (Db.disk (Db.perform_all rs Db.fresh))))%positive).
Proof.
  destruct (schema_kept_all rs Db.fresh) as [[[H1 H2] [[H3 H4] H5]] _].
  - cbn. split; [apply well_keyed_nil|split; [apply well_keyed_nil|constructor]].
  - auto.
Qed.

(** X4.  An id is never handed out twice: if [saveWallet] resolved with
    [k1] and, after any further requests (clearing the database, closing
    and reopening it included), a later [saveWallet] resolves with [k2],
    then [k1 < k2]. *)
Theorem wallet_ids_never_reused (w1 w2 : WalletInfo) (rs : list Db.Request)
  (c c1 c2 : Db.Connection) (k1 k2 : positive) :
  Db.saveWallet w1 c = (inr k1, c1) ->
  Db.saveWallet w2 (Db.perform_all rs c1) = (inr k2, c2) ->
  (k1 < k2)%positive.
Proof.
  intros H1 H2.
  assert (E1 : k1 = walletKey (Db.ledger (Db.disk c))
               /\ walletKey (Db.ledger (Db.disk c1)) = Pos.succ k1).
  { revert H1. unfold Db.saveWallet, Db.connected, Db.resolve, Db.reject.
    destruct (Db.opened c); [|discriminate].
    destruct (Db.address_taken _ _); [discriminate|].
    cbn. intro H. inversion H; subst. cbn. auto. }
  assert (E2 : k2 = walletKey (Db.ledger (Db.disk (Db.perform_all rs c1)))).
  { revert H2. unfold Db.saveWallet, Db.connected, Db.resolve, Db.reject.
    destruct (Db.opened _); [|discriminate].
    destruct (Db.address_taken _ _); [discriminate|].
    cbn. intro H. inversion H; subst. reflexivity. }
  assert (Hmono : forall rs c,
             (walletKey (Db.ledger (Db.disk c))
              <= walletKey (Db.ledger (Db.disk (Db.perform_all rs c))))%positive).
  { clear. induction rs as [|r rs IH]; intro c; cbn; [lia|].
    specialize (IH (Db.perform r c)). unfold Db.perform_all in IH.
    enough (walletKey (Db.ledger (Db.disk c))
            <= walletKey (Db.ledger (Db.disk (Db.perform r c))))%positive by lia.
    destruct c as [o [d m]].
    destruct r; cbn;
      unfold Db.saveWallet, Db.updateWallet, Db.saveTransaction,
        Db.updateTransaction, Db.saveConfig, Db.saveMetadata, Db.clearAll,
        Db.connected, Db.resolve, Db.reject;
      cbn; try lia; destruct o; cbn; try lia.
    - destruct (Db.address_taken _ _); cbn; lia.
    - unfold db_updateWallet. destruct (has_key _ _); cbn; lia.
    - unfold db_updateTransaction. destruct (has_key _ _); cbn; lia. }
  destruct E1 as [_ E1]. specialize (Hmono rs c1). lia.
Qed.

Lemma wallet_ids_never_reused_witness : (1 < 2)%positive.
Proof.
  apply (wallet_ids_never_reused
           (mkWallet None "0xabc" "sealed" created)
           (mkWallet None "0xdef" "sealed" created)
           [Db.ClearAll; Db.Close; Db.Init]
           (Db.init Db.fresh)
           (snd (Db.saveWallet (mkWallet None "0xabc" "sealed" created)
                               (Db.init Db.fresh)))
           (snd (Db.saveWallet (mkWallet None "0xdef" "sealed" created)
                   (Db.perform_all [Db.ClearAll; Db.Close; Db.Init]
                      (snd (Db.saveWallet (mkWallet None "0xabc" "sealed" created)
                                          (Db.init Db.fresh))))))
           1 2).
  - reflexivity.
  - reflexivity.
Defined.

(* ================================================================== *)
(** ** The watchdog *)

Lemma checks_when_stuck listening ticks :
  forall d,
    Watchdog.isStuck d = true ->
    Watchdog.isStuck (fst (Watchdog.checks listening ticks d)) = true
    /\ Watchdog.lastActivityTime (fst (Watchdog.checks listening ticks d))
       = Watchdog.lastActivityTime d
    /\ filter Watchdog.is_stuck_warning
              (snd (Watchdog.checks listening ticks d)) = []
    /\ length (filter Watchdog.is_critical
                      (snd (Watchdog.checks listening ticks d)))
       = length (filter (fun t => (t - Watchdog.lastActivityTime d
                                   >? Watchdog.watchdogTimeout * 2)%Z) ticks).
Proof.
  induction ticks as [|t ticks IH]; intros d Hs; cbn.
  - auto.
  - unfold Watchdog.checkWatchdog. rewrite Hs. cbn [negb].
    destruct (IH d Hs) as [H1 [H2 [H3 H4]]].
    unfold Watchdog.watchdogTimeout in *.
    change (60000 * 2)%Z with 120000%Z in *.
    destruct (t - Watchdog.lastActivityTime d >? 60000)%Z eqn:E1;
      destruct (t - Watchdog.lastActivityTime d >? 120000)%Z eqn:E2;
      try lia;
      destruct (Watchdog.checks listening ticks d) as [d2 n2];
      cbn in *; repeat split; auto.
Qed.

(** X5.  Between two activity updates the watchdog raises its alert at
    most once, however many checks follow: the 'appears stuck' warning is
    logged by the first check that comes more than 60 s after the last
    activity and by no other, and none is logged if no check comes that
    late or if the alert had been raised already. *)
Theorem watchdog_alerts_once (listening : bool) (ticks : list Z)
  (d : Watchdog.State) :
  length (filter Watchdog.is_stuck_warning
                 (snd (Watchdog.checks listening ticks d)))
  = if Watchdog.isStuck d then 0%nat
    else if existsb (fun t => (t - Watchdog.lastActivityTime d
                               >? Watchdog.watchdogTimeout)%Z) ticks
         then 1%nat else 0%nat.
Proof.
  destruct (Watchdog.isStuck d) eqn:Hs.
  - destruct (checks_when_stuck listening ticks d Hs) as [_ [_ [H _]]].
    rewrite H. reflexivity.
  - revert d Hs. induction ticks as [|t ticks IH]; intros d Hs; cbn.
    + reflexivity.
    + unfold Watchdog.checkWatchdog. rewrite Hs. cbn [negb].
      destruct (t - Watchdog.lastActivityTime d >? Watchdog.watchdogTimeout)%Z
        eqn:E1; cbn [orb].
      * set (d1 := Watchdog.mkState (Watchdog.lastActivityTime d)
                     (Watchdog.currentOperation d) true).
        destruct (checks_when_stuck listening ticks d1 eq_refl) as [_ [_ [H _]]].
        destruct (Watchdog.checks listening ticks d1) as [d2 n2]. cbn in *.
        rewrite filter_app, H.
        destruct listening; reflexivity.
      * specialize (IH d Hs).
        destruct (Watchdog.checks listening ticks d) as [d2 n2]. cbn in *.
        exact IH.
Qed.

Lemma checks_paced_first_alert listening ticks :
  forall d from,
    Watchdog.isStuck d = false ->
    (from - Watchdog.lastActivityTime d <= Watchdog.watchdogTimeout)%Z ->
    Watchdog.paced 10000 from ticks ->
    forall op secs,
      In (Watchdog.StuckWarning op secs)
         (snd (Watchdog.checks listening ticks d)) ->
      (60 <= secs <= 70)%Z.
Proof.
  induction ticks as [|t ticks IH]; intros d from Hs Hfrom Hp op secs; cbn;
    [intros []|].
  destruct Hp as [Ht Hp].
  unfold Watchdog.checkWatchdog. rewrite Hs. cbn [negb].
  destruct (t - Watchdog.lastActivityTime d >? Watchdog.watchdogTimeout)%Z eqn:E1.
  - set (d1 := Watchdog.mkState (Watchdog.lastActivityTime d)
                 (Watchdog.currentOperation d) true).
    destruct (checks_when_stuck listening ticks d1 eq_refl) as [_ [_ [H _]]].
    destruct (Watchdog.checks listening ticks d1) as [d2 n2]. cbn in *.
    intros [Hin|Hin].
    + inversion Hin; subst. unfold Watchdog.watchdogTimeout in *.
      split.
      * apply Z.div_le_lower_bound; lia.
      * apply Z.div_le_upper_bound; lia.
    + destruct Hin as [Hin|Hin]; [discriminate|].
      apply in_app_or in Hin. destruct Hin as [Hin|Hin].
      * destruct listening; cbn in Hin; [destruct Hin as [Hin|[]]; discriminate|].
        destruct Hin.
      * exfalso.
        assert (In (Watchdog.StuckWarning op secs)
                   (filter Watchdog.is_stuck_warning n2))
          by (apply filter_In; split; [exact Hin|reflexivity]).
        rewrite H in H0. exact H0.
  - specialize (IH d t Hs).
    destruct (Watchdog.checks listening ticks d) as [d2 n2]. cbn in *.
    intro Hin. eapply IH; eauto. lia.
Qed.

(** X6.  With the interval timer checking every 10 s (each check at most
    10 s after the one before, the first at most 10 s after the last
    activity), the 'appears stuck' warning is raised between 60 s and 70 s
    after the last activity: the number of seconds it reports is at least
    60 and at most 70. *)
Theorem watchdog_alert_latency (listening : bool) (ticks : list Z)
  (d : Watchdog.State) (op : string) (secs : Z) :
  Watchdog.isStuck d = false ->
  Watchdog.paced 10000 (Watchdog.lastActivityTime d) ticks ->
  In (Watchdog.StuckWarning op secs) (snd (Watchdog.checks listening ticks d)) ->
  (60 <= secs <= 70)%Z.
Proof.
  intros Hs Hp Hin.
  apply (checks_paced_first_alert listening ticks d
           (Watchdog.lastActivityTime d) Hs) with (op := op); auto.
  unfold Watchdog.watchdogTimeout. lia.
Qed.

Lemma watchdog_alert_latency_witness : (60 <= 65 <= 70)%Z.
Proof.
  apply (watchdog_alert_latency true
           [5000; 15000; 25000; 35000; 45000; 55000; 65000; 75000]%Z
           (Watchdog.start 0) "Starting" 65).
  - reflexivity.
  - cbn. lia.
  - cbn. auto.
Defined.

(* ================================================================== *)
(** ** [DexService] *)

Lemma tryFee_fold (o : Dex.Oracle) (tiers : list Z) :
  forall seen best,
    ((forall t q, In t seen -> Dex.quote o t = Some q -> (q <= fst best)%Z)
     /\ (0 <= fst best)%Z
     /\ ((0 < fst best)%Z ->
         In (snd best) seen /\ Dex.quote o (snd best) = Some (fst best))) ->
    let best' := fold_left (Dex.tryFee o) tiers best in
    (forall t q, In t (seen ++ tiers) -> Dex.quote o t = Some q ->
                 (q <= fst best')%Z)
    /\ (0 <= fst best')%Z
    /\ ((0 < fst best')%Z ->
        In (snd best') (seen ++ tiers)
        /\ Dex.quote o (snd best') = Some (fst best')).
Proof.
  induction tiers as [|tier tiers IH]; intros seen best [Hmax [Hnn Hpos]]; cbn.
  - rewrite app_nil_r. auto.
  - specialize (IH (seen ++ [tier]) (Dex.tryFee o best tier)).
    rewrite <- app_assoc in IH. cbn in IH. apply IH. clear IH.
    unfold Dex.tryFee.
    destruct (Dex.quote o tier) as [a|] eqn:Ea.
    + destruct (a >? fst best)%Z eqn:Eg; cbn [fst snd].
      * split; [|split].
        -- intros t q Hin Hq. apply in_app_or in Hin.
           destruct Hin as [Hin|[<-|[]]].
           ++ specialize (Hmax t q Hin Hq). lia.
           ++ assert (q = a) by congruence. lia.
        -- lia.
        -- intros _. split; [apply in_or_app; right; left; reflexivity|exact Ea].
      * split; [|split].
        -- intros t q Hin Hq. apply in_app_or in Hin.
           destruct Hin as [Hin|[<-|[]]].
           ++ exact (Hmax t q Hin Hq).
           ++ assert (q = a) by congruence. lia.
        -- exact Hnn.
        -- intro Hp. destruct (Hpos Hp) as [H1 H2].
           split; [apply in_or_app; left; exact H1|exact H2].
    + split; [|split].
      * intros t q Hin Hq. apply in_app_or in Hin.
        destruct Hin as [Hin|[<-|[]]]; [exact (Hmax t q Hin Hq)|congruence].
      * exact Hnn.
      * intro Hp. destruct (Hpos Hp) as [H1 H2].
        split; [apply in_or_app; left; exact H1|exact H2].
Qed.

Lemma bestOf_spec (o : Dex.Oracle) :
  let best := Dex.bestOf o in
  (forall t q, In t Dex.feeTiers -> Dex.quote o t = Some q -> (q <= fst best)%Z)
  /\ (0 <= fst best)%Z
  /\ ((0 < fst best)%Z ->
      In (snd best) Dex.feeTiers /\ Dex.quote o (snd best) = Some (fst best)).
Proof.
  apply (tryFee_fold o Dex.feeTiers [] (0, 3000)%Z).
  cbn. split; [intros t q []|split; [lia|intro H; exfalso; lia]].
Qed.

(** X7.  A transaction [swapUniswapV3] submits goes through the fee tier
    with the largest quote among the tiers 0.3 %, 0.05 % and 1 % that
    answered, that quote is positive, the minimum output is the quote
    reduced by the slippage, and the value sent is the parsed ETH amount.
    When no tier answers a positive quote nothing is submitted. *)
Theorem v3_swaps_at_best_quote (o : Dex.Oracle) (wallet tokenAddress : string)
  (slippage : Q) (chainConfig : option Dex.ChainConfig)
  (dexConfig : Dex.DexConfig) (tx : Dex.SwapTx)
  (r : Dex.Failure + Dex.SwapResult) :
  Dex.swapUniswapV3 o wallet tokenAddress slippage chainConfig dexConfig
  = (Some tx, r) ->
  (exists tier q,
     Dex.fee tx = Some tier
     /\ In tier Dex.feeTiers
     /\ Dex.quote o tier = Some q
     /\ (0 < q)%Z
     /\ (forall t q', In t Dex.feeTiers -> Dex.quote o t = Some q' -> (q' <= q)%Z)
     /\ Dex.amountOutMinimum tx = Dex.minimumOutput q slippage
     /\ Dex.parseEther o = Some (Dex.amountIn tx)
     /\ Dex.value tx = Dex.amountIn tx)
  /\ ((forall t, In t Dex.feeTiers ->
                 match Dex.quote o t with Some q => (q <= 0)%Z | None => True end)
      -> False).
Proof.
  unfold Dex.swapUniswapV3, Dex.fails.
  destruct chainConfig as [cc|]; [|discriminate].
  destruct (Dex.routers dexConfig (Dex.chainId cc)) as [ra|]; [|discriminate].
  destruct (Dex.quoters dexConfig (Dex.chainId cc)) as [qa|]; [|discriminate].
  destruct (Dex.parseEther o) as [amt|]; [|discriminate].
  pose proof (bestOf_spec o) as Hb. cbv zeta in Hb.
  destruct (Dex.bestOf o) as [bq bf]. cbn [fst snd] in Hb.
  destruct (bq =? 0)%Z eqn:Ez; [discriminate|].
  destruct (Dex.decimals o); [|discriminate].
  destruct (Dex.feeOptions o Dex.gwei_0_01) as [mf pf].
  unfold Dex.execute.
  destruct Hb as [Hmax [Hnn Hpos]].
  assert (Hq : (0 < bq)%Z) by lia.
  destruct (Hpos Hq) as [Hin Hquote].
  intro H.
  assert (Htx : tx = Dex.mkSwapTx ra (Some bf) (Dex.wethAddress cc) tokenAddress
                       amt (Dex.minimumOutput bq slippage) amt mf pf
                       (Dex.gasLimitOf o 300000)).
  { destruct (Dex.mined o _) as [[rc|]|];
      [destruct (Dex.receiptStatus rc =? 1)%Z|..];
      inversion H; reflexivity. }
  subst tx. cbn. split.
  - exists bf, bq. repeat split; auto.
  - intro Hall. specialize (Hall bf Hin). rewrite Hquote in Hall. lia.
Qed.

Lemma v3_swaps_at_best_quote_witness :
  (exists tier q,
     Dex.fee (Dex.mkSwapTx "0x2626664c2603336E57B271c5C0b26F421741e481"
                (Some 500%Z) "0x4200000000000000000000000000000000000006"
                "0xtoken" 1000 1990 1000 Dex.gwei_0_02 Dex.gwei_0_001 300000)
     = Some tier
     /\ In tier Dex.feeTiers
     /\ Dex.quote (Dex.mkOracle (Some 1000%Z)
                     (fun t => if (t =? 500)%Z then Some 2000%Z
                               else if (t =? 3000)%Z then Some 1500%Z else None)
                     None (Some 18%Z) (Some (None, None)) None
                     (fun _ => Some (Some (Dex.mkReceipt 1 "0xhash")))) tier
        = Some q
     /\ (0 < q)%Z
     /\ (forall t q', In t Dex.feeTiers ->
           Dex.quote (Dex.mkOracle (Some 1000%Z)
                        (fun t => if (t =? 500)%Z then Some 2000%Z
                                  else if (t =? 3000)%Z then Some 1500%Z else None)
                        None (Some 18%Z) (Some (None, None)) None
                        (fun _ => Some (Some (Dex.mkReceipt 1 "0xhash")))) t
           = Some q' -> (q' <= q)%Z)
     /\ Dex.amountOutMinimum
          (Dex.mkSwapTx "0x2626664c2603336E57B271c5C0b26F421741e481"
             (Some 500%Z) "0x4200000000000000000000000000000000000006"
             "0xtoken" 1000 1990 1000 Dex.gwei_0_02 Dex.gwei_0_001 300000)
        = Dex.minimumOutput q (1 # 2)
     /\ Dex.parseEther (Dex.mkOracle (Some 1000%Z)
                          (fun t => if (t =? 500)%Z then Some 2000%Z
                                    else if (t =? 3000)%Z then Some 1500%Z else None)
                          None (Some 18%Z) (Some (None, None)) None
                          (fun _ => Some (Some (Dex.mkReceipt 1 "0xhash"))))
        = Some (Dex.amountIn
                  (Dex.mkSwapTx "0x2626664c2603336E57B271c5C0b26F421741e481"
                     (Some 500%Z) "0x4200000000000000000000000000000000000006"
                     "0xtoken" 1000 1990 1000 Dex.gwei_0_02 Dex.gwei_0_001 300000))
     /\ Dex.value
          (Dex.mkSwapTx "0x2626664c2603336E57B271c5C0b26F421741e481"
             (Some 500%Z) "0x4200000000000000000000000000000000000006"
             "0xtoken" 1000 1990 1000 Dex.gwei_0_02 Dex.gwei_0_001 300000)
        = Dex.amountIn
            (Dex.mkSwapTx "0x2626664c2603336E57B271c5C0b26F421741e481"
               (Some 500%Z) "0x4200000000000000000000000000000000000006"
               "0xtoken" 1000 1990 1000 Dex.gwei_0_02 Dex.gwei_0_001 300000))
  /\ ((forall t, In t Dex.feeTiers ->
         match Dex.quote (Dex.mkOracle (Some 1000%Z)
                            (fun t => if (t =? 500)%Z then Some 2000%Z
                                      else if (t =? 3000)%Z then Some 1500%Z
                                           else None)
                            None (Some 18%Z) (Some (None, None)) None
                            (fun _ => Some (Some (Dex.mkReceipt 1 "0xhash")))) t
         with Some q => (q <= 0)%Z | None => True end)
      -> False).
Proof.
  apply (v3_swaps_at_best_quote
           (Dex.mkOracle (Some 1000%Z)
              (fun t => if (t =? 500)%Z then Some 2000%Z
                        else if (t =? 3000)%Z then Some 1500%Z else None)
              None (Some 18%Z) (Some (None, None)) None
              (fun _ => Some (Some (Dex.mkReceipt 1 "0xhash"))))
           "0xwallet" "0xtoken" (1 # 2)
           (Dex.CHAINS "base")
           (Dex.mkDex "Uniswap V3"
              (fun _ => Some "0x2626664c2603336E57B271c5C0b26F421741e481")
              (fun _ => Some "0x3d4e44Eb1374240CE5F1B871ab261CD16335B76a"))
           (Dex.mkSwapTx "0x2626664c2603336E57B271c5C0b26F421741e481"
              (Some 500%Z) "0x4200000000000000000000000000000000000006"
              "0xtoken" 1000 1990 1000 Dex.gwei_0_02 Dex.gwei_0_001 300000)
           (inr (Dex.mkResult "0xhash" 2000))).
  vm_compute. reflexivity.
Defined.

Lemma feeOptions_bounds (o : Dex.Oracle) (fallback : Z) :
  (Dex.gwei_0_01 <= fallback <= Dex.gwei_0_1)%Z ->
  (Dex.gwei_0_01 <= fst (Dex.feeOptions o fallback) <= Dex.gwei_0_1)%Z
  /\ (snd (Dex.feeOptions o fallback) < Dex.gwei_0_1)%Z
  /\ (Dex.feeData o <> None ->
      (Dex.gwei_0_02 <= fst (Dex.feeOptions o fallback))%Z).
Proof.
  unfold Dex.feeOptions, Dex.or_else, Dex.gwei_0_01, Dex.gwei_0_02,
    Dex.gwei_0_1, Dex.gwei_0_001.
  intro Hf. destruct (Dex.feeData o) as [[mf pf]|]; cbn [fst snd].
  - split; [|split].
    + destruct mf as [x|]; [destruct (x =? 0)%Z|];
        repeat match goal with
               | |- context [(?a <? ?b)%Z] => destruct (Z.ltb_spec a b)
               | |- context [(?a >? ?b)%Z] =>
                   let E := fresh in destruct (a >? b)%Z eqn:E
               end; lia.
    + destruct pf as [x|]; [destruct (x =? 0)%Z|];
        repeat match goal with
               | |- context [(?a <? ?b)%Z] => destruct (Z.ltb_spec a b)
               end; lia.
    + intros _. destruct mf as [x|]; [destruct (x =? 0)%Z|];
        repeat match goal with
               | |- context [(?a <? ?b)%Z] => destruct (Z.ltb_spec a b)
               | |- context [(?a >? ?b)%Z] =>
                   let E := fresh in destruct (a >? b)%Z eqn:E
               end; lia.
  - split; [lia|split; [lia|congruence]].
Qed.

(** X8.  Whatever the chain answers, a transaction submitted by
    [swapETHToToken] (on either DEX) offers at most 0.1 gwei per gas and at
    least 0.01 gwei (at least 0.02 gwei when the fee data could be read),
    a priority fee below 0.1 gwei, sends exactly the ETH amount it swaps,
    and is addressed to the router configured for the chain. *)
Theorem swap_fees_are_capped (chain dex : string) (o : Dex.Oracle)
  (wallet tokenAddress : string) (slippage : Q) (tx : Dex.SwapTx)
  (r : Dex.Failure + Dex.SwapResult) :
  Dex.swapETHToToken chain dex o wallet tokenAddress slippage = (Some tx, r) ->
  (Dex.gwei_0_01 <= Dex.maxFeePerGas tx <= Dex.gwei_0_1)%Z
  /\ (Dex.feeData o <> None -> (Dex.gwei_0_02 <= Dex.maxFeePerGas tx)%Z)
  /\ (Dex.maxPriorityFeePerGas tx < Dex.gwei_0_1)%Z
  /\ Dex.value tx = Dex.amountIn tx
  /\ Dex.parseEther o = Some (Dex.amountIn tx)
  /\ (exists chainConfig dexConfig,
        Dex.CHAINS chain = Some chainConfig
        /\ Dex.DEXES dex = Some dexConfig
        /\ Dex.routers dexConfig (Dex.chainId chainConfig) = Some (Dex.router tx)).
Proof.
  unfold Dex.swapETHToToken, Dex.fails.
  destruct (dex =? "uniswap-v3")%string eqn:E3;
    [|destruct (dex =? "uniswap-v2")%string eqn:E2; [|discriminate]].
  - destruct (Dex.DEXES dex) as [dc|] eqn:Ed; [|discriminate].
    unfold Dex.swapUniswapV3, Dex.fails.
    destruct (Dex.CHAINS chain) as [cc|]; [|discriminate].
    destruct (Dex.routers dc (Dex.chainId cc)) as [ra|] eqn:Er; [|discriminate].
    destruct (Dex.quoters dc (Dex.chainId cc)) as [qa|]; [|discriminate].
    destruct (Dex.parseEther o) as [amt|]; [|discriminate].
    destruct (Dex.bestOf o) as [bq bf].
    destruct (bq =? 0)%Z; [discriminate|].
    destruct (Dex.decimals o); [|discriminate].
    pose proof (feeOptions_bounds o Dex.gwei_0_01) as Hfee.
    destruct (Dex.feeOptions o Dex.gwei_0_01) as [mf pf]. cbn [fst snd] in Hfee.
    unfold Dex.execute. intro H.
    assert (Htx : tx = Dex.mkSwapTx ra (Some bf) (Dex.wethAddress cc) tokenAddress
                         amt (Dex.minimumOutput bq slippage) amt mf pf
                         (Dex.gasLimitOf o 300000)).
    { destruct (Dex.mined o _) as [[rc|]|];
        [destruct (Dex.receiptStatus rc =? 1)%Z|..];
        inversion H; reflexivity. }
    subst tx. cbn.
    destruct Hfee as [H1 [H2 H3]]; [unfold Dex.gwei_0_01, Dex.gwei_0_1; lia|].
    repeat split; auto; try lia. exists cc, dc. auto.
  - destruct (Dex.DEXES dex) as [dc|] eqn:Ed; [|discriminate].
    unfold Dex.swapUniswapV2, Dex.fails.
    destruct (Dex.CHAINS chain) as [cc|]; [|discriminate].
    destruct (Dex.routers dc (Dex.chainId cc)) as [ra|] eqn:Er; [|discriminate].
    destruct (Dex.parseEther o) as [amt|]; [|discriminate].
    destruct (Dex.amountsOut o) as [out|]; [|discriminate].
    destruct (Dex.decimals o); [|discriminate].
    pose proof (feeOptions_bounds o Dex.gwei_0_02) as Hfee.
    destruct (Dex.feeOptions o Dex.gwei_0_02) as [mf pf]. cbn [fst snd] in Hfee.
    unfold Dex.execute. intro H.
    assert (Htx : tx = Dex.mkSwapTx ra None (Dex.wethAddress cc) tokenAddress
                         amt (Dex.minimumOutput out slippage) amt mf pf
                         (Dex.gasLimitOf o 250000)).
    { destruct (Dex.mined o _) as [[rc|]|];
        [destruct (Dex.receiptStatus rc =? 1)%Z|..];
        inversion H; reflexivity. }
    subst tx. cbn.
    destruct Hfee as [H1 [H2 H3]];
      [unfold Dex.gwei_0_01, Dex.gwei_0_02, Dex.gwei_0_1; lia|].
    repeat split; auto; try lia. exists cc, dc. auto.
Qed.

Lemma swap_fees_are_capped_witness :
  (Dex.gwei_0_01
   <= Dex.maxFeePerGas
        (Dex.mkSwapTx "0x4752ba5dbc23f44d87826276bf6fd6b1c372ad24" None
           "0x4200000000000000000000000000000000000006" "0xtoken"
           1000 1990 1000 Dex.gwei_0_1 Dex.gwei_0_001 120000)
   <= Dex.gwei_0_1)%Z
  /\ (Dex.feeData (Dex.mkOracle (Some 1000%Z) (fun _ => None) (Some 2000%Z)
                     (Some 18%Z) (Some (Some 5000000000%Z, Some 200000000%Z))
                     (Some 100000%Z) (fun _ => None)) <> None ->
      (Dex.gwei_0_02
       <= Dex.maxFeePerGas
            (Dex.mkSwapTx "0x4752ba5dbc23f44d87826276bf6fd6b1c372ad24" None
               "0x4200000000000000000000000000000000000006" "0xtoken"
               1000 1990 1000 Dex.gwei_0_1 Dex.gwei_0_001 120000))%Z)
  /\ (Dex.maxPriorityFeePerGas
        (Dex.mkSwapTx "0x4752ba5dbc23f44d87826276bf6fd6b1c372ad24" None
           "0x4200000000000000000000000000000000000006" "0xtoken"
           1000 1990 1000 Dex.gwei_0_1 Dex.gwei_0_001 120000)
      < Dex.gwei_0_1)%Z
  /\ Dex.value
       (Dex.mkSwapTx "0x4752ba5dbc23f44d87826276bf6fd6b1c372ad24" None
          "0x4200000000000000000000000000000000000006" "0xtoken"
          1000 1990 1000 Dex.gwei_0_1 Dex.gwei_0_001 120000)
     = Dex.amountIn
         (Dex.mkSwapTx "0x4752ba5dbc23f44d87826276bf6fd6b1c372ad24" None
            "0x4200000000000000000000000000000000000006" "0xtoken"
            1000 1990 1000 Dex.gwei_0_1 Dex.gwei_0_001 120000)
  /\ Dex.parseEther (Dex.mkOracle (Some 1000%Z) (fun _ => None) (Some 2000%Z)
                       (Some 18%Z) (Some (Some 5000000000%Z, Some 200000000%Z))
                       (Some 100000%Z) (fun _ => None))
     = Some (Dex.amountIn
               (Dex.mkSwapTx "0x4752ba5dbc23f44d87826276bf6fd6b1c372ad24" None
                  "0x4200000000000000000000000000000000000006" "0xtoken"
                  1000 1990 1000 Dex.gwei_0_1 Dex.gwei_0_001 120000))
  /\ (exists chainConfig dexConfig,
        Dex.CHAINS "base" = Some chainConfig
        /\ Dex.DEXES "uniswap-v2" = Some dexConfig
        /\ Dex.routers dexConfig (Dex.chainId chainConfig)
           = Some (Dex.router
                     (Dex.mkSwapTx "0x4752ba5dbc23f44d87826276bf6fd6b1c372ad24"
                        None "0x4200000000000000000000000000000000000006"
                        "0xtoken" 1000 1990 1000 Dex.gwei_0_1 Dex.gwei_0_001
                        120000))).
Proof.
  apply (swap_fees_are_capped "base" "uniswap-v2"
           (Dex.mkOracle (Some 1000%Z) (fun _ => None) (Some 2000%Z)
              (Some 18%Z) (Some (Some 5000000000%Z, Some 200000000%Z))
              (Some 100000%Z) (fun _ => None))
           "0xwallet" "0xtoken" (1 # 2)
           (Dex.mkSwapTx "0x4752ba5dbc23f44d87826276bf6fd6b1c372ad24" None
              "0x4200000000000000000000000000000000000006" "0xtoken"
              1000 1990 1000 Dex.gwei_0_1 Dex.gwei_0_001 120000)
           (inl Dex.CallFailed)).
  vm_compute. reflexivity.
Defined.






(* ================================================================== *)
(** ** What a run leaves in the ledger *)

Section Frame.

Variable env : Env.
Variable good : positive -> Prop.
Variable J : Database -> Prop.

(** [J] is maintained by the writes the orchestrator makes, the status
    updates being those of wallets with a [good] key; the keys
    [saveWallet] hands out are [good]. *)
Hypothesis saveWallet_keeps :
  forall d w, J d -> J (snd (db_saveWallet w d)) /\ good (fst (db_saveWallet w d)).
Hypothesis updateWallet_keeps :
  forall d k st d', good k -> J d -> db_updateWallet k st d = Some d' -> J d'.
Hypothesis saveTransaction_keeps :
  forall d t, J d -> J (snd (db_saveTransaction t d)).
Hypothesis updateTransaction_keeps :
  forall d k st hash err d',
    J d -> db_updateTransaction k st hash err d = Some d' -> J d'.

(** Side conditions of [keeps_request] for the ledger's requests. *)
Ltac frame_request :=
  match goal with
  | |- forall d a d', J d -> _ = Some (a, d') -> J d' =>
      let d := fresh "d" in
      let a := fresh "a" in
      let d' := fresh "d'" in
      let Hd := fresh "Hd" in
      let E := fresh "E" in
      intros d a d' Hd E;
      first
        [ inversion E; subst; exact Hd
        | inversion E; subst; apply saveWallet_keeps; exact Hd
        | inversion E; subst; apply saveTransaction_keeps; exact Hd
        | match type of E with
          | option_map _ (db_updateWallet ?k ?st ?d0) = _ =>
              destruct (db_updateWallet k st d0) as [dd|] eqn:Eu;
              [inversion E; subst; eapply updateWallet_keeps; eauto
              |discriminate E]
          | option_map _ (db_updateTransaction ?k ?st ?h ?e ?d0) = _ =>
              destruct (db_updateTransaction k st h e d0) as [dd|] eqn:Eu;
              [inversion E; subst; eapply updateTransaction_keeps; eauto
              |discriminate E]
          end ]
  end.

Ltac frame_keeps :=
  autounfold with orch; repeat first [ step_keeps | frame_request ].

(** The entries [createWallets] answers carry [good] keys. *)
Lemma createWallets_good todo :
  forall i allocations ws w,
    J (database w) -> Forall (fun e => good (dbId e)) ws ->
    J (database (final (createWallets env todo i allocations ws w)))
    /\ (forall ws',
          outcome (createWallets env todo i allocations ws w) = Ret ws' ->
          Forall (fun e => good (dbId e)) ws').
Proof.
  induction todo as [|todo IH]; intros i allocations ws w Hw Hws;
    cbn [createWallets].
  - split; [exact Hw|]. intros ws' E. inversion E; subst. exact Hws.
  - rewrite bind_run. cbn [checkStop outcome final events fst snd].
    destruct (shouldStop w).
    + cbn. split; [exact Hw|]. intros ws' E. inversion E; subst. exact Hws.
    + rewrite bind_run. unfold createWallet. rewrite await_run.
      destruct (rejects env (site Create i CreateWallet));
        cbn [outcome final events fst snd].
      { rewrite interrupted_database. split; [exact Hw|discriminate]. }
      rewrite bind_run. unfold saveWallet. rewrite request_run.
      rewrite !interrupted_database.
      destruct (rejects env (site Create i SaveWallet));
        cbn [outcome final events fst snd].
      { rewrite !interrupted_database. split; [exact Hw|discriminate]. }
      destruct (saveWallet_keeps (database w)
                  (mkWallet None (text env (site Create i CreateWallet))
                            (ciphertext env (site Create i CreateWallet)) created)
                  Hw) as [HJ1 Hg1].
      unfold db_saveWallet in *. cbn [fst snd] in HJ1, Hg1.
      cbv beta iota zeta. cbn [outcome final events fst snd].
      rewrite bind_run, delay_run. cbn [outcome final events fst snd].
      apply IH.
      * rewrite interrupted_database. cbn. exact HJ1.
      * apply Forall_app. split; [exact Hws|]. repeat constructor. exact Hg1.
Qed.

Lemma keeps_for_each_wallet p body :
  forall ws,
    (forall i e, In e ws -> keeps J (body i e)) ->
    forall i, keeps J (for_each_wallet p body i ws).
Proof.
  induction ws as [|e rest IH]; intros Hb i; cbn [for_each_wallet].
  - apply keeps_ret.
  - frame_keeps; [apply Hb; left; reflexivity|].
    apply IH. intros j e' He'. apply Hb. right. exact He'.
Qed.

Lemma keeps_fundWallet master gas i e :
  good (dbId e) -> keeps J (fundWallet env master gas i e).
Proof. intro Hg. unfold fundWallet, transferETH. frame_keeps. Qed.

Lemma keeps_swapWallet config i e :
  good (dbId e) -> keeps J (swapWallet env config i e).
Proof. intro Hg. unfold swapWallet. frame_keeps. Qed.

Lemma keeps_consolidateWallet config i e :
  good (dbId e) -> keeps J (consolidateWallet env config i e).
Proof. intro Hg. unfold consolidateWallet. frame_keeps. Qed.

Lemma keeps_unless_stopped p rest :
  keeps J rest -> keeps J (unless_stopped p rest).
Proof.
  intro H. unfold unless_stopped.
  apply keeps_bind; [apply keeps_checkStop|intros [|]]; [|exact H].
  intros w Hw. exact Hw.
Qed.

Lemma keeps_distribute todo :
  forall i mn mx l rem, keeps J (distribute env todo i mn mx l rem).
Proof.
  induction todo as [|todo IH]; intros; cbn [distribute].
  - apply keeps_ret.
  - frame_keeps; apply IH.
Qed.

Lemma keeps_generateRandomAllocations n total mn mx :
  keeps J (generateRandomAllocations env n total mn mx).
Proof.
  unfold generateRandomAllocations.
  apply keeps_bind; [apply keeps_guard|intros _].
  apply keeps_bind; [frame_keeps|intros _].
  cbv zeta. apply keeps_bind; [apply keeps_distribute|intros [l rem]].
  apply keeps_ret.
Qed.

(** What follows [m] may rely on what [m] answers. *)
Lemma keeps_bind_answer {A B} (R : A -> Prop) (m : M A) (f : A -> M B) :
  (forall w, J (database w) ->
             J (database (final (m w)))
             /\ (forall a, outcome (m w) = Ret a -> R a)) ->
  (forall a, R a -> keeps J (f a)) ->
  keeps J (bind m f).
Proof.
  intros Hm Hf w Hw. rewrite bind_run. destruct (Hm w Hw) as [H1 H2].
  destruct (outcome (m w)) as [a|e]; cbn [final fst snd]; [|exact H1].
  apply (Hf a (H2 a eq_refl)). exact H1.
Qed.

Lemma keeps_steps config master gas ws :
  Forall (fun e => good (dbId e)) ws ->
  keeps J (unless_stopped Create (step4 env config master gas ws)).
Proof.
  intro Hws. rewrite Forall_forall in Hws.
  apply keeps_unless_stopped. unfold step4, fundWallets.
  apply keeps_bind;
    [apply keeps_for_each_wallet; intros; apply keeps_fundWallet; auto|intros _].
  apply keeps_unless_stopped. unfold step5, swapWallets.
  apply keeps_bind;
    [apply keeps_for_each_wallet; intros; apply keeps_swapWallet; auto|intros _].
  apply keeps_unless_stopped. unfold step6, consolidateWallets.
  apply keeps_for_each_wallet; intros; apply keeps_consolidateWallet; auto.
Qed.

Lemma keeps_operation config password : keeps J (operation env config password).
Proof.
  unfold operation.
  apply keeps_bind; [unfold validateConfig; frame_keeps|intros _].
  apply keeps_bind; [frame_keeps|intro master].
  apply keeps_bind; [frame_keeps|intro balance].
  cbv zeta.
  apply keeps_bind; [apply keeps_generateRandomAllocations|intro allocations].
  apply keeps_bind; [apply keeps_guard|intros _].
  unfold step3.
  apply (keeps_bind_answer (Forall (fun e => good (dbId e)))).
  - intros w Hw. apply createWallets_good; [exact Hw|constructor].
  - intros ws Hws. apply keeps_steps. exact Hws.
Qed.

Hypothesis every_key : forall k, good k.

Lemma keeps_cleanupWallet_any config i r : keeps J (cleanupWallet env config i r).
Proof. unfold cleanupWallet. frame_keeps. Qed.

Lemma keeps_cleanupWallets_any config l :
  forall i, keeps J (cleanupWallets env config i l).
Proof.
  induction l as [|r l IH]; intro i; cbn [cleanupWallets].
  - apply keeps_ret.
  - apply keeps_bind; [apply keeps_cleanupWallet_any|intros _; apply IH].
Qed.

Lemma keeps_attempt_cleanup config password :
  keeps J (attempt_cleanup env config password).
Proof.
  unfold attempt_cleanup, cleanupAndConsolidateFunds.
  apply keeps_try_catch; [|intro; apply keeps_log].
  apply keeps_bind; [frame_keeps|intros [|r l]].
  - apply keeps_ret.
  - apply keeps_cleanupWallets_any.
Qed.

Lemma keeps_executeOperation config password :
  keeps J (executeOperation env config password).
Proof.
  intros w Hw. destruct (isRunning w) eqn:Hr.
  - rewrite (executeOperation_busy env config password w Hr). exact Hw.
  - rewrite (executeOperation_run env config password w Hr).
    pose proof (keeps_operation config password (started w) Hw) as Ho.
    destruct (outcome (operation env config password (started w)));
      cbn [final fst snd]; rewrite finished_database; [exact Ho|].
    apply keeps_attempt_cleanup. exact Ho.
Qed.

Lemma keeps_transferBackFromWallet walletId password target gasLimit :
  keeps J (transferBackFromWallet env walletId password target gasLimit).
Proof. unfold transferBackFromWallet. frame_keeps. Qed.

End Frame.

Lemma grows_refl d : grows d d.
Proof.
  repeat split; try lia.
  - intros k r H. exists r. auto.
  - intros k t H. exists t. repeat split; auto.
Qed.

Lemma grows_trans d1 d2 d3 : grows d1 d2 -> grows d2 d3 -> grows d1 d3.
Proof.
  intros [W1 [T1 [C1 [K1 L1]]]] [W2 [T2 [C2 [K2 L2]]]].
  split; [|split; [|split; [congruence|split; lia]]].
  - intros k r H. destruct (W1 k r H) as [r1 [H1 [A1 B1]]].
    destruct (W2 k r1 H1) as [r2 [H2 [A2 B2]]].
    exists r2. repeat split; congruence.
  - intros k t H. destruct (T1 k t H) as [t1 [H1 [A1 [B1 [D1 [E1 F1]]]]]].
    destruct (T2 k t1 H1) as [t2 [H2 [A2 [B2 [D2 [E2 F2]]]]]].
    exists t2. repeat split; congruence.
Qed.

Lemma in_put {X} k (f : X -> X) store k' x :
  In (k', x) store ->
  In (k', x) (put k f store) \/ In (k', f x) (put k f store).
Proof.
  unfold put. intro H.
  destruct (Pos.eqb k' k) eqn:E.
  - right. apply in_map_iff. exists (k', x). cbn. rewrite E. auto.
  - left. apply in_map_iff. exists (k', x). cbn. rewrite E. auto.
Qed.

Lemma grows_saveWallet d0 d w :
  grows d0 d -> grows d0 (snd (db_saveWallet w d)) /\ True.
Proof.
  intro H. split; [|exact I].
  apply (grows_trans _ _ _ H). unfold db_saveWallet. cbn.
  repeat split; cbn; try lia.
  - intros k r Hin. exists r. split; [apply in_or_app; auto|auto].
  - intros k t Hin. exists t. repeat split; auto.
Qed.

Lemma grows_updateWallet d0 d k st d' :
  True -> grows d0 d -> db_updateWallet k st d = Some d' -> grows d0 d'.
Proof.
  intros _ H E. apply (grows_trans _ _ _ H).
  unfold db_updateWallet in E. destruct (has_key k (wallets d)); [|discriminate].
  inversion E; subst. repeat split; cbn; try lia.
  - intros k' r Hin. destruct (in_put k (with_status st) _ _ _ Hin) as [Hp|Hp].
    + exists r. auto.
    + exists (with_status st r). auto.
  - intros k' t Hin. exists t. repeat split; auto.
Qed.

Lemma grows_saveTransaction d0 d t :
  grows d0 d -> grows d0 (snd (db_saveTransaction t d)).
Proof.
  intro H. apply (grows_trans _ _ _ H). unfold db_saveTransaction. cbn.
  repeat split; cbn; try lia.
  - intros k r Hin. exists r. auto.
  - intros k t' Hin. exists t'. split; [apply in_or_app; auto|repeat split; auto].
Qed.

Lemma grows_updateTransaction d0 d k st hash err d' :
  grows d0 d -> db_updateTransaction k st hash err d = Some d' -> grows d0 d'.
Proof.
  intros H E. apply (grows_trans _ _ _ H).
  unfold db_updateTransaction in E.
  destruct (has_key k (transactions d)); [|discriminate].
  inversion E; subst. repeat split; cbn; try lia.
  - intros k' r Hin. exists r. auto.
  - intros k' t Hin.
    destruct (in_put k (tx_update st hash err) _ _ _ Hin) as [Hp|Hp].
    + exists t. repeat split; auto.
    + exists (tx_update st hash err t). repeat split; auto.
Qed.

(** X11.  Neither [executeOperation] nor [transferBackFromWallet] (nor the
    cleanup sweep inside the former) ever loses a wallet or a transaction
    record or gives it another identity: whatever happens during the call,
    every wallet of the ledger is still there under its id with the same
    address and encrypted key, every transaction record is still there
    with the same type, parties, amount and token, the stored
    configuration is untouched and ids keep growing.  Only statuses,
    hashes and error messages are ever rewritten. *)
Theorem ledger_only_grows (env : Env) (config : AppConfig) (password : string)
  (walletId : positive) (target : string) (gasLimit : option Z) (w : World) :
  grows (database w) (database (final (executeOperation env config password w)))
  /\ grows (database w)
           (database (final (transferBackFromWallet env walletId password
                               target gasLimit w))).
Proof.
  split.
  - apply (keeps_executeOperation env (fun _ => True) (grows (database w))
             (grows_saveWallet (database w)) (grows_updateWallet (database w))
             (grows_saveTransaction (database w))
             (grows_updateTransaction (database w))
             (fun _ => I) config password w).
    apply grows_refl.
  - apply (keeps_transferBackFromWallet env (fun _ => True) (grows (database w))
             (grows_updateWallet (database w))
             (grows_saveTransaction (database w))
             (grows_updateTransaction (database w))
             (fun _ => I) walletId password target gasLimit w).
    apply grows_refl.
Qed.

Lemma put_elsewhere {X} k (f : X -> X) (store : list (positive * X)) :
  (forall e, In e store -> fst e <> k) -> put k f store = store.
Proof.
  intro H. unfold put. rewrite <- (map_id store) at 2. apply map_ext_in.
  intros e He. destruct (Pos.eqb_spec (fst e) k) as [E|_]; [|reflexivity].
  exfalso. exact (H e He E).
Qed.

Lemma put_app {X} k (f : X -> X) (s1 s2 : list (positive * X)) :
  put k f (s1 ++ s2) = put k f s1 ++ put k f s2.
Proof. unfold put. apply map_app. Qed.

Lemma put_keys_bound {X} k (f : X -> X) (store : list (positive * X)) k0 :
  (forall e, In e store -> (k0 <= fst e)%positive) ->
  forall e, In e (put k f store) -> (k0 <= fst e)%positive.
Proof.
  intros H e He. unfold put in He. apply in_map_iff in He.
  destruct He as [e0 [<- He0]]. specialize (H e0 He0).
  destruct (Pos.eqb (fst e0) k); exact H.
Qed.

Section OwnWallets.

Variable old : list (positive * WalletInfo).
Variable k0 : positive.
Hypothesis old_below : forall e, In e old -> (fst e < k0)%positive.

Lemma appended_saveWallet d w :
  appended old k0 d ->
  appended old k0 (snd (db_saveWallet w d))
  /\ (k0 <= fst (db_saveWallet w d))%positive.
Proof.
  intros [[new [E Hn]] Hk]. unfold db_saveWallet. cbn [fst snd].
  split; [|exact Hk]. split; cbn; [|lia].
  exists (new ++ [(walletKey d, w)]). rewrite E, app_assoc. split; [reflexivity|].
  intros e He. apply in_app_or in He. destruct He as [He|[<-|[]]]; [auto|exact Hk].
Qed.

Lemma appended_updateWallet d k st d' :
  (k0 <= k)%positive -> appended old k0 d ->
  db_updateWallet k st d = Some d' -> appended old k0 d'.
Proof.
  intros Hg [[new [E Hn]] Hk] Eu. unfold db_updateWallet in Eu.
  destruct (has_key k (wallets d)); [|discriminate]. inversion Eu; subst.
  split; cbn; [|exact Hk].
  exists (put k (with_status st) new). rewrite E, put_app. split.
  - f_equal. apply put_elsewhere. intros e He. specialize (old_below e He). lia.
  - apply put_keys_bound. exact Hn.
Qed.

Lemma appended_saveTransaction d t :
  appended old k0 d -> appended old k0 (snd (db_saveTransaction t d)).
Proof. intro H. exact H. Qed.

Lemma appended_updateTransaction d k st hash err d' :
  appended old k0 d -> db_updateTransaction k st hash err d = Some d' ->
  appended old k0 d'.
Proof.
  intros H Eu. unfold db_updateTransaction in Eu.
  destruct (has_key k (transactions d)); [|discriminate]. inversion Eu; subst.
  exact H.
Qed.

End OwnWallets.

(** X13.  A run of [executeOperation] that does not throw (it completes,
    or it is cancelled) leaves the wallets of earlier runs exactly as they
    were, status included, and only appends wallets of its own: on a
    ledger whose wallet ids are below the next id, the wallet store after
    the run is the store before it followed by new wallets with new ids. *)
Theorem successful_run_touches_own_wallets (env : Env) (config : AppConfig)
  (password : string) (w : World) :
  isRunning w = false ->
  (forall e, In e (wallets (database w)) ->
             (fst e < walletKey (database w))%positive) ->
  outcome (executeOperation env config password w) = Ret tt ->
  exists new,
    wallets (database (final (executeOperation env config password w)))
    = wallets (database w) ++ new
    /\ forall e, In e new -> (walletKey (database w) <= fst e)%positive.
Proof.
  intros Hr Hold.
  rewrite (executeOperation_run env config password w Hr).
  pose proof (keeps_operation env _ _
                (appended_saveWallet (wallets (database w)) (walletKey (database w)))
                (appended_updateWallet (wallets (database w))
                                       (walletKey (database w)) Hold)
                (appended_saveTransaction (wallets (database w))
                                          (walletKey (database w)))
                (appended_updateTransaction (wallets (database w))
                                            (walletKey (database w)))
                config password (started w)) as Ho.
  destruct (outcome (operation env config password (started w))) as [[]|e];
    cbn [outcome final fst snd]; [|discriminate].
  intros _. rewrite finished_database. apply Ho.
  split; [|cbn; lia]. exists []. cbn. rewrite app_nil_r.
  split; [reflexivity|intros e []].
Qed.

Lemma successful_run_touches_own_wallets_witness :
  exists new,
    wallets (database (final (executeOperation Scenario.calm
                                (Scenario.config_for 1) "pw" Scenario.earlier_run)))
    = wallets (database Scenario.earlier_run) ++ new
    /\ forall e, In e new ->
                 (walletKey (database Scenario.earlier_run) <= fst e)%positive.
Proof.
  apply (successful_run_touches_own_wallets Scenario.calm (Scenario.config_for 1)
           "pw" Scenario.earlier_run).
  - reflexivity.
  - intros e [<-|[]]. reflexivity.
  - vm_compute. reflexivity.
Defined.

(* ================================================================== *)
(** ** Runs in which nobody asks to stop *)

Lemma quiet_ret {A} (a : A) : quiet (ret a).
Proof. intros w H. split; [constructor|exact H]. Qed.

Lemma quiet_throw {A} e : quiet (@throw A e).
Proof. intros w H. split; [constructor|exact H]. Qed.

Lemma quiet_log l m : quiet (log l m).
Proof. intros w H. split; [constructor|exact H]. Qed.

Lemma quiet_guard c m : quiet (guard c m).
Proof. unfold guard. destruct c; [apply quiet_throw|apply quiet_ret]. Qed.

Lemma quiet_emit_call s b : quiet (emit (Call s b)).
Proof.
  intros w H. split; [repeat constructor; apply unobserved_call|exact H].
Qed.

Lemma quiet_checkStop c : quiet (checkStop c).
Proof.
  intros w H. unfold checkStop. cbn. rewrite H.
  split; [repeat constructor; apply unobserved_check|reflexivity].
Qed.

Lemma quiet_bind {A B} (m : M A) (f : A -> M B) :
  quiet m -> (forall a, quiet (f a)) -> quiet (bind m f).
Proof.
  intros Hm Hf w Hw. rewrite bind_run. destruct (Hm w Hw) as [E1 S1].
  destruct (outcome (m w)) as [a|e]; cbn [events final fst snd]; [|auto].
  destruct (Hf a _ S1) as [E2 S2]. split; [apply Forall_app; auto|exact S2].
Qed.

Lemma quiet_try_catch {A} (m : M A) (h : Error -> M A) :
  quiet m -> (forall e, quiet (h e)) -> quiet (try_catch m h).
Proof.
  intros Hm Hh w Hw. rewrite try_catch_run. destruct (Hm w Hw) as [E1 S1].
  destruct (outcome (m w)) as [a|e]; cbn [events final fst snd]; [auto|].
  destruct (Hh e _ S1) as [E2 S2]. split; [apply Forall_app; auto|exact S2].
Qed.

Section Calm.

Variable env : Env.
Hypothesis calm : forall s, stop_during env s = false.

Lemma interrupted_calm s w : interrupted env s w = w.
Proof. unfold interrupted, while_pending. rewrite calm. reflexivity. Qed.

Lemma quiet_await {A} s (a : A) : quiet (await env s a).
Proof.
  intros w H. rewrite await_run, interrupted_calm.
  destruct (rejects env s); cbn;
    (split; [repeat constructor; apply unobserved_call|exact H]).
Qed.

Lemma quiet_call {A} s (a : A) : quiet (call env s a).
Proof.
  intros w H. rewrite call_run.
  destruct (rejects env s); cbn;
    (split; [repeat constructor; apply unobserved_call|exact H]).
Qed.

Lemma quiet_delay s : quiet (delay env s).
Proof.
  intros w H. rewrite delay_run, interrupted_calm. cbn.
  split; [repeat constructor; apply unobserved_call|exact H].
Qed.

Lemma quiet_request {A} s (f : Database -> option (A * Database)) msg :
  quiet (request env s f msg).
Proof.
  intros w H. rewrite request_run, interrupted_calm.
  destruct (rejects env s); [|destruct (f (database w)) as [[a d]|]]; cbn;
    (split; [repeat constructor; apply unobserved_call|exact H]).
Qed.

Lemma quiet_submit s a : quiet (submit env s a).
Proof.
  intros w H. rewrite submit_run, interrupted_calm.
  destruct (finite a); [destruct (rejects env s)|]; cbn;
    (split; [repeat constructor; apply unobserved_call|exact H]).
Qed.

Lemma quiet_math_random : quiet (math_random env).
Proof. intros w H. split; [constructor|exact H]. Qed.

Ltac step_quiet :=
  cbv beta zeta;
  first
    [ apply quiet_ret | apply quiet_throw | apply quiet_log | apply quiet_guard
    | apply quiet_math_random
    | apply quiet_await | apply quiet_call | apply quiet_delay
    | apply quiet_submit | apply quiet_checkStop
    | apply quiet_request
    | apply quiet_try_catch; [| intro]
    | apply quiet_bind; [| intro]
    | match goal with
      | |- quiet (if ?c then _ else _) => destruct c
      | |- quiet (match ?x with _ => _ end) => destruct x
      end ].

Ltac quiet_tac := autounfold with orch; repeat step_quiet.

Lemma quiet_distribute todo :
  forall i mn mx l rem, quiet (distribute env todo i mn mx l rem).
Proof.
  induction todo as [|todo IH]; intros; cbn [distribute].
  - apply quiet_ret.
  - quiet_tac; apply IH.
Qed.

Lemma quiet_createWallets todo :
  forall i allocations ws, quiet (createWallets env todo i allocations ws).
Proof.
  induction todo as [|todo IH]; intros i allocations ws; cbn [createWallets].
  - apply quiet_ret.
  - quiet_tac. apply IH.
Qed.

Lemma quiet_for_each_wallet p body :
  (forall i e, quiet (body i e)) ->
  forall ws i, quiet (for_each_wallet p body i ws).
Proof.
  intros Hb. induction ws as [|e rest IH]; intro i; cbn [for_each_wallet].
  - apply quiet_ret.
  - quiet_tac; [apply Hb|apply IH].
Qed.

Lemma quiet_unless_stopped p rest : quiet rest -> quiet (unless_stopped p rest).
Proof.
  intro H. unfold unless_stopped.
  apply quiet_bind; [apply quiet_checkStop|intros [|]]; [|exact H].
  intros w Hw. split; [constructor|exact Hw].
Qed.

Lemma quiet_fundWallet master gas i e : quiet (fundWallet env master gas i e).
Proof. unfold fundWallet. quiet_tac. Qed.

Lemma quiet_swapWallet config i e : quiet (swapWallet env config i e).
Proof. unfold swapWallet. quiet_tac. Qed.

Lemma quiet_consolidateWallet config i e :
  quiet (consolidateWallet env config i e).
Proof. unfold consolidateWallet. quiet_tac. Qed.

Lemma quiet_generateRandomAllocations n total mn mx :
  quiet (generateRandomAllocations env n total mn mx).
Proof.
  unfold generateRandomAllocations.
  apply quiet_bind; [apply quiet_guard|intros _].
  apply quiet_bind; [quiet_tac|intros _].
  cbv zeta. apply quiet_bind; [apply quiet_distribute|intros [l rem]].
  apply quiet_ret.
Qed.

Lemma quiet_validateConfig config : quiet (validateConfig env config).
Proof. unfold validateConfig. quiet_tac. Qed.

Lemma quiet_operation config password : quiet (operation env config password).
Proof.
  unfold operation.
  apply quiet_bind; [apply quiet_validateConfig|intros _].
  apply quiet_bind; [quiet_tac|intro master].
  apply quiet_bind; [quiet_tac|intro balance].
  cbv zeta.
  apply quiet_bind; [apply quiet_generateRandomAllocations|intro allocations].
  apply quiet_bind; [apply quiet_guard|intros _].
  unfold step3. apply quiet_bind; [apply quiet_createWallets|intro ws].
  apply quiet_unless_stopped. unfold step4, fundWallets.
  apply quiet_bind;
    [apply quiet_for_each_wallet; intros; apply quiet_fundWallet|intros _].
  apply quiet_unless_stopped. unfold step5, swapWallets.
  apply quiet_bind;
    [apply quiet_for_each_wallet; intros; apply quiet_swapWallet|intros _].
  apply quiet_unless_stopped. unfold step6, consolidateWallets.
  apply quiet_for_each_wallet; intros; apply quiet_consolidateWallet.
Qed.

Lemma quiet_cleanupWallets config l :
  forall i, quiet (cleanupWallets env config i l).
Proof.
  induction l as [|r l IH]; intro i; cbn [cleanupWallets].
  - apply quiet_ret.
  - apply quiet_bind; [unfold cleanupWallet; quiet_tac|intros _; apply IH].
Qed.

Lemma quiet_attempt_cleanup config password :
  quiet (attempt_cleanup env config password).
Proof.
  unfold attempt_cleanup, cleanupAndConsolidateFunds.
  apply quiet_try_catch; [|intro; apply quiet_log].
  apply quiet_bind; [quiet_tac|intros [|r l]].
  - apply quiet_ret.
  - apply quiet_cleanupWallets.
Qed.

Lemma executeOperation_calm config password w :
  isRunning w = false ->
  Forall unobserved (events (executeOperation env config password w)).
Proof.
  intro Hr. rewrite (executeOperation_run env config password w Hr).
  destruct (quiet_operation config password (started w) eq_refl) as [E1 S1].
  destruct (outcome (operation env config password (started w)));
    cbn [events snd]; [exact E1|].
  apply Forall_app. split; [exact E1|].
  apply quiet_attempt_cleanup. exact S1.
Qed.

End Calm.

(** X12.  A run during which nobody presses stop is never cancelled: no
    check finds the flag set, even if the flag was still set from an
    earlier, cancelled run when [executeOperation] was called (it is
    cleared at the start), and the flag is clear when the run ends. *)
Theorem no_stop_request_no_cancellation (env : Env) (config : AppConfig)
  (password : string) (w : World) :
  (forall s, stop_during env s = false) ->
  isRunning w = false ->
  (forall c, ~ In (Check c true) (events (executeOperation env config password w)))
  /\ shouldStop (final (executeOperation env config password w)) = false.
Proof.
  intros Hcalm Hr. split.
  - intros c Hin.
    apply (observed_not_unobserved c _
             (executeOperation_calm env Hcalm config password w Hr) Hin).
  - rewrite (executeOperation_run env config password w Hr).
    destruct (quiet_operation env Hcalm config password (started w) eq_refl)
      as [E1 S1].
    destruct (outcome (operation env config password (started w)));
      cbn [final fst snd]; unfold finished.
    + destruct (watchdogTimer _); cbn; exact S1.
    + destruct (quiet_attempt_cleanup env Hcalm config password
                  (failed_in (final (operation env config password (started w))))
                  S1) as [_ S2].
      destruct (watchdogTimer _); cbn; exact S2.
Qed.

Lemma no_stop_request_no_cancellation_witness :
  (forall c,
     ~ In (Check c true)
          (events (executeOperation Scenario.calm (Scenario.config_for 1) "pw"
                     (set_shouldStop true Scenario.idle))))
  /\ shouldStop (final (executeOperation Scenario.calm (Scenario.config_for 1)
                          "pw" (set_shouldStop true Scenario.idle))) = false.
Proof.
  apply (no_stop_request_no_cancellation Scenario.calm (Scenario.config_for 1)
           "pw" (set_shouldStop true Scenario.idle)).
  - intro s. reflexivity.
  - reflexivity.
Defined.

(* ================================================================== *)
(** ** A run that completes *)

Lemma hoare_bind {A B} P (m : M A) (f : A -> M B) Q1 Q :
  hoare P m Q1 -> (forall a, hoare (Q1 a) (f a) Q) -> hoare P (bind m f) Q.
Proof.
  intros Hm Hf w Hw b. rewrite bind_run.
  destruct (outcome (m w)) as [a|e] eqn:E; cbn [outcome final fst snd];
    [|discriminate].
  apply (Hf a). apply (Hm w Hw a E).
Qed.

Lemma hoare_invariant {A} I (m : M A) : invariant I m -> hoare I m (fun _ => I).
Proof. intros H w Hw a _. apply H. exact Hw. Qed.

Lemma invariant_of {A} (J : Database -> Prop) (m : M A) :
  quiet m -> keeps J m ->
  invariant (fun w => shouldStop w = false /\ J (database w)) m.
Proof.
  intros Hq Hk w [H1 H2]. split; [apply (Hq w H1)|apply (Hk w H2)].
Qed.

(** Under a clear flag the check at a phase boundary lets the rest run. *)
Lemma hoare_unless_stopped P p rest Q :
  (forall w, P w -> shouldStop w = false) ->
  hoare P rest Q -> hoare P (unless_stopped p rest) Q.
Proof.
  intros Hs Hr w Hw a. unfold unless_stopped. rewrite bind_run.
  cbn [checkStop outcome final events fst snd]. rewrite (Hs w Hw).
  apply Hr. exact Hw.
Qed.

(** Under a clear flag the loop runs every iteration; [Inv done] is what
    holds once the wallets of [done] have been handled. *)
Lemma hoare_for_each_wallet (Inv : list Entry -> World -> Prop) p body :
  (forall done w, Inv done w -> shouldStop w = false) ->
  forall ws done i,
    (forall j e seen, In e ws ->
                      hoare (Inv seen) (body j e) (fun _ => Inv (seen ++ [e]))) ->
    hoare (Inv done) (for_each_wallet p body i ws) (fun _ => Inv (done ++ ws)).
Proof.
  intros Hs. induction ws as [|e rest IH]; intros done i Hb w Hw u;
    cbn [for_each_wallet].
  - intros _. rewrite app_nil_r. exact Hw.
  - rewrite bind_run. cbn [checkStop outcome final events fst snd].
    rewrite (Hs done w Hw). rewrite bind_run.
    destruct (outcome (body i e w)) as [[]|err] eqn:E;
      cbn [outcome final fst snd]; [|discriminate].
    intro E2.
    replace (done ++ e :: rest) with ((done ++ [e]) ++ rest)
      by (rewrite <- app_assoc; reflexivity).
    apply (IH (done ++ [e]) (S i)) with (a := u); [| |exact E2].
    + intros j x seen Hx. apply Hb. right. exact Hx.
    + apply (Hb i e done (or_introl eq_refl) w Hw tt E).
Qed.

Lemma hoare_of_keeps {A} (J : Database -> Prop) (m : M A) :
  keeps J m ->
  hoare (fun w => J (database w)) m (fun _ w => J (database w)).
Proof. intros H w Hw a _. apply H. exact Hw. Qed.

Section CompletedRun.

Variable env : Env.
Variable config : AppConfig.
Variable old : list (positive * WalletInfo).
Variable k0 : positive.

Hypothesis calm : forall s, stop_during env s = false.
Hypothesis old_below : forall e, In e old -> (fst e < k0)%positive.

Lemma holds_run_updateWallet ws d k st d' :
  (k0 <= k)%positive -> holds_run old k0 ws d ->
  db_updateWallet k st d = Some d' -> holds_run old k0 ws d'.
Proof.
  intros Hg [[new [E Hn]] [Hws Hk]] Eu. unfold db_updateWallet in Eu.
  destruct (has_key k (wallets d)); [|discriminate]. inversion Eu; subst.
  split; cbn; [|split; [exact Hws|exact Hk]].
  exists (put k (with_status st) new). rewrite E, put_app. split.
  - f_equal. apply put_elsewhere. intros e He. specialize (old_below e He). lia.
  - rewrite map_fst_put. exact Hn.
Qed.

Lemma holds_run_saveTransaction ws d t :
  holds_run old k0 ws d -> holds_run old k0 ws (snd (db_saveTransaction t d)).
Proof. intro H. exact H. Qed.

Lemma holds_run_updateTransaction ws d k st hash err d' :
  holds_run old k0 ws d -> db_updateTransaction k st hash err d = Some d' ->
  holds_run old k0 ws d'.
Proof.
  intros H Eu. unfold db_updateTransaction in Eu.
  destruct (has_key k (transactions d)); [|discriminate]. inversion Eu; subst.
  exact H.
Qed.

Lemma holds_run_has_key ws d e :
  holds_run old k0 ws d -> In e ws -> has_key (dbId e) (wallets d) = true.
Proof.
  intros [[new [E Hn]] _] He. apply has_key_in.
  assert (Hin : In (dbId e) (map fst new)) by (rewrite Hn; apply in_map; exact He).
  apply in_map_iff in Hin. destruct Hin as [[k r] [Ek Hr]]. cbn in Ek. subst k.
  exists r. rewrite E. apply in_or_app. right. exact Hr.
Qed.

Lemma holds_run_good ws d e :
  holds_run old k0 ws d -> In e ws -> (k0 <= dbId e)%positive.
Proof.
  intros [_ [Hws _]] He. rewrite Forall_forall in Hws. apply Hws. exact He.
Qed.

(** With the flag clear [createWallets] makes its [todo] wallets, when it
    returns. *)
Lemma createWallets_all todo :
  forall i allocations ws,
    hoare (running old k0 ws) (createWallets env todo i allocations ws)
          (fun ws' w => running old k0 ws' w /\ length ws' = (length ws + todo)%nat).
Proof.
  induction todo as [|todo IH]; intros i allocations ws w [Hs Hw] ws';
    cbn [createWallets].
  - intro E. inversion E; subst. cbn. split; [split; assumption|lia].
  - rewrite bind_run. cbn [checkStop outcome final events fst snd]. rewrite Hs.
    rewrite bind_run. unfold createWallet. rewrite await_run.
    destruct (rejects env (site Create i CreateWallet));
      cbn [outcome final events fst snd]; [discriminate|].
    rewrite bind_run. unfold saveWallet. rewrite request_run.
    destruct (rejects env (site Create i SaveWallet));
      cbn [outcome final events fst snd]; [discriminate|].
    unfold db_saveWallet. cbv beta iota zeta. cbn [outcome final events fst snd].
    rewrite bind_run, delay_run. cbn [outcome final events fst snd].
    intro E. eapply IH in E.
    + destruct E as [HR HL]. split; [exact HR|].
      rewrite HL, length_app. cbn. lia.
    + unfold running. rewrite !interrupted_calm by exact calm. cbn.
      split; [exact Hs|].
      destruct Hw as [[new [E1 Hn]] [Hws Hk]]. split; [|split].
      * eexists (new ++ [(walletKey (database w), _)]).
        rewrite E1, app_assoc. split; [reflexivity|].
        rewrite !map_app, Hn. reflexivity.
      * apply Forall_app. split; [exact Hws|]. repeat constructor. exact Hk.
      * cbn. lia.
Qed.

Lemma running_fundWallet ws master gas i e :
  In e ws -> invariant (running old k0 ws) (fundWallet env master gas i e).
Proof.
  intros He w [Hs Hw].
  split; [apply (quiet_fundWallet env calm); exact Hs|].
  apply (keeps_fundWallet env (fun k => (k0 <= k)%positive) _
           (holds_run_updateWallet ws) (holds_run_saveTransaction ws)
           (holds_run_updateTransaction ws));
    [exact (holds_run_good ws _ e Hw He)|exact Hw].
Qed.

Lemma running_swapWallet ws i e :
  In e ws -> invariant (running old k0 ws) (swapWallet env config i e).
Proof.
  intros He w [Hs Hw].
  split; [apply (quiet_swapWallet env calm); exact Hs|].
  apply (keeps_swapWallet env (fun k => (k0 <= k)%positive) _
           (holds_run_updateWallet ws) (holds_run_saveTransaction ws)
           (holds_run_updateTransaction ws));
    [exact (holds_run_good ws _ e Hw He)|exact Hw].
Qed.

Lemma running_consolidateWallet ws i e :
  In e ws -> invariant (running old k0 ws) (consolidateWallet env config i e).
Proof.
  intros He w [Hs Hw].
  split; [apply (quiet_consolidateWallet env calm); exact Hs|].
  apply (keeps_consolidateWallet env (fun k => (k0 <= k)%positive) _
           (holds_run_updateWallet ws) (holds_run_saveTransaction ws)
           (holds_run_updateTransaction ws));
    [exact (holds_run_good ws _ e Hw He)|exact Hw].
Qed.

(** A loop whose iterations maintain [running old k0 ws] maintains it. *)
Lemma running_for_each_wallet ws p body :
  (forall i e, In e ws -> invariant (running old k0 ws) (body i e)) ->
  forall l, incl l ws -> forall i,
    invariant (running old k0 ws) (for_each_wallet p body i l).
Proof.
  intros Hb. induction l as [|e rest IH]; intros Hl i w Hw;
    cbn [for_each_wallet].
  - exact Hw.
  - rewrite bind_run. cbn [checkStop outcome final events fst snd].
    destruct Hw as [Hs Hw]. rewrite Hs. rewrite bind_run.
    pose proof (Hb i e (Hl e (or_introl eq_refl)) w (conj Hs Hw)) as H1.
    destruct (outcome (body i e w)); cbn [final fst snd]; [|exact H1].
    apply IH; [|exact H1]. intros x Hx. apply Hl. right. exact Hx.
Qed.

(** An iteration of step 6 leaves the wallet [completed] when the ledger
    takes the status update of the handler, whatever happens to the
    transfers. *)
Lemma consolidateWallet_completes i e w :
  has_key (dbId e) (wallets (database w)) = true ->
  rejects env (site Consolidate i (UpdateWallet completed true)) = false ->
  all_completed (dbId e)
    (wallets (database (final (consolidateWallet env config i e w)))).
Proof.
  intros Hkey Hrej. unfold consolidateWallet.
  set (P := fun (store : list (positive * WalletInfo)) (_ : option AppConfig) =>
              has_key (dbId e) store = true).
  assert (HP : forall k st store c, P store c -> P (put k (with_status st) store) c).
  { intros k st store c H. unfold P. rewrite has_key_put. exact H. }
  match goal with
  | |- context [try_catch ?body ?h] =>
      assert (Hk : keeps (fun d => has_key (dbId e) (wallets d) = true) body);
      [|assert (Hb : hoare (fun w => has_key (dbId e) (wallets (database w)) = true)
                           body
                           (fun _ w => all_completed (dbId e) (wallets (database w))))]
  end.
  { unfold getTokenBalance, transferToken, transferETH, provider_getBalance,
      provider_getFeeData.
    store_keeps P; apply HP. }
  { apply hoare_bind with
      (Q1 := fun _ w => has_key (dbId e) (wallets (database w)) = true);
      [apply (hoare_of_keeps (fun d => has_key (dbId e) (wallets d) = true));
       unfold getTokenBalance; store_keeps P|intro balance].
    cbv zeta.
    apply hoare_bind with
      (Q1 := fun _ w => has_key (dbId e) (wallets (database w)) = true);
      [apply (hoare_of_keeps (fun d => has_key (dbId e) (wallets d) = true));
       unfold transferToken; store_keeps P|intros _].
    apply hoare_bind with
      (Q1 := fun _ w => has_key (dbId e) (wallets (database w)) = true);
      [apply (hoare_of_keeps (fun d => has_key (dbId e) (wallets d) = true));
       unfold provider_getBalance; store_keeps P|intro wei].
    apply hoare_bind with
      (Q1 := fun _ w => has_key (dbId e) (wallets (database w)) = true);
      [apply (hoare_of_keeps (fun d => has_key (dbId e) (wallets d) = true));
       unfold provider_getFeeData, transferETH;
       store_keeps P|intros _].
    intros w1 Hw1 a. unfold updateWallet. rewrite request_run.
    destruct (rejects env (site Consolidate i (UpdateWallet completed false)));
      [discriminate|].
    unfold db_updateWallet. rewrite Hw1.
    cbn [option_map outcome final events fst snd database set_database wallets].
    intros _. apply all_completed_put_same. }
  rewrite bind_run, try_catch_run.
  match goal with
  | |- context [outcome (?body w)] =>
      pose proof (Hk w Hkey) as Hk1; pose proof (Hb w Hkey) as Hb1;
      destruct (body w) as [[[[]|err] w1] t];
      cbn [outcome final events fst snd] in *
  end.
  - rewrite delay_run. cbn [final fst snd]. rewrite interrupted_database.
    apply (Hb1 tt eq_refl).
  - rewrite bind_run. cbn [log modify outcome final events fst snd].
    rewrite try_catch_run. unfold updateWallet. rewrite request_run, Hrej.
    unfold db_updateWallet.
    replace (database (add_log error "Failed to transfer from wallet" w1))
      with (database w1) by reflexivity.
    rewrite Hk1.
    cbn [option_map outcome final events fst snd].
    rewrite delay_run. cbn [final fst snd]. rewrite interrupted_database.
    cbn [database set_database wallets]. apply all_completed_put_same.
Qed.

Lemma all_completed_consolidateWallet k i e :
  keeps (fun d => all_completed k (wallets d)) (consolidateWallet env config i e).
Proof.
  unfold consolidateWallet, getTokenBalance, transferToken, transferETH,
    provider_getBalance, provider_getFeeData.
  store_keeps (fun store (_ : option AppConfig) => all_completed k store);
    intros store _; apply all_completed_put.
Qed.

Hypothesis status_written :
  forall i, rejects env (site Consolidate i (UpdateWallet completed true)) = false.

(** With the flag clear step 6 completes every wallet of the run. *)
Lemma consolidateWallets_complete ws :
  hoare (running old k0 ws) (consolidateWallets env config 0 ws)
        (fun _ w => running old k0 ws w
                    /\ forall e, In e ws ->
                                 all_completed (dbId e) (wallets (database w))).
Proof.
  pose (Inv := fun (done : list Entry) (w : World) =>
                 running old k0 ws w
                 /\ forall e, In e done ->
                              all_completed (dbId e) (wallets (database w))).
  assert (H : hoare (Inv []) (consolidateWallets env config 0 ws)
                    (fun _ => Inv ([] ++ ws))).
  { apply hoare_for_each_wallet.
    - intros done w [[Hs _] _]. exact Hs.
    - intros j e seen He w [Hrun Hseen] [] _. split.
      + apply running_consolidateWallet; assumption.
      + intros x Hx. apply in_app_or in Hx. destruct Hx as [Hx|[<-|[]]].
        * apply all_completed_consolidateWallet. apply Hseen. exact Hx.
        * apply consolidateWallet_completes; [|apply status_written].
          destruct Hrun as [_ Hrun]. exact (holds_run_has_key ws _ e Hrun He). }
  intros w Hw a E. apply (H w (conj Hw (fun e (F : In e []) => match F with end)) a E).
Qed.

Lemma operation_completes password :
  hoare (running old k0 []) (operation env config password)
        (fun _ w =>
           exists ws, length ws = Z.to_nat (numWallets config)
                      /\ holds_run old k0 ws (database w)
                      /\ forall e, In e ws ->
                                   all_completed (dbId e) (wallets (database w))).
Proof.
  assert (Hpre : forall A (m : M A),
             quiet m -> (forall J, keeps J m) ->
             hoare (running old k0 []) m (fun _ => running old k0 [])).
  { intros A m Hq Hk. apply hoare_invariant.
    apply (invariant_of (holds_run old k0 [])); [exact Hq|apply Hk]. }
  unfold operation.
  eapply hoare_bind;
    [apply Hpre; [apply quiet_validateConfig; exact calm
                 |intro; unfold validateConfig; keeps_tac]|intros ?; cbv beta].
  eapply hoare_bind;
    [apply Hpre; [apply quiet_call|intro; keeps_tac]|intro master; cbv beta].
  eapply hoare_bind;
    [apply Hpre; [apply quiet_await; exact calm|intro; keeps_tac]|intro balance; cbv beta].
  cbv zeta.
  eapply hoare_bind;
    [apply Hpre; [apply quiet_generateRandomAllocations; exact calm
                 |intro; apply keeps_generateRandomAllocations]|intro allocations; cbv beta].
  eapply hoare_bind;
    [apply Hpre; [apply quiet_guard|intro; apply keeps_guard]|intros ?; cbv beta].
  unfold step3.
  eapply hoare_bind; [apply createWallets_all|intro ws].
  cbv beta. intros w [Hrun Hlen] u.
  revert w Hrun u.
  change (hoare (running old k0 ws)
                (unless_stopped Create
                   (step4 env config master (parseFloat (gasAmount config)) ws))
                (fun _ w =>
                   exists ws0, length ws0 = Z.to_nat (numWallets config)
                               /\ holds_run old k0 ws0 (database w)
                               /\ forall e, In e ws0 ->
                                    all_completed (dbId e) (wallets (database w)))).
  assert (Hloop : forall p body,
             (forall i e, In e ws -> invariant (running old k0 ws) (body i e)) ->
             hoare (running old k0 ws) (for_each_wallet p body 0 ws)
                   (fun _ => running old k0 ws)).
  { intros p body Hb. apply hoare_invariant.
    apply running_for_each_wallet; [exact Hb|apply incl_refl]. }
  apply hoare_unless_stopped; [intros w [Hs _]; exact Hs|].
  unfold step4, fundWallets.
  eapply hoare_bind;
    [apply Hloop; intros; apply running_fundWallet; assumption|intros ?; cbv beta].
  apply hoare_unless_stopped; [intros w [Hs _]; exact Hs|].
  unfold step5, swapWallets.
  eapply hoare_bind;
    [apply Hloop; intros; apply running_swapWallet; assumption|intros ?; cbv beta].
  apply hoare_unless_stopped; [intros w [Hs _]; exact Hs|].
  unfold step6. intros w Hw u E.
  destruct (consolidateWallets_complete ws w Hw u E) as [[_ H1] H2].
  exists ws. split; [cbn in Hlen; exact Hlen|]. split; assumption.
Qed.

End CompletedRun.

(** X14.  A run of [executeOperation] during which nobody presses stop and
    that returns has made all its [numWallets] wallets and left each of
    them [completed], after the wallets the ledger already had, provided
    the ledger takes the status update made when a wallet's step 6 failed. *)
Theorem uninterrupted_run_completes_its_wallets (env : Env) (config : AppConfig)
  (password : string) (w : World) :
  (forall s, stop_during env s = false) ->
  (forall i, rejects env (site Consolidate i (UpdateWallet completed true)) = false) ->
  isRunning w = false ->
  (forall e, In e (wallets (database w)) ->
             (fst e < walletKey (database w))%positive) ->
  outcome (executeOperation env config password w) = Ret tt ->
  exists new,
    wallets (database (final (executeOperation env config password w)))
    = wallets (database w) ++ new
    /\ length new = Z.to_nat (numWallets config)
    /\ forall e, In e new -> status (snd e) = completed.
Proof.
  intros Hcalm Hst Hr Hold.
  rewrite (executeOperation_run env config password w Hr).
  pose proof (operation_completes env config (wallets (database w))
                (walletKey (database w)) Hcalm Hold Hst password (started w))
    as Ho.
  destruct (outcome (operation env config password (started w))) as [[]|e];
    cbn [outcome final fst snd]; [|discriminate].
  intros _. rewrite finished_database.
  assert (Hstart : running (wallets (database w)) (walletKey (database w)) []
                           (started w)).
  { split; [reflexivity|]. split; [|split; [constructor|cbn; lia]].
    exists []. cbn. rewrite app_nil_r. auto. }
  destruct (Ho Hstart tt eq_refl) as [ws [Hlen [[[new [E Hn]] _] Hdone]]].
  exists new. split; [exact E|]. split.
  - rewrite <- Hlen, <- (length_map fst new), Hn, length_map. reflexivity.
  - intros [k r] Hin. cbn [snd].
    assert (Hk : In k (map dbId ws))
      by (rewrite <- Hn; apply (in_map fst _ _ Hin)).
    apply in_map_iff in Hk. destruct Hk as [e [<- He]].
    apply (Hdone e He). rewrite E. apply in_or_app. right. exact Hin.
Qed.

Lemma uninterrupted_run_completes_its_wallets_witness :
  exists new,
    wallets (database (final (executeOperation Scenario.calm
                                (Scenario.config_for 2) "pw" Scenario.earlier_run)))
    = wallets (database Scenario.earlier_run) ++ new
    /\ length new = 2%nat
    /\ forall e, In e new -> status (snd e) = completed.
Proof.
  apply (uninterrupted_run_completes_its_wallets Scenario.calm
           (Scenario.config_for 2) "pw" Scenario.earlier_run).
  - intro s. reflexivity.
  - intro i. reflexivity.
  - reflexivity.
  - intros e [<-|[]]. reflexivity.
  - vm_compute. reflexivity.
Defined.

(* ================================================================== *)
(** ** Manual transfer back *)

Lemma hoare_throw {A} P e (Q : A -> World -> Prop) : hoare P (throw e) Q.
Proof. intros w _ a E. discriminate E. Qed.

(** Whether it returns or throws, [transferBackFromWallet] leaves the
    wallet [completed] when the wallet exists and the ledger takes the
    status update of the handler. *)
Lemma transferBack_completes env walletId password target gasLimit w :
  has_key walletId (wallets (database w)) = true ->
  rejects env (site Manual 0 (UpdateWallet completed true)) = false ->
  all_completed walletId
    (wallets (database
       (final (transferBackFromWallet env walletId password target gasLimit w)))).
Proof.
  intros Hkey Hrej. unfold transferBackFromWallet.
  set (J := fun d => has_key walletId (wallets d) = true).
  set (P := fun (store : list (positive * WalletInfo)) (_ : option AppConfig) =>
              has_key walletId store = true).
  assert (HP : forall k st store c, P store c -> P (put k (with_status st) store) c).
  { intros k st store c H. unfold P. rewrite has_key_put. exact H. }
  match goal with
  | |- context [try_catch ?body ?h] =>
      assert (Hk : keeps J body);
      [|assert (Hb : hoare (fun w => J (database w)) body
                           (fun _ w => all_completed walletId (wallets (database w))))]
  end.
  { unfold loadWallet, getTokenBalance, transferToken, transferETH,
      provider_getBalance, provider_getFeeData.
    store_keeps P; apply HP. }
  { apply hoare_bind with (Q1 := fun _ w => J (database w));
      [apply (hoare_of_keeps J); store_keeps P|intros [walletInfo|]];
      [|apply hoare_throw].
    apply hoare_bind with (Q1 := fun _ w => J (database w));
      [apply (hoare_of_keeps J); unfold loadWallet; store_keeps P|intro wallet].
    apply hoare_bind with (Q1 := fun _ w => J (database w));
      [apply (hoare_of_keeps J); store_keeps P|intros [config|]];
      [|apply hoare_throw].
    apply hoare_bind with (Q1 := fun _ w => J (database w));
      [apply (hoare_of_keeps J); unfold getTokenBalance; store_keeps P
      |intro balance].
    cbv zeta.
    apply hoare_bind with (Q1 := fun _ w => J (database w));
      [apply (hoare_of_keeps J); unfold transferToken; store_keeps P|intros _].
    apply hoare_bind with (Q1 := fun _ w => J (database w));
      [apply (hoare_of_keeps J); unfold provider_getBalance; store_keeps P
      |intro balanceWei].
    apply hoare_bind with (Q1 := fun _ w => J (database w));
      [apply (hoare_of_keeps J); unfold provider_getFeeData, transferETH;
       store_keeps P|intros _].
    intros w1 Hw1 a. unfold updateWallet. rewrite request_run.
    destruct (rejects env (site Manual 0 (UpdateWallet completed false)));
      [discriminate|].
    unfold db_updateWallet. unfold J in Hw1. rewrite Hw1.
    cbn [option_map outcome final events fst snd database set_database wallets].
    intros _. apply all_completed_put_same. }
  rewrite try_catch_run.
  match goal with
  | |- context [outcome (?body w)] =>
      pose proof (Hk w Hkey) as Hk1; pose proof (Hb w Hkey) as Hb1;
      destruct (body w) as [[[[]|err] w1] t];
      cbn [outcome final events fst snd] in *
  end.
  - apply (Hb1 tt eq_refl).
  - rewrite bind_run. cbn [log modify outcome final events fst snd].
    rewrite bind_run, try_catch_run. unfold updateWallet.
    rewrite request_run, Hrej. unfold db_updateWallet.
    replace (database (add_log error "Transfer back error" w1))
      with (database w1) by reflexivity.
    unfold J in Hk1. rewrite Hk1.
    cbn [option_map outcome final events fst snd throw database set_database
           wallets].
    apply all_completed_put_same.
Qed.

(** X15.  [transferBackFromWallet] marks the wallet [completed] whether
    the transfer back succeeded or not: when the wallet is in the ledger
    and the ledger takes the status update of the error handler, the
    wallet is [completed] after the call, be it that the call returned or
    that it threw (the key did not load, no configuration was stored, a
    balance could not be read, ...). *)
Theorem transfer_back_always_completes (env : Env) (walletId : positive)
  (password target : string) (gasLimit : option Z) (w : World) (r : WalletInfo) :
  In (walletId, r) (wallets (database w)) ->
  rejects env (site Manual 0 (UpdateWallet completed true)) = false ->
  (exists r', In (walletId, r')
                 (wallets (database
                    (final (transferBackFromWallet env walletId password target
                              gasLimit w)))))
  /\ forall r', In (walletId, r')
                   (wallets (database
                      (final (transferBackFromWallet env walletId password target
                                gasLimit w)))) ->
                status r' = completed.
Proof.
  intros Hin Hrej.
  assert (Hkey : has_key walletId (wallets (database w)) = true)
    by (apply has_key_in; eauto).
  split.
  - apply has_key_in.
    assert (Hk : keeps (fun d => has_key walletId (wallets d) = true)
                       (transferBackFromWallet env walletId password target gasLimit)).
    { unfold transferBackFromWallet, loadWallet, getTokenBalance, transferToken,
        transferETH, provider_getBalance, provider_getFeeData.
      store_keeps (fun (store : list (positive * WalletInfo))
                       (_ : option AppConfig) => has_key walletId store = true);
        intros store _ H; rewrite has_key_put; exact H. }
    apply Hk. exact Hkey.
  - apply transferBack_completes; assumption.
Qed.

Lemma transfer_back_always_completes_witness :
  (exists r',
      In (1%positive, r')
         (wallets (database
            (final (transferBackFromWallet
                      (Scenario.with_rejects (Scenario.only Manual 0 LoadWallet)
                                             Scenario.calm)
                      1 "wrong" Scenario.target None Scenario.earlier_run)))))
  /\ forall r',
      In (1%positive, r')
         (wallets (database
            (final (transferBackFromWallet
                      (Scenario.with_rejects (Scenario.only Manual 0 LoadWallet)
                                             Scenario.calm)
                      1 "wrong" Scenario.target None Scenario.earlier_run)))) ->
      status r' = completed.
Proof.
  apply (transfer_back_always_completes
           (Scenario.with_rejects (Scenario.only Manual 0 LoadWallet) Scenario.calm)
           1 "wrong" Scenario.target None
           Scenario.earlier_run (mkWallet None "0xold" "sealed" funded)).
  - left. reflexivity.
  - reflexivity.
Defined.

(** X16.  [transferBackFromWallet] for an id the ledger does not hold
    throws 'Wallet not found' and leaves the ledger as it was: it makes two
    calls only, the lookup and the status update of the error handler,
    which the ledger refuses; it loads no key, reads no balance and
    records or submits no transaction. *)
Theorem transfer_back_of_unknown_wallet (env : Env) (walletId : positive)
  (password target : string) (gasLimit : option Z) (w : World) :
  has_key walletId (wallets (database w)) = false ->
  rejects env (site Manual 0 GetWallet) = false ->
  outcome (transferBackFromWallet env walletId password target gasLimit w)
  = Thrown (Err "Wallet not found")
  /\ database (final (transferBackFromWallet env walletId password target
                        gasLimit w))
     = database w
  /\ events (transferBackFromWallet env walletId password target gasLimit w)
     = [Call (site Manual 0 GetWallet) true;
        Call (site Manual 0 (UpdateWallet completed true)) false].
Proof.
  intros Hkey Hrej. unfold transferBackFromWallet.
  match goal with
  | |- context [try_catch ?body ?h] =>
      assert (Eb : body w
                   = (Thrown (Err "Wallet not found"),
                      set_database (database w)
                        (interrupted env (site Manual 0 GetWallet) w),
                      [Call (site Manual 0 GetWallet) true]))
  end.
  { rewrite bind_run. unfold getWallet. rewrite request_run, Hrej.
    unfold db_getWallet.
    rewrite (proj1 (has_key_find_none walletId (wallets (database w))) Hkey).
    cbn [option_map outcome final events fst snd throw app]. reflexivity. }
  rewrite try_catch_run, Eb. cbn [outcome final events fst snd].
  rewrite !bind_run. cbn [log modify outcome final events fst snd].
  rewrite try_catch_run. unfold updateWallet. rewrite request_run.
  unfold db_updateWallet.
  cbn [add_log set_database database].
  rewrite Hkey. cbn [option_map].
  destruct (rejects env (site Manual 0 (UpdateWallet completed true)));
    cbn [outcome final events fst snd throw log modify add_log database app];
    rewrite ?interrupted_database; cbn [add_log set_database database];
    rewrite ?interrupted_database; auto.
Qed.

Lemma transfer_back_of_unknown_wallet_witness :
  outcome (transferBackFromWallet Scenario.calm 7 "pw" Scenario.target None
             Scenario.earlier_run)
  = Thrown (Err "Wallet not found")
  /\ database (final (transferBackFromWallet Scenario.calm 7 "pw" Scenario.target
                        None Scenario.earlier_run))
     = database Scenario.earlier_run
  /\ events (transferBackFromWallet Scenario.calm 7 "pw" Scenario.target None
               Scenario.earlier_run)
     = [Call (site Manual 0 GetWallet) true;
        Call (site Manual 0 (UpdateWallet completed true)) false].
Proof.
  apply (transfer_back_of_unknown_wallet Scenario.calm 7 "pw" Scenario.target None
           Scenario.earlier_run); reflexivity.
Defined.

(* ================================================================== *)
(** ** What a run takes from the master wallet *)














Section FundingBound.

Variable env : Env.












End FundingBound.










(* ================================================================== *)
(** ** What a wallet swaps *)






(* ================================================================== *)
(** ** The two checks of a configuration *)

Lemma guard_passed {A} c msg (k : M A) w a :
  outcome ((guard c msg;; k) w) = Ret a ->
  c = false /\ outcome (k w) = Ret a.
Proof.
  rewrite guard_bind_run. destruct c; [discriminate|]. auto.
Qed.

Lemma numeric_and_positive a :
  App.isNaN a || JS.le a (Num 0) = false ->
  a <> NaN /\ JS.le a (Num 0) = false.
Proof.
  intro H. apply Bool.orb_false_iff in H. destruct H as [H1 H2].
  split; [intros ->; discriminate H1|exact H2].
Qed.

(** X18.  The check the application makes before it stores a
    configuration and starts a run is at least as strict as the one
    [executeOperation] makes, the addresses apart: a configuration that
    passes [App.validateConfig] and whose two addresses [ethers.isAddress]
    accepts passes [validateConfig], and none of its four amounts parses
    to [NaN]. *)
Theorem app_check_implies_run_check (env : Env) (config : AppConfig)
  (w w' : World) :
  outcome (App.validateConfig (Some (numWallets config)) config w) = Ret tt ->
  isAddress env (tokenAddress config) = true ->
  isAddress env (targetAddress config) = true ->
  outcome (validateConfig env config w') = Ret tt
  /\ parseFloat (gasAmount config) <> NaN
  /\ parseFloat (minPurchaseAmount config) <> NaN
  /\ parseFloat (maxPurchaseAmount config) <> NaN
  /\ parseFloat (minKeptTokens config) <> NaN.
Proof.
  unfold App.validateConfig. intros H Ht Ha.
  apply guard_passed in H. destruct H as [_ H].
  apply guard_passed in H. destruct H as [_ H].
  apply guard_passed in H. destruct H as [_ H].
  apply guard_passed in H. destruct H as [Hn H].
  apply guard_passed in H. destruct H as [Hg H].
  apply guard_passed in H. destruct H as [Hmn H].
  apply guard_passed in H. destruct H as [Hmx H].
  apply guard_passed in H. destruct H as [Hord H].
  apply guard_passed in H. destruct H as [Hk H].
  unfold guard in H.
  destruct (App.lacks_prefix "http" (rpcUrl config)) eqn:Hr; [discriminate|].
  apply numeric_and_positive in Hg, Hmn, Hmx.
  destruct Hg as [Hg1 Hg2], Hmn as [Hmn1 Hmn2], Hmx as [Hmx1 Hmx2].
  apply Bool.orb_false_iff in Hk. destruct Hk as [Hk1 Hk2].
  apply Bool.orb_false_iff in Hn. destruct Hn as [Hn1 Hn2].
  unfold App.lacks_prefix in Hr. apply Bool.orb_false_iff in Hr.
  destruct Hr as [_ Hr]. apply Bool.negb_false_iff in Hr.
  split; [|repeat split; auto].
  - apply validateConfig_accepts; auto.
    apply Z.ltb_ge in Hn1. rewrite Z.gtb_ltb in Hn2. apply Z.ltb_ge in Hn2. lia.
  - intro E. rewrite E in Hk1. discriminate Hk1.
Qed.

Lemma app_check_implies_run_check_witness :
  outcome (validateConfig Scenario.calm (Scenario.config_for 3) Scenario.idle)
  = Ret tt
  /\ parseFloat (gasAmount (Scenario.config_for 3)) <> NaN
  /\ parseFloat (minPurchaseAmount (Scenario.config_for 3)) <> NaN
  /\ parseFloat (maxPurchaseAmount (Scenario.config_for 3)) <> NaN
  /\ parseFloat (minKeptTokens (Scenario.config_for 3)) <> NaN.
Proof.
  apply (app_check_implies_run_check Scenario.calm (Scenario.config_for 3)
           Scenario.idle Scenario.idle).
  - vm_compute. reflexivity.
  - vm_compute. reflexivity.
  - vm_compute. reflexivity.
Defined.

(* ================================================================== *)
(** ** Unlocking *)

Lemma find_put_metadata key value m :
  find (fun e => String.eqb (fst e) key) (Db.put_metadata key value m)
  = Some (key, value).
Proof. unfold Db.put_metadata. cbn. rewrite String.eqb_refl. reflexivity. Qed.

Lemma unlocked_fields password s :
  App.isUnlocked (App.unlocked password s) = true
  /\ App.masterPassword (App.unlocked password s) = password
  /\ App.database (App.unlocked password s) = App.database s.
Proof.
  unfold App.unlocked.
  destruct (fst (Db.getConfig _)); [repeat split|].
  destruct (fst (Db.getAllTransactions _)); [repeat split|].
  destruct (fst (Db.getAllWallets _)); repeat split.
Qed.

Lemma long_enough p :
  (8 <= String.length p)%nat ->
  ((p =? "")%string || (String.length p <? 8)%nat) = false.
Proof.
  intro Hp. apply Bool.orb_false_iff. split.
  - destruct p; [cbn in Hp; lia|reflexivity].
  - apply Nat.ltb_ge. exact Hp.
Qed.

(** The first unlock on a disk without a password hash. *)
Lemma first_unlock hashPassword p d :
  find (fun e => String.eqb (fst e) "passwordHash") (Db.metadata d) = None ->
  (8 <= String.length p)%nat ->
  App.isUnlocked (App.handleUnlock hashPassword p (App.start d)) = true
  /\ App.masterPassword (App.handleUnlock hashPassword p (App.start d)) = p
  /\ App.database (App.handleUnlock hashPassword p (App.start d))
     = Db.mkConnection true
         (Db.mkDisk (Db.ledger d)
                    (Db.put_metadata "passwordHash" (hashPassword p)
                                     (Db.metadata d))).
Proof.
  intros Hnone Hp.
  assert (E : App.handleUnlock hashPassword p (App.start d)
              = App.unlocked p
                  (App.with_database
                     (Db.with_metadata
                        (Db.put_metadata "passwordHash" (hashPassword p)
                                         (Db.metadata d))
                        (App.database (App.start d)))
                     (App.start d))).
  { unfold App.handleUnlock. rewrite (long_enough p Hp).
    unfold Db.getMetadata, Db.connected, App.start, Db.init.
    cbn [App.database Db.opened Db.disk Db.resolve fst]. rewrite Hnone.
    cbn [option_map]. reflexivity. }
  rewrite E.
  destruct (unlocked_fields p
              (App.with_database
                 (Db.with_metadata
                    (Db.put_metadata "passwordHash" (hashPassword p)
                                     (Db.metadata d))
                    (App.database (App.start d)))
                 (App.start d))) as [U1 [U2 U3]].
  rewrite U1, U2, U3. repeat split.
Qed.

(** X19.  The password is fixed by the first unlock.  On a database that
    holds no password hash, unlocking with a password of at least 8
    characters stores its hash and unlocks; once the page is loaded again
    [handleUnlock] unlocks with a password exactly when its hash is the
    stored one, and otherwise leaves the application locked, the master
    password unset and the stored hash as it is. *)
Theorem unlock_checks_password (hashPassword : string -> string)
  (first later : string) (d : Db.Disk) :
  find (fun e => String.eqb (fst e) "passwordHash") (Db.metadata d) = None ->
  (8 <= String.length first)%nat ->
  (8 <= String.length later)%nat ->
  hashPassword first <> "" ->
  App.isUnlocked (App.handleUnlock hashPassword first (App.start d)) = true
  /\ App.masterPassword (App.handleUnlock hashPassword first (App.start d))
     = first
  /\ fst (Db.getMetadata "passwordHash"
            (App.database (App.handleUnlock hashPassword first (App.start d))))
     = inr (Some (hashPassword first))
  /\ App.isUnlocked
       (App.handleUnlock hashPassword later
          (App.reload (App.handleUnlock hashPassword first (App.start d))))
     = (hashPassword later =? hashPassword first)%string
  /\ App.masterPassword
       (App.handleUnlock hashPassword later
          (App.reload (App.handleUnlock hashPassword first (App.start d))))
     = (if (hashPassword later =? hashPassword first)%string then later else "")
  /\ App.database
       (App.handleUnlock hashPassword later
          (App.reload (App.handleUnlock hashPassword first (App.start d))))
     = App.database (App.handleUnlock hashPassword first (App.start d)).
Proof.
  intros Hnone H1 H2 Hh.
  destruct (first_unlock hashPassword first d Hnone H1) as [U1 [U2 U3]].
  set (s1 := App.handleUnlock hashPassword first (App.start d)) in *.
  assert (Hsaved : find (fun e => String.eqb (fst e) "passwordHash")
                        (Db.metadata (Db.disk (App.database s1)))
                   = Some ("passwordHash", hashPassword first)).
  { rewrite U3. cbn [Db.disk Db.metadata]. apply find_put_metadata. }
  assert (Hopen : Db.opened (App.database s1) = true) by (rewrite U3; reflexivity).
  split; [exact U1|]. split; [exact U2|]. split.
  { unfold Db.getMetadata, Db.connected. rewrite Hopen.
    cbn [Db.resolve fst]. rewrite Hsaved. reflexivity. }
  assert (Hdb : App.database (App.reload s1) = App.database s1).
  { unfold App.reload, App.start, Db.init. cbn [App.database Db.disk].
    rewrite U3. reflexivity. }
  unfold App.handleUnlock. rewrite (long_enough later H2).
  unfold Db.getMetadata, Db.connected. rewrite Hdb, Hopen.
  cbn [Db.resolve fst]. rewrite Hsaved. cbn [option_map snd].
  destruct (hashPassword first =? "")%string eqn:E0;
    [apply String.eqb_eq in E0; contradiction|].
  destruct (hashPassword later =? hashPassword first)%string; cbn [negb].
  - destruct (unlocked_fields later (App.reload s1)) as [V1 [V2 V3]].
    rewrite V1, V2, V3, Hdb. auto.
  - cbn [App.alert App.isUnlocked App.masterPassword App.database].
    split; [reflexivity|]. split; [reflexivity|]. exact Hdb.
Qed.

Lemma unlock_checks_password_witness :
  App.isUnlocked
    (App.handleUnlock (String.append "h:") "battery staple"
       (App.reload (App.handleUnlock (String.append "h:") "correct horse"
                      (App.start (Db.disk Db.fresh)))))
  = (String.append "h:" "battery staple" =? String.append "h:" "correct horse")%string.
Proof.
  apply (unlock_checks_password (String.append "h:") "correct horse"
           "battery staple" (Db.disk Db.fresh)).
  - reflexivity.
  - cbn. lia.
  - cbn. lia.
  - discriminate.
Defined.

(** X23.  Clearing the database forgets the master password too: after
    [handleClearDatabase] (confirmed, on an open database) the wallets, the
    transactions, the configuration and the stored password hash are gone,
    and once the page is loaded again any password of at least 8
    characters unlocks the application and becomes the stored one. *)
Theorem clear_database_forgets_password (hashPassword : string -> string)
  (password : string) (s : App.State) :
  Db.opened (App.database s) = true ->
  (8 <= String.length password)%nat ->
  Db.disk (App.database (App.handleClearDatabase true s))
  = Db.mkDisk (mkDb [] (walletKey (Db.ledger (Db.disk (App.database s))))
                    [] (transactionKey (Db.ledger (Db.disk (App.database s))))
                    None)
              []
  /\ App.isUnlocked
       (App.handleUnlock hashPassword password
          (App.reload (App.handleClearDatabase true s))) = true
  /\ App.masterPassword
       (App.handleUnlock hashPassword password
          (App.reload (App.handleClearDatabase true s))) = password
  /\ fst (Db.getMetadata "passwordHash"
            (App.database
               (App.handleUnlock hashPassword password
                  (App.reload (App.handleClearDatabase true s)))))
     = inr (Some (hashPassword password)).
Proof.
  intros Hopen Hp.
  assert (Hd : Db.disk (App.database (App.handleClearDatabase true s))
               = Db.mkDisk
                   (mkDb [] (walletKey (Db.ledger (Db.disk (App.database s))))
                         [] (transactionKey (Db.ledger (Db.disk (App.database s))))
                         None)
                   []).
  { unfold App.handleClearDatabase, Db.clearAll, Db.connected.
    cbn [negb]. rewrite Hopen. cbn [Db.resolve].
    unfold Db.getAllTransactions, Db.getAllWallets, Db.connected.
    reflexivity. }
  split; [exact Hd|]. unfold App.reload. rewrite Hd.
  match goal with
  | |- context [App.start ?d] =>
      destruct (first_unlock hashPassword password d eq_refl Hp) as [U1 [U2 U3]]
  end.
  split; [exact U1|]. split; [exact U2|]. rewrite U3.
  unfold Db.getMetadata, Db.connected. cbn [Db.opened Db.resolve fst Db.disk
                                              Db.metadata].
  rewrite find_put_metadata. reflexivity.
Qed.

Lemma clear_database_forgets_password_witness :
  App.isUnlocked
    (App.handleUnlock (String.append "h:") "battery staple"
       (App.reload
          (App.handleClearDatabase true
             (App.handleUnlock (String.append "h:") "correct horse"
                (App.start (Db.disk Db.fresh)))))) = true.
Proof.
  apply (clear_database_forgets_password (String.append "h:") "battery staple"
           (App.handleUnlock (String.append "h:") "correct horse"
              (App.start (Db.disk Db.fresh)))).
  - reflexivity.
  - cbn. lia.
Defined.

(* ================================================================== *)
(** ** Pages of the tables *)

Lemma totalPages_spec n :
  Pager.totalPages n = ((Z.of_nat n + 19) / 20)%Z.
Proof.
  unfold Pager.totalPages, Pager.itemsPerPage, Qceiling, Qfloor, Qdiv, Qinv,
    Qmult, Qopp, inject_Z. cbn [Qnum Qden].
  set (a := Z.of_nat n). assert (0 <= a)%Z by (unfold a; lia).
  change (Z.pos (1 * 20)) with 20%Z.
  replace (- (a * 1))%Z with (- a)%Z by lia.
  pose proof (Z.div_mod (- a) 20 ltac:(lia)) as E1.
  pose proof (Z.mod_pos_bound (- a) 20 ltac:(lia)) as B1.
  pose proof (Z.div_mod (a + 19) 20 ltac:(lia)) as E2.
  pose proof (Z.mod_pos_bound (a + 19) 20 ltac:(lia)) as B2.
  lia.
Qed.

Lemma slice_page {A} (p : Z) (l : list A) :
  (1 <= p)%Z ->
  Pager.slice ((p - 1) * Pager.itemsPerPage)
              ((p - 1) * Pager.itemsPerPage + Pager.itemsPerPage) l
  = firstn 20 (skipn ((Z.to_nat p - 1) * 20) l).
Proof.
  intro Hp. unfold Pager.slice, Pager.itemsPerPage.
  replace (Z.to_nat ((p - 1) * 20 + 20 - (p - 1) * 20)) with 20%nat by lia.
  replace (Z.to_nat ((p - 1) * 20)) with ((Z.to_nat p - 1) * 20)%nat by lia.
  reflexivity.
Qed.

Lemma render_nonempty {A} (cur : Z) (all : list A) :
  all <> [] ->
  Pager.render cur all
  = (Z.max 1 (Z.min cur (Pager.totalPages (length all))),
     firstn 20
       (skipn ((Z.to_nat (Z.max 1 (Z.min cur (Pager.totalPages (length all)))) - 1)
               * 20) all)).
Proof.
  intro H. unfold Pager.render. destruct all as [|a l]; [contradiction|].
  cbv zeta. rewrite slice_page by lia. reflexivity.
Qed.

(** X20.  Whatever page number the buttons have left behind, a table with
    at least one row is shown on a page that exists, and that page is not
    empty: [render] puts the page number between 1 and the number of
    pages, keeps it when it already is, and shows between 1 and 20 rows,
    all of them rows of the table. *)
Theorem rendered_page_is_valid (A : Type) (cur : Z) (all : list A) :
  all <> [] ->
  (1 <= fst (Pager.render cur all) <= Pager.totalPages (length all))%Z
  /\ ((1 <= cur <= Pager.totalPages (length all))%Z ->
      fst (Pager.render cur all) = cur)
  /\ (1 <= length (snd (Pager.render cur all)) <= 20)%nat
  /\ incl (snd (Pager.render cur all)) all.
Proof.
  intro H. rewrite (render_nonempty cur all H). cbn [fst snd].
  assert (Hn : (1 <= length all)%nat).
  { destruct all; [contradiction|cbn; lia]. }
  pose proof (totalPages_spec (length all)) as Etp.
  set (tp := Pager.totalPages (length all)) in *.
  pose proof (Z.div_mod (Z.of_nat (length all) + 19) 20 ltac:(lia)) as E2.
  pose proof (Z.mod_pos_bound (Z.of_nat (length all) + 19) 20 ltac:(lia)) as B2.
  rewrite <- Etp in E2.
  set (p := Z.max 1 (Z.min cur tp)).
  assert (Hp : (1 <= p <= tp)%Z) by (unfold p; lia).
  split; [exact Hp|]. split; [intro Hc; unfold p; lia|]. split.
  - rewrite length_firstn, length_skipn. lia.
  - intros x Hx.
    rewrite <- (firstn_skipn ((Z.to_nat p - 1) * 20) all).
    apply in_or_app. right.
    rewrite <- (firstn_skipn 20 (skipn ((Z.to_nat p - 1) * 20) all)).
    apply in_or_app. left. exact Hx.
Qed.

Lemma rendered_page_is_valid_witness :
  (1 <= fst (Pager.render 7 [1%nat; 2%nat; 3%nat])
   <= Pager.totalPages (length [1%nat; 2%nat; 3%nat]))%Z
  /\ ((1 <= 7 <= Pager.totalPages (length [1%nat; 2%nat; 3%nat]))%Z ->
      fst (Pager.render 7 [1%nat; 2%nat; 3%nat]) = 7%Z)
  /\ (1 <= length (snd (Pager.render 7 [1%nat; 2%nat; 3%nat])) <= 20)%nat
  /\ incl (snd (Pager.render 7 [1%nat; 2%nat; 3%nat])) [1%nat; 2%nat; 3%nat].
Proof.
  apply (rendered_page_is_valid nat 7 [1%nat; 2%nat; 3%nat]). discriminate.
Defined.

Lemma firstn_skipn_add {A} (a b : nat) (l : list A) :
  firstn a l ++ firstn b (skipn a l) = firstn (a + b) l.
Proof.
  revert l. induction a as [|a IH]; intros [|x l]; cbn;
    rewrite ?firstn_nil; try reflexivity.
  f_equal. apply IH.
Qed.

Lemma chunks_concat {A} (l : list A) (m : nat) :
  concat (map (fun i => firstn 20 (skipn (i * 20) l)) (seq 0 m))
  = firstn (m * 20) l.
Proof.
  induction m as [|m IH]; [reflexivity|].
  rewrite seq_S, map_app, concat_app, IH. cbn [map concat Nat.add].
  rewrite app_nil_r, firstn_skipn_add. f_equal. lia.
Qed.

(** X21.  The pages of a table are its rows, each once and in order:
    the rows [render] shows on pages 1 to [totalPages], put end to end,
    are the table. *)
Theorem pages_partition_table (A : Type) (all : list A) :
  concat (map (fun p => snd (Pager.render (Z.of_nat p) all))
              (seq 1 (Z.to_nat (Pager.totalPages (length all)))))
  = all.
Proof.
  destruct all as [|a l] eqn:Eall.
  - reflexivity.
  - rewrite <- Eall. assert (Hne : all <> []) by (rewrite Eall; discriminate).
    clear Eall a l.
    pose proof (totalPages_spec (length all)) as Etp.
    set (tp := Pager.totalPages (length all)) in *.
    pose proof (Z.div_mod (Z.of_nat (length all) + 19) 20 ltac:(lia)) as E2.
    pose proof (Z.mod_pos_bound (Z.of_nat (length all) + 19) 20 ltac:(lia)) as B2.
    rewrite <- Etp in E2.
    rewrite <- seq_shift, map_map.
    rewrite (map_ext_in _ (fun i => firstn 20 (skipn (i * 20) all))).
    + rewrite chunks_concat. apply firstn_all2. lia.
    + intros i Hi. apply in_seq in Hi.
      rewrite (render_nonempty _ all Hne). cbn [snd]. fold tp.
      replace (Z.to_nat (Z.max 1 (Z.min (Z.of_nat (S i)) tp)) - 1)%nat
        with i by lia.
      reflexivity.
Qed.
